(** * Fuzzy employee search: a model of [SearchService]

    This development embeds [src/app/services/search.service.ts] and
    proves properties of its two entry points, [fuzzyMatchScore] (string
    similarity) and [searchEmployees] (filtering and ranking).  It goes
    on to the two components of [src/app/models/employee.model.ts]: the
    data table, which shows the result of the search sorted and in
    pages, and the carousel.

    Conventions of the embedding:
    - a JavaScript string is the list of its UTF-16 code units;
    - a JavaScript number is an exact rational, or one of the three
      special values [+Infinity], [-Infinity] and [NaN]; division by zero
      yields a special value exactly as in the language, rounding is not
      modelled;
    - [String.prototype.toLowerCase] is a parameter of the development:
      nothing below depends on the case-mapping tables of the host.

    Rounding.  The code computes with IEEE 754 doubles, the embedding
    with exact rationals.  Two scores that are equal as rationals can be
    two doubles that differ in the last place ([exact_scores_tie],
    [doubles_split_tie]); among records of equal exact score the order
    of [searchEmployees] is then not the order the code returns.  The
    statement on the order of the result is for this reason made for
    the scores as they are computed, whatever their rounding
    ([searchEmployees_by]); the module [F64] embeds the scoring on the
    doubles themselves.  In the carousel, the angles of the four slides
    of the component are multiples of 90 and exact in double precision;
    for other numbers of slides they can be rounded.  The statement on
    the card in front is made for the four slides. *)

From Stdlib Require Import String Ascii.
From Stdlib Require Import List Arith Lia Bool NArith ZArith QArith.
From Stdlib Require Import Permutation Sorted Lqa Qround.
From Stdlib Require PrimFloat FloatOps SpecFloat.
Import ListNotations.

Set Implicit Arguments.

(** ** JavaScript numbers *)

Module JSNum.

Inductive number : Type :=
| Fin (q : Q)
| PosInf
| NegInf
| NaN.

Definition of_nat (n : nat) : number := Fin (inject_Z (Z.of_nat n)).

Definition is_zero (q : Q) : bool := Qeq_bool q 0.
Definition is_pos (q : Q) : bool := negb (Qle_bool q 0).

(** [x + y] *)
Definition add (x y : number) : number :=
  match x, y with
  | NaN, _ | _, NaN => NaN
  | Fin a, Fin b => Fin (a + b)
  | PosInf, NegInf | NegInf, PosInf => NaN
  | PosInf, _ | _, PosInf => PosInf
  | NegInf, _ | _, NegInf => NegInf
  end.

(** [- x] *)
Definition neg (x : number) : number :=
  match x with
  | Fin a => Fin (- a)
  | PosInf => NegInf
  | NegInf => PosInf
  | NaN => NaN
  end.

(** [x - y] *)
Definition sub (x y : number) : number := add x (neg y).

(** Sign of a number: [Some true] positive, [Some false] negative,
    [None] for zero and [NaN]. *)
Definition sign (x : number) : option bool :=
  match x with
  | Fin a => if is_zero a then None else Some (is_pos a)
  | PosInf => Some true
  | NegInf => Some false
  | NaN => None
  end.

Definition inf_of_sign (s : bool) : number := if s then PosInf else NegInf.

(** [x * y] *)
Definition mul (x y : number) : number :=
  match x, y with
  | NaN, _ | _, NaN => NaN
  | Fin a, Fin b => Fin (a * b)
  | _, _ =>
      match sign x, sign y with
      | Some s, Some s' => inf_of_sign (Bool.eqb s s')
      | _, _ => NaN
      end
  end.

(** [x / y]: a zero divisor gives [NaN] for [0 / 0] and an infinity
    otherwise; it never raises. *)
Definition div (x y : number) : number :=
  match x, y with
  | NaN, _ | _, NaN => NaN
  | Fin a, Fin b =>
      if is_zero b then
        match sign x with
        | Some s => inf_of_sign s
        | None => NaN
        end
      else Fin (a / b)
  | Fin _, _ => Fin 0
  | _, Fin b => inf_of_sign (Bool.eqb (is_pos b || is_zero b)
                               (match x with PosInf => true | _ => false end))
  | _, _ => NaN
  end.

(** [x > y]; every comparison with [NaN] is false. *)
Definition gtb (x y : number) : bool :=
  match x, y with
  | NaN, _ | _, NaN => false
  | Fin a, Fin b => negb (Qle_bool a b)
  | PosInf, PosInf => false
  | PosInf, _ => true
  | _, NegInf => match x with NegInf => false | _ => true end
  | _, _ => false
  end.

(** [x >= y] *)
Definition geb (x y : number) : bool :=
  match x, y with
  | NaN, _ | _, NaN => false
  | Fin a, Fin b => Qle_bool b a
  | PosInf, _ => true
  | _, NegInf => true
  | _, _ => false
  end.

(** [x === y] on numbers *)
Definition eqb (x y : number) : bool :=
  match x, y with
  | Fin a, Fin b => Qeq_bool a b
  | PosInf, PosInf | NegInf, NegInf => true
  | _, _ => false
  end.

(** [Math.max] of two arguments. *)
Definition max2 (x y : number) : number :=
  match x, y with
  | NaN, _ | _, NaN => NaN
  | _, _ => if gtb y x then y else x
  end.

(** [Math.max(...l)]: [-Infinity] for no argument, [NaN] as soon as
    one argument is [NaN]. *)
Definition Math_max (l : list number) : number := fold_left max2 l NegInf.

Definition finite (x : number) : Prop := exists q, x = Fin q.

End JSNum.
Import JSNum.

(** ** JavaScript strings *)

(** A string is the sequence of its UTF-16 code units. *)
Definition jsstring : Type := list N.

(** Code units of a string literal restricted to one-byte characters. *)
Fixpoint lit (s : string) : jsstring :=
  match s with
  | EmptyString => []
  | String c s' => N_of_ascii c :: lit s'
  end.

(** [s === t] on strings. *)
Fixpoint str_eqb (s t : jsstring) : bool :=
  match s, t with
  | [], [] => true
  | c :: s', d :: t' => N.eqb c d && str_eqb s' t'
  | _, _ => false
  end.

(** [s[i] === t[j]]: an index out of range reads [undefined]. *)
Definition unit_eqb (c d : option N) : bool :=
  match c, d with
  | Some x, Some y => N.eqb x y
  | None, None => true
  | _, _ => false
  end.

(** [s.startsWith(p)] *)
Fixpoint startsWith (s p : jsstring) : bool :=
  match p, s with
  | [], _ => true
  | _ :: _, [] => false
  | d :: p', c :: s' => N.eqb c d && startsWith s' p'
  end.

(** [s.includes(p)] *)
Fixpoint includes (s p : jsstring) : bool :=
  startsWith s p ||
  match s with
  | [] => false
  | _ :: s' => includes s' p
  end.

(** White space and line terminators, the code units removed by
    [String.prototype.trim]. *)
Definition isWhiteSpace (c : N) : bool :=
  existsb (N.eqb c)
    [0x0009; 0x000A; 0x000B; 0x000C; 0x000D; 0x0020; 0x00A0; 0x1680;
     0x2028; 0x2029; 0x202F; 0x205F; 0x3000; 0xFEFF]%N
  || (N.leb 0x2000 c && N.leb c 0x200A).

Fixpoint trimStart (s : jsstring) : jsstring :=
  match s with
  | [] => []
  | c :: s' => if isWhiteSpace c then trimStart s' else s
  end.

Definition trimEnd (s : jsstring) : jsstring := rev (trimStart (rev s)).

(** [s.trim()] *)
Definition trim (s : jsstring) : jsstring := trimEnd (trimStart s).

(** Truthiness of a string: only the empty string is falsy. *)
Definition truthy (s : jsstring) : bool :=
  match s with
  | [] => false
  | _ :: _ => true
  end.

(** Lower-casing of the Basic Latin letters; used to run the model on
    concrete inputs. *)
Definition toLowerCaseASCII (s : jsstring) : jsstring :=
  map (fun c => if (N.leb 65 c && N.leb c 90)%bool then (c + 32)%N else c) s.

(** ** The data model ([employee.model.ts]) *)

Record Employee : Type := mkEmployee {
  id : number;
  first_name : jsstring;
  last_name : jsstring;
  email : jsstring;
  role : jsstring;
  department : jsstring;
  status : jsstring
}.

(** [FuzzyResult] of [search.service.ts]. *)
Record FuzzyResult : Type := mkFuzzyResult {
  employee : Employee;
  score : number
}.

(** ** [Array.prototype.sort] *)

(** The language requires [sort] to be stable; with a comparator [cmp],
    [b] is moved ahead of an earlier [a] only when [cmp a b > 0].  The
    model inserts the elements from the right, so that an element stays
    ahead of every later element it does not have to follow. *)
Section ArraySort.
Variable A : Type.
Variable cmp : A -> A -> number.

Fixpoint sort_insert (x : A) (l : list A) : list A :=
  match l with
  | [] => [x]
  | y :: l' =>
      if gtb (cmp x y) (Fin 0) then y :: sort_insert x l'
      else x :: l
  end.

Definition Array_sort (l : list A) : list A :=
  fold_right sort_insert [] l.
End ArraySort.

(** ** [SearchService] *)

(** Matrices of the edit-distance computation, read and written by
    index as in the source. *)
Definition matrix : Type := list (list nat).

Fixpoint list_set (A : Type) (i : nat) (v : A) (l : list A) : list A :=
  match l, i with
  | [], _ => []
  | _ :: l', O => v :: l'
  | x :: l', S i' => x :: list_set i' v l'
  end.

Definition mget (dp : matrix) (i j : nat) : nat := nth j (nth i dp []) 0%nat.

Definition mset (dp : matrix) (i j v : nat) : matrix :=
  list_set i (list_set j v (nth i dp [])) dp.

(** Loop state of [subsequenceMatchScore]. *)
Record SubseqState : Type := mkSubseq {
  searchIndex : nat;
  consecutiveMatches : nat;
  maxConsecutive : nat
}.

Section SearchService.

(** [String.prototype.toLowerCase] of the host. *)
Variable toLowerCase : jsstring -> jsstring.

(** [private fuzzyThreshold = 0.3] *)
Definition fuzzyThreshold : number := Fin 0.3.

(** [levenshteinDistance(str1, str2)] *)
Definition levenshteinDistance (str1 str2 : jsstring) : nat :=
  let m := length str1 in
  let n := length str2 in
  let dp : matrix := repeat (repeat 0%nat (n + 1)) (m + 1) in
  let dp := fold_left (fun dp i => mset dp i 0 i) (seq 0 (m + 1)) dp in
  let dp := fold_left (fun dp j => mset dp 0 j j) (seq 0 (n + 1)) dp in
  let dp :=
    fold_left (fun dp i =>
      fold_left (fun dp j =>
        if unit_eqb (nth_error str1 (i - 1)) (nth_error str2 (j - 1))
        then mset dp i j (mget dp (i - 1) (j - 1))
        else mset dp i j
               (1 + Nat.min (mget dp (i - 1) j)
                      (Nat.min (mget dp i (j - 1))
                               (mget dp (i - 1) (j - 1)))))
        (seq 1 n) dp)
      (seq 1 m) dp in
  mget dp m n.

(** Body of the loop of [subsequenceMatchScore] for the text unit [c]. *)
Definition subseq_step (search : jsstring) (st : SubseqState) (c : N)
  : SubseqState :=
  if unit_eqb (Some c) (nth_error search (searchIndex st)) then
    mkSubseq (searchIndex st + 1) (consecutiveMatches st + 1)
             (Nat.max (maxConsecutive st) (consecutiveMatches st + 1))
  else
    mkSubseq (searchIndex st) 0 (maxConsecutive st).

(** The loop [for (i = 0; i < text.length && searchIndex < search.length;
    i++)]; [text] is the part of the text not yet visited. *)
Fixpoint subseq_loop (search text : jsstring) (st : SubseqState)
  : SubseqState :=
  match text with
  | [] => st
  | c :: text' =>
      if (searchIndex st <? length search)%nat
      then subseq_loop search text' (subseq_step search st c)
      else st
  end.

(** [subsequenceMatchScore(search, text)] *)
Definition subsequenceMatchScore (search text : jsstring) : number :=
  let st := subseq_loop search text (mkSubseq 0 0 0) in
  if (searchIndex st =? length search)%nat then
    let baseScore := div (of_nat (searchIndex st)) (of_nat (length text)) in
    let consecutiveBonus :=
      div (of_nat (maxConsecutive st)) (of_nat (length search)) in
    div (add baseScore consecutiveBonus) (Fin 2)
  else Fin 0.

(** [fuzzyMatchScore(searchTerm, target)] *)
Definition fuzzyMatchScore (searchTerm target : jsstring) : number :=
  let search := toLowerCase searchTerm in
  let text := toLowerCase target in
  if str_eqb text search then Fin 1.0
  else if includes text search then Fin 0.9
  else if startsWith text search || startsWith search text then Fin 0.85
  else
    let subsequenceScore := subsequenceMatchScore search text in
    if gtb subsequenceScore (Fin 0) then
      add (Fin 0.5) (mul subsequenceScore (Fin 0.3))
    else
      let maxLen := Nat.max (length search) (length text) in
      if (maxLen =? 0)%nat then Fin 0
      else
        let distance := levenshteinDistance search text in
        let similarity :=
          sub (Fin 1) (div (of_nat distance) (of_nat maxLen)) in
        if gtb similarity (Fin 0.4) then mul similarity (Fin 0.7)
        else Fin 0.

(** The array [scores] built for one employee. *)
Definition scores (term : jsstring) (e : Employee) : list number :=
  [ fuzzyMatchScore term (first_name e);
    fuzzyMatchScore term (last_name e);
    fuzzyMatchScore term (email e);
    fuzzyMatchScore term (role e);
    fuzzyMatchScore term (department e);
    fuzzyMatchScore term (status e);
    fuzzyMatchScore term (first_name e ++ lit " " ++ last_name e) ].

(** [bestScore = Math.max(...scores)] *)
Definition bestScore (term : jsstring) (e : Employee) : number :=
  Math_max (scores term e).

(** The loop over [employees], pushing on [results]. *)
Definition collect (term : jsstring) (employees : list Employee)
  : list FuzzyResult :=
  fold_left (fun results e =>
               let best := bestScore term e in
               if geb best fuzzyThreshold
               then results ++ [mkFuzzyResult e best]
               else results)
            employees [].

(** The comparator [(a, b) => b.score - a.score]. *)
Definition byScore (a b : FuzzyResult) : number := sub (score b) (score a).

(** [searchEmployees(employees, searchTerm)], on the exact scores.  Among
    records whose exact scores are equal the code can return another
    order, when their doubles differ: see [searchEmployees_by] for the
    ranking on the scores as computed. *)
Definition searchEmployees (employees : list Employee)
           (searchTerm : jsstring) : list Employee :=
  if negb (truthy (trim searchTerm)) then employees
  else
    let term := trim searchTerm in
    let results := collect term employees in
    map employee (Array_sort byScore results).

End SearchService.

(** ** Vocabulary of the specification *)

(** [q] is an ordered subsequence of [t]: the units of [q] occur in [t]
    in the same relative order, not necessarily next to each other. *)
Inductive Subsequence : jsstring -> jsstring -> Prop :=
| Subsequence_nil : forall t, Subsequence [] t
| Subsequence_take : forall c q t,
    Subsequence q t -> Subsequence (c :: q) (c :: t)
| Subsequence_skip : forall c q t,
    Subsequence q t -> Subsequence q (c :: t).

(** The five tiers of the scoring strategy. *)
Inductive Tier : Type :=
| Exact
| Substring
| Prefix
| OrderedSubsequence
| EditDistance.

(** The guards of the first three tiers of [fuzzyMatchScore], on the
    lower-cased strings. *)
Definition exact_fires (search text : jsstring) : bool := str_eqb text search.
Definition substring_fires (search text : jsstring) : bool :=
  includes text search.
Definition prefix_fires (search text : jsstring) : bool :=
  startsWith text search || startsWith search text.

(** The first tier whose guard holds, in the order of the [if]s of
    [fuzzyMatchScore]. *)
Definition tier (search text : jsstring) : Tier :=
  if exact_fires search text then Exact
  else if substring_fires search text then Substring
  else if prefix_fires search text then Prefix
  else if gtb (subsequenceMatchScore search text) (Fin 0)
       then OrderedSubsequence
       else EditDistance.

(** The value computed by the last tier of [fuzzyMatchScore]. *)
Definition editDistanceScore (search text : jsstring) : number :=
  let maxLen := Nat.max (length search) (length text) in
  if (maxLen =? 0)%nat then Fin 0
  else
    let distance := levenshteinDistance search text in
    let similarity := sub (Fin 1) (div (of_nat distance) (of_nat maxLen)) in
    if gtb similarity (Fin 0.4) then mul similarity (Fin 0.7)
    else Fin 0.

(** The longest run of consecutive matches met by the scan of
    [subsequenceMatchScore]. *)
Definition maxRun (search text : jsstring) : nat :=
  maxConsecutive (subseq_loop search text (mkSubseq 0 0 0)).

(** The units of [text] that a leftmost scan pairs with a unit of
    [search]: one mark per unit of [text], [true] on the paired ones. *)
Fixpoint matched (search text : jsstring) : list bool :=
  match text with
  | [] => []
  | c :: text' =>
      match search with
      | [] => false :: matched [] text'
      | d :: search' =>
          if N.eqb c d then true :: matched search' text'
          else false :: matched search text'
      end
  end.

(** [n] is the length of the longest run of consecutive [true] marks. *)
Definition longest_run (mask : list bool) (n : nat) : Prop :=
  (exists pre post, mask = pre ++ repeat true n ++ post) /\
  (forall k pre post, mask = pre ++ repeat true k ++ post -> (k <= n)%nat).

(** Longest run of [true] marks in [mask] when [cur] marks precede it. *)
Fixpoint longest_from (cur : nat) (mask : list bool) : nat :=
  match mask with
  | [] => cur
  | true :: mask' => longest_from (S cur) mask'
  | false :: mask' => Nat.max cur (longest_from 0 mask')
  end.

(** The rational carried by a finite number. *)
Definition value (x : number) : Q :=
  match x with
  | Fin q => q
  | _ => 0
  end.

Section RankVocabulary.

Variable toLowerCase : jsstring -> jsstring.

(** The score of a record for a trimmed query, as a rational. *)
Definition recordScore (term : jsstring) (e : Employee) : Q :=
  value (bestScore toLowerCase term e).

(** The test [bestScore >= this.fuzzyThreshold]. *)
Definition kept (term : jsstring) (e : Employee) : bool :=
  geb (bestScore toLowerCase term e) fuzzyThreshold.

(** The comparator of [searchEmployees] read on the records. *)
Definition byBestScore (term : jsstring) (a b : Employee) : number :=
  sub (bestScore toLowerCase term b) (bestScore toLowerCase term a).

(** The records of [l] whose score is [v], in the order of [l]. *)
Definition withScore (term : jsstring) (v : Q) (l : list Employee)
  : list Employee :=
  filter (fun e => Qeq_bool (recordScore term e) v) l.

End RankVocabulary.

(** The seven strings a record is matched against: six fields and the
    composite of first and last name. *)
Definition fields (e : Employee) : list jsstring :=
  [ first_name e; last_name e; email e; role e; department e; status e;
    first_name e ++ lit " " ++ last_name e ].

(** [sub] is obtained from [l] by erasing some elements. *)
Inductive Selection (A : Type) : list A -> list A -> Prop :=
| Selection_nil : Selection [] []
| Selection_keep : forall x sub l,
    Selection sub l -> Selection (x :: sub) (x :: l)
| Selection_drop : forall x sub l,
    Selection sub l -> Selection sub (x :: l).

(** Order of a ranking: the key never increases along the list. *)
Definition descending (A : Type) (key : A -> Q) (a b : A) : Prop :=
  (key b <= key a)%Q.

(** Invariant of the scan of [subsequenceMatchScore]: the counters stay
    ordered and the index stays within [search]. *)
Record scan_ok (search : jsstring) (st : SubseqState) : Prop := {
  scan_index : (searchIndex st <= length search)%nat;
  scan_run : (consecutiveMatches st <= maxConsecutive st)%nat;
  scan_max : (maxConsecutive st <= searchIndex st)%nat
}.

(** ** Records as they arrive at run time

    The [Employee] interface is erased at run time: the records come
    from a JSON document and a field may hold any value, or be missing.
    This second model runs [searchEmployees] on such records and makes
    the [TypeError] of a failed method call explicit. *)

Inductive jsval : Type :=
| JString (s : jsstring)
| JUndefined
| JNull
| JBoolean (b : bool)
| JNumber (n : number).

Record RawEmployee : Type := mkRawEmployee {
  raw_id : jsval;
  raw_first_name : jsval;
  raw_last_name : jsval;
  raw_email : jsval;
  raw_role : jsval;
  raw_department : jsval;
  raw_status : jsval
}.

Record RawResult : Type := mkRawResult {
  raw_employee : RawEmployee;
  raw_score : number
}.

(** Outcome of an evaluation: a value, or a thrown [TypeError]. *)
Inductive completion (A : Type) : Type :=
| Normal (a : A)
| TypeError.
Arguments TypeError {A}.

Definition bind (A B : Type) (c : completion A) (k : A -> completion B)
  : completion B :=
  match c with
  | Normal a => k a
  | TypeError => TypeError
  end.

Notation "x <- c ;; k" := (bind c (fun x => k))
  (at level 61, c at next level, right associativity).

(** A record of the typed model seen as a run-time record. *)
Definition erase (e : Employee) : RawEmployee :=
  mkRawEmployee (JNumber (id e)) (JString (first_name e))
                (JString (last_name e)) (JString (email e))
                (JString (role e)) (JString (department e))
                (JString (status e)).

Definition is_string (v : jsval) : bool :=
  match v with
  | JString _ => true
  | _ => false
  end.

(** The six fields read by [searchEmployees] all hold strings. *)
Definition well_typed (e : RawEmployee) : bool :=
  is_string (raw_first_name e) && is_string (raw_last_name e) &&
  is_string (raw_email e) && is_string (raw_role e) &&
  is_string (raw_department e) && is_string (raw_status e).

Section RunTime.

Variable toLowerCase : jsstring -> jsstring.

(** [Number::toString] of the host, used by template literals. *)
Variable NumberToString : number -> jsstring.

(** Conversion of a value inside a template literal. *)
Definition ToString (v : jsval) : jsstring :=
  match v with
  | JString s => s
  | JUndefined => lit "undefined"
  | JNull => lit "null"
  | JBoolean true => lit "true"
  | JBoolean false => lit "false"
  | JNumber n => NumberToString n
  end.

(** [fuzzyMatchScore(searchTerm, target)] on a run-time value:
    [target.toLowerCase()] throws unless [target] is a string. *)
Definition fuzzyMatchScore_rt (searchTerm : jsstring) (target : jsval)
  : completion number :=
  match target with
  | JString s => Normal (fuzzyMatchScore toLowerCase searchTerm s)
  | _ => TypeError
  end.

(** The array [scores]; its elements are evaluated from left to right. *)
Definition scores_rt (term : jsstring) (e : RawEmployee)
  : completion (list number) :=
  s1 <- fuzzyMatchScore_rt term (raw_first_name e) ;;
  s2 <- fuzzyMatchScore_rt term (raw_last_name e) ;;
  s3 <- fuzzyMatchScore_rt term (raw_email e) ;;
  s4 <- fuzzyMatchScore_rt term (raw_role e) ;;
  s5 <- fuzzyMatchScore_rt term (raw_department e) ;;
  s6 <- fuzzyMatchScore_rt term (raw_status e) ;;
  s7 <- fuzzyMatchScore_rt term
          (JString (ToString (raw_first_name e) ++ lit " "
                    ++ ToString (raw_last_name e))) ;;
  Normal [s1; s2; s3; s4; s5; s6; s7].

(** The loop over [employees]; a throw leaves the loop and the
    function. *)
Fixpoint collect_rt (term : jsstring) (employees : list RawEmployee)
         (results : list RawResult) : completion (list RawResult) :=
  match employees with
  | [] => Normal results
  | e :: rest =>
      scores <- scores_rt term e ;;
      let bestScore := Math_max scores in
      collect_rt term rest
        (if geb bestScore fuzzyThreshold
         then results ++ [mkRawResult e bestScore]
         else results)
  end.

Definition byRawScore (a b : RawResult) : number :=
  sub (raw_score b) (raw_score a).

(** [searchEmployees(employees, searchTerm)] on run-time records. *)
Definition searchEmployees_rt (employees : list RawEmployee)
           (searchTerm : jsstring) : completion (list RawEmployee) :=
  if negb (truthy (trim searchTerm)) then Normal employees
  else
    let term := trim searchTerm in
    results <- collect_rt term employees [] ;;
    Normal (map raw_employee (Array_sort byRawScore results)).

End RunTime.

(** ** Sample data *)

Definition sample (n : Z) (f l m r d s : string) : Employee :=
  mkEmployee (Fin (inject_Z n)) (lit f) (lit l) (lit m) (lit r) (lit d) (lit s).

Definition jon : Employee :=
  sample 1 "Jon" "Snow" "jsnow@example.com" "Analyst" "Finance" "Active".
Definition john : Employee :=
  sample 2 "John" "Doe" "jdoe@example.com" "Manager" "Engineering" "Active".
Definition mary : Employee :=
  sample 3 "Mary" "Major" "mmajor@example.com" "Designer" "Marketing"
         "On Leave".

Definition staff : list Employee := [mary; john; jon].

(** A record of the JSON document whose [first_name] is missing. *)
Definition nameless : RawEmployee :=
  mkRawEmployee (JNumber (Fin 4)) JUndefined (JString (lit "Roe"))
                (JString (lit "roe@example.com")) (JString (lit "Clerk"))
                (JString (lit "Finance")) (JString (lit "Active")).

(** A digit-free stand-in for [Number::toString] on the sample data. *)
Definition noDigits (n : number) : jsstring := lit "NaN".
(** The edit distance of two sequences of units, by the usual
    recurrence on their first units: nothing to pay when they agree,
    otherwise one edit more than the cheapest of a deletion, an insertion
    and a replacement. *)
Fixpoint lev (s t : jsstring) : nat :=
  match s with
  | [] => length t
  | c :: s' =>
      (fix lev_row (t : jsstring) : nat :=
         match t with
         | [] => length s
         | d :: t' =>
             if N.eqb c d then lev s' t'
             else (1 + Nat.min (lev s' t)
                           (Nat.min (lev_row t') (lev s' t')))%nat
         end) t
  end.

(** The matrix has [rows] rows of [cols] cells. *)
Definition shape (rows cols : nat) (dp : matrix) : Prop :=
  length dp = rows /\ Forall (fun r => length r = cols) dp.

(** Edit distance of the prefixes of lengths [i] and [j], read from
    their last units backwards. *)
Definition prefixLev (str1 str2 : jsstring) (i j : nat) : nat :=
  lev (rev (firstn i str1)) (rev (firstn j str2)).

(** The cells of the matrix already filled when the loops of
    [levenshteinDistance] reach the cell [(i, j)]. *)
Definition filled (i j i' j' : nat) : Prop :=
  (i' = 0 \/ j' = 0 \/ i' < i \/ (i' = i /\ j' < j))%nat.

(** Invariant of the loops of [levenshteinDistance]: every filled cell
    holds the edit distance of the two prefixes it stands for. *)
Definition dp_ok (str1 str2 : jsstring) (i j : nat) (dp : matrix) : Prop :=
  shape (length str1 + 1) (length str2 + 1) dp /\
  forall i' j', (i' <= length str1)%nat -> (j' <= length str2)%nat ->
                filled i j i' j' ->
                mget dp i' j' = prefixLev str1 str2 i' j'.

(** [Edits s t k]: [s] is turned into [t] by [k] single-unit edits
    (insertions, deletions, replacements), the other units being kept. *)
Inductive Edits : jsstring -> jsstring -> nat -> Prop :=
| Edits_done : Edits [] [] 0
| Edits_keep : forall c s t k, Edits s t k -> Edits (c :: s) (c :: t) k
| Edits_replace : forall c d s t k,
    Edits s t k -> Edits (c :: s) (d :: t) (S k)
| Edits_delete : forall c s t k, Edits s t k -> Edits (c :: s) t (S k)
| Edits_insert : forall d s t k, Edits s t k -> Edits s (d :: t) (S k).


(** ** The data table ([DataTableComponent])

    The component is a record of its fields and every method a function
    on this record.  Page numbers, the page size and the number of pages
    hold integers.  The debounced search subject and the subscription to
    the employee service are represented by the handlers they call. *)

(** [s < t] on strings: the order of the code units, the first
    difference deciding, a proper prefix coming first. *)
Fixpoint str_ltb (s t : jsstring) : bool :=
  match s, t with
  | _, [] => false
  | [], _ :: _ => true
  | c :: s', d :: t' =>
      if N.ltb c d then true
      else if N.ltb d c then false
      else str_ltb s' t'
  end.

(** [Array.prototype.slice(start, end)] for integer bounds: a negative
    bound counts from the end, and both are clamped to the array. *)
Definition Array_slice (A : Type) (l : list A) (start final : Z) : list A :=
  let len := Z.of_nat (length l) in
  let k := if (start <? 0)%Z then Z.max (len + start) 0 else Z.min start len in
  let e := if (final <? 0)%Z then Z.max (len + final) 0 else Z.min final len in
  firstn (Z.to_nat (e - k)) (skipn (Z.to_nat k) l).

(** [Math.ceil(a / b)] for integers [a] and [b <> 0]. *)
Definition Math_ceil_div (a b : Z) : Z := Qceiling (inject_Z a / inject_Z b).

(** The integers [a, a + 1, ..., b], as pushed by
    [for (let i = a; i <= b; i++) pages.push(i)]. *)
Definition pushRange (a b : Z) : list Z :=
  map (fun k => (a + Z.of_nat k)%Z) (seq 0 (Z.to_nat (b - a + 1))).

(** [keyof Employee] *)
Inductive Column : Type :=
| ColId
| ColFirstName
| ColLastName
| ColEmail
| ColRole
| ColDepartment
| ColStatus.

Definition Column_eqb (c d : Column) : bool :=
  match c, d with
  | ColId, ColId | ColFirstName, ColFirstName | ColLastName, ColLastName
  | ColEmail, ColEmail | ColRole, ColRole | ColDepartment, ColDepartment
  | ColStatus, ColStatus => true
  | _, _ => false
  end.

Inductive SortDirection : Type :=
| Asc
| Desc.

(** [SortState]; the column [''] is [None]. *)
Record SortState : Type := mkSortState {
  column : option Column;
  direction : SortDirection
}.

(** The value [a[column]]. *)
Definition columnValue (c : Column) (e : Employee) : jsval :=
  match c with
  | ColId => JNumber (id e)
  | ColFirstName => JString (first_name e)
  | ColLastName => JString (last_name e)
  | ColEmail => JString (email e)
  | ColRole => JString (role e)
  | ColDepartment => JString (department e)
  | ColStatus => JString (status e)
  end.

Record DataTable : Type := mkDataTable {
  allEmployees : list Employee;
  filteredEmployees : list Employee;
  displayedEmployees : list Employee;
  searchTerm : jsstring;
  sortState : SortState;
  currentPage : Z;
  pageSize : Z;
  totalPages : Z;
  isLoading : bool;
  errorMessage : jsstring
}.

(** Assignments to the fields. *)
Definition set_allEmployees (v : list Employee) (t : DataTable) : DataTable :=
  mkDataTable v (filteredEmployees t) (displayedEmployees t) (searchTerm t)
              (sortState t) (currentPage t) (pageSize t) (totalPages t)
              (isLoading t) (errorMessage t).
Definition set_filteredEmployees (v : list Employee) (t : DataTable)
  : DataTable :=
  mkDataTable (allEmployees t) v (displayedEmployees t) (searchTerm t)
              (sortState t) (currentPage t) (pageSize t) (totalPages t)
              (isLoading t) (errorMessage t).
Definition set_displayedEmployees (v : list Employee) (t : DataTable)
  : DataTable :=
  mkDataTable (allEmployees t) (filteredEmployees t) v (searchTerm t)
              (sortState t) (currentPage t) (pageSize t) (totalPages t)
              (isLoading t) (errorMessage t).
Definition set_searchTerm (v : jsstring) (t : DataTable) : DataTable :=
  mkDataTable (allEmployees t) (filteredEmployees t) (displayedEmployees t) v
              (sortState t) (currentPage t) (pageSize t) (totalPages t)
              (isLoading t) (errorMessage t).
Definition set_sortState (v : SortState) (t : DataTable) : DataTable :=
  mkDataTable (allEmployees t) (filteredEmployees t) (displayedEmployees t)
              (searchTerm t) v (currentPage t) (pageSize t) (totalPages t)
              (isLoading t) (errorMessage t).
Definition set_currentPage (v : Z) (t : DataTable) : DataTable :=
  mkDataTable (allEmployees t) (filteredEmployees t) (displayedEmployees t)
              (searchTerm t) (sortState t) v (pageSize t) (totalPages t)
              (isLoading t) (errorMessage t).
Definition set_totalPages (v : Z) (t : DataTable) : DataTable :=
  mkDataTable (allEmployees t) (filteredEmployees t) (displayedEmployees t)
              (searchTerm t) (sortState t) (currentPage t) (pageSize t) v
              (isLoading t) (errorMessage t).
Definition set_isLoading (v : bool) (t : DataTable) : DataTable :=
  mkDataTable (allEmployees t) (filteredEmployees t) (displayedEmployees t)
              (searchTerm t) (sortState t) (currentPage t) (pageSize t)
              (totalPages t) v (errorMessage t).
Definition set_errorMessage (v : jsstring) (t : DataTable) : DataTable :=
  mkDataTable (allEmployees t) (filteredEmployees t) (displayedEmployees t)
              (searchTerm t) (sortState t) (currentPage t) (pageSize t)
              (totalPages t) (isLoading t) v.

(** The component as constructed: no data yet, first page, ten records
    per page, sorted by first name. *)
Definition newDataTable : DataTable :=
  mkDataTable [] [] [] [] (mkSortState (Some ColFirstName) Asc)
              1 10 0 true [].

Section DataTableComponent.

Variable toLowerCase : jsstring -> jsstring.
Variable NumberToString : number -> jsstring.

(** The comparator of [sortEmployees]. *)
Definition compareColumn (c : Column) (d : SortDirection) (a b : Employee)
  : number :=
  let valueA := columnValue c a in
  let valueB := columnValue c b in
  match valueA, valueB with
  | JNumber x, JNumber y =>
      match d with
      | Asc => sub x y
      | Desc => sub y x
      end
  | _, _ =>
      let stringA := toLowerCase (ToString NumberToString valueA) in
      let stringB := toLowerCase (ToString NumberToString valueB) in
      if str_ltb stringA stringB then
        match d with Asc => Fin (-1) | Desc => Fin 1 end
      else if str_ltb stringB stringA then
        match d with Asc => Fin 1 | Desc => Fin (-1) end
      else Fin 0
  end.

(** [sortEmployees()] *)
Definition sortEmployees (t : DataTable) : DataTable :=
  match column (sortState t) with
  | None => t
  | Some c =>
      set_filteredEmployees
        (Array_sort (compareColumn c (direction (sortState t)))
                    (filteredEmployees t)) t
  end.

(** [updateDisplayedEmployees()] *)
Definition updateDisplayedEmployees (t : DataTable) : DataTable :=
  let startIndex := ((currentPage t - 1) * pageSize t)%Z in
  let endIndex := (startIndex + pageSize t)%Z in
  set_displayedEmployees
    (Array_slice (filteredEmployees t) startIndex endIndex) t.

(** [applyFilters()] *)
Definition applyFilters (t : DataTable) : DataTable :=
  let t := set_filteredEmployees
             (searchEmployees toLowerCase (allEmployees t) (searchTerm t)) t in
  let t := sortEmployees t in
  let t := set_currentPage 1 t in
  let t := set_totalPages
             (Math_ceil_div (Z.of_nat (length (filteredEmployees t)))
                            (pageSize t)) t in
  updateDisplayedEmployees t.

(** The handler of the debounced search subject. *)
Definition onSearch (term : jsstring) (t : DataTable) : DataTable :=
  applyFilters (set_searchTerm term t).

(** [loadEmployees()], up to the subscription. *)
Definition onLoadStart (t : DataTable) : DataTable :=
  set_errorMessage [] (set_isLoading true t).

(** The [next] handler of [loadEmployees]. *)
Definition onLoaded (employees : list Employee) (t : DataTable) : DataTable :=
  set_isLoading false (applyFilters (set_allEmployees employees t)).

(** The [error] handler of [loadEmployees]. *)
Definition onLoadError (t : DataTable) : DataTable :=
  set_isLoading false
    (set_errorMessage
       (lit "Failed to load employee data. Please try again.") t).

(** [onSort(column)] *)
Definition onSort (c : Column) (t : DataTable) : DataTable :=
  let same :=
    match column (sortState t) with
    | Some c' => Column_eqb c' c
    | None => false
    end in
  let t :=
    if same then
      set_sortState
        (mkSortState (column (sortState t))
                     (match direction (sortState t) with
                      | Asc => Desc
                      | Desc => Asc
                      end)) t
    else set_sortState (mkSortState (Some c) Asc) t in
  updateDisplayedEmployees (sortEmployees t).

(** [goToPage(page)] *)
Definition goToPage (page : Z) (t : DataTable) : DataTable :=
  if ((1 <=? page) && (page <=? totalPages t))%Z
  then updateDisplayedEmployees (set_currentPage page t)
  else t.

(** [previousPage()] *)
Definition previousPage (t : DataTable) : DataTable :=
  goToPage (currentPage t - 1) t.

(** [nextPage()] *)
Definition nextPage (t : DataTable) : DataTable :=
  goToPage (currentPage t + 1) t.

(** [getPageNumbers()] *)
Definition getPageNumbers (t : DataTable) : list Z :=
  let maxVisiblePages := 5%Z in
  if (totalPages t <=? maxVisiblePages)%Z then pushRange 1 (totalPages t)
  else
    let startPage := Z.max 1 (currentPage t - 2) in
    let endPage := Z.min (totalPages t) (startPage + maxVisiblePages - 1) in
    let startPage :=
      if (endPage - startPage <? maxVisiblePages - 1)%Z
      then Z.max 1 (endPage - maxVisiblePages + 1)
      else startPage in
    pushRange startPage endPage.

(** The two numbers shown by [getDisplayRange()], when there are
    results: the first and the last record of the page. *)
Definition displayRange (t : DataTable) : Z * Z :=
  let start := ((currentPage t - 1) * pageSize t + 1)%Z in
  let final := Z.min (currentPage t * pageSize t)
                     (Z.of_nat (length (filteredEmployees t))) in
  (start, final).

(** What the user and the services can do to the component. *)
Inductive TableEvent : Type :=
| LoadStart
| Loaded (employees : list Employee)
| LoadError
| Search (term : jsstring)
| Sort (c : Column)
| GoTo (page : Z)
| Previous
| Next.

Definition handle (t : DataTable) (ev : TableEvent) : DataTable :=
  match ev with
  | LoadStart => onLoadStart t
  | Loaded employees => onLoaded employees t
  | LoadError => onLoadError t
  | Search term => onSearch term t
  | Sort c => onSort c t
  | GoTo page => goToPage page t
  | Previous => previousPage t
  | Next => nextPage t
  end.

End DataTableComponent.

(** The page shown is the page [currentPage] of the filtered records,
    and the counters agree with them. *)
Record paged (t : DataTable) : Prop := {
  paged_size : (0 < pageSize t)%Z;
  paged_total :
    totalPages t =
    Math_ceil_div (Z.of_nat (length (filteredEmployees t))) (pageSize t);
  paged_first : (1 <= currentPage t)%Z;
  paged_last : (currentPage t <= Z.max 1 (totalPages t))%Z;
  paged_shown :
    displayedEmployees t =
    firstn (Z.to_nat (pageSize t))
           (skipn (Z.to_nat ((currentPage t - 1) * pageSize t))
                  (filteredEmployees t))
}.

(** The rows after [sortEmployees]. *)
Definition sortedRows (toLowerCase : jsstring -> jsstring)
           (NumberToString : number -> jsstring)
           (s : SortState) (rows : list Employee) : list Employee :=
  match column s with
  | None => rows
  | Some c =>
      Array_sort (compareColumn toLowerCase NumberToString c (direction s)) rows
  end.

(** The state of the table is consistent: the page shown is a page of
    the filtered records, and these are the records selected by the
    search, in some order. *)
Record table_ok (toLowerCase : jsstring -> jsstring) (t : DataTable)
  : Prop := {
  ok_paged : paged t;
  ok_rows : Permutation (filteredEmployees t)
                        (searchEmployees toLowerCase (allEmployees t)
                                         (searchTerm t))
}.

(** With the comparator [cmp], [x] may stay ahead of [y]. *)
Definition may_precede (A : Type) (cmp : A -> A -> number) (x y : A) : Prop :=
  gtb (cmp x y) (Fin 0) = false.

(** The key a string column is sorted by. *)
Definition sortKey (toLowerCase : jsstring -> jsstring) (c : Column)
           (e : Employee) : jsstring :=
  match columnValue c e with
  | JString s => toLowerCase s
  | _ => []
  end.

(** [a] and [b] are in the order of the direction [d] for their keys. *)
Definition keyOrder (d : SortDirection) (ka kb : jsstring) : Prop :=
  match d with
  | Asc => str_ltb kb ka = false
  | Desc => str_ltb ka kb = false
  end.

(** The same for the numeric column. *)
Definition idOrder (d : SortDirection) (a b : Employee) : Prop :=
  match d with
  | Asc => (value (id a) <= value (id b))%Q
  | Desc => (value (id b) <= value (id a))%Q
  end.

(** ** The carousel ([CarouselComponent])

    The component is a record of its fields and every method a function
    on this record.  The angles are numbers as above: exact rationals
    with [NaN] and the infinities.  With the four slides of the component
    every angle is a multiple of 90 and is exact in floating point too.

    The interval observable of the auto-play is represented by what the
    component can observe of it: whether [autoPlaySubscription] holds a
    subscription, how many interval subscriptions have been made and not
    unsubscribed, and the calls of the callback ([Tick]).  Time is not
    modelled. *)

(** The integer part of a rational, rounding towards zero. *)
Definition Qtrunc (q : Q) : Z :=
  if Qle_bool 0 q then Qfloor q else Qceiling q.

(** [x % y]: the remainder of the division truncated towards zero. *)
Definition rem (x y : number) : number :=
  match x, y with
  | NaN, _ | _, NaN => NaN
  | Fin a, Fin b =>
      if is_zero b then NaN
      else Fin (a - b * inject_Z (Qtrunc (a / b)))%Q
  | Fin a, _ => Fin a
  | _, _ => NaN
  end.

(** [Math.round(x)]: the nearest integer, a half going upwards. *)
Definition Math_round (x : number) : number :=
  match x with
  | Fin a => Fin (inject_Z (Qfloor (a + (1 # 2))%Q))
  | _ => x
  end.

Record Slide : Type := mkSlide {
  slide_id : number;
  title : jsstring;
  description : jsstring;
  imageUrl : jsstring
}.

(** The slides the component is created with. *)
Definition theSlides : list Slide :=
  [ mkSlide (Fin 1) (lit "Welcome to Employee Portal")
      (lit "Manage your workforce efficiently with our comprehensive employee management system.")
      (lit "assets/images/carousel/slide1.jpg");
    mkSlide (Fin 2) (lit "Track Performance")
      (lit "Monitor employee performance and productivity with real-time analytics.")
      (lit "assets/images/carousel/slide2.jpg");
    mkSlide (Fin 3) (lit "Streamline HR Operations")
      (lit "Simplify your HR processes with automated workflows and reporting.")
      (lit "assets/images/carousel/slide3.jpg");
    mkSlide (Fin 4) (lit "Data-Driven Decisions")
      (lit "Make informed decisions with comprehensive employee data and insights.")
      (lit "assets/images/carousel/slide4.jpg") ].

Record Carousel : Type := mkCarousel {
  slides : list Slide;
  rotationAngle : number;
  anglePerSlide : number;
  sphereRadius : number;
  (** [autoPlaySubscription !== null] *)
  autoPlaySubscription : bool;
  autoPlayDuration : number;
  isInteracting : bool;
  (** The interval subscriptions made and not unsubscribed. *)
  liveIntervals : nat
}.

(** Assignments to the fields. *)
Definition set_rotationAngle (v : number) (c : Carousel) : Carousel :=
  mkCarousel (slides c) v (anglePerSlide c) (sphereRadius c)
             (autoPlaySubscription c) (autoPlayDuration c) (isInteracting c)
             (liveIntervals c).
Definition set_anglePerSlide (v : number) (c : Carousel) : Carousel :=
  mkCarousel (slides c) (rotationAngle c) v (sphereRadius c)
             (autoPlaySubscription c) (autoPlayDuration c) (isInteracting c)
             (liveIntervals c).
Definition set_isInteracting (v : bool) (c : Carousel) : Carousel :=
  mkCarousel (slides c) (rotationAngle c) (anglePerSlide c) (sphereRadius c)
             (autoPlaySubscription c) (autoPlayDuration c) v
             (liveIntervals c).

(** The component as constructed, for the slides [s]. *)
Definition newCarousel (s : list Slide) : Carousel :=
  mkCarousel s (Fin 0) (Fin 0) (Fin 400) false (Fin 4000) false 0.

(** [startAutoPlay()]: a new interval subscription replaces the one
    held, which is not unsubscribed here. *)
Definition startAutoPlay (c : Carousel) : Carousel :=
  mkCarousel (slides c) (rotationAngle c) (anglePerSlide c) (sphereRadius c)
             true (autoPlayDuration c) (isInteracting c)
             (S (liveIntervals c)).

(** [stopAutoPlay()] *)
Definition stopAutoPlay (c : Carousel) : Carousel :=
  if autoPlaySubscription c then
    mkCarousel (slides c) (rotationAngle c) (anglePerSlide c) (sphereRadius c)
               false (autoPlayDuration c) (isInteracting c)
               (pred (liveIntervals c))
  else c.

(** [resetAutoPlay()] *)
Definition resetAutoPlay (c : Carousel) : Carousel :=
  startAutoPlay (stopAutoPlay c).

(** [ngOnInit()] *)
Definition ngOnInit (c : Carousel) : Carousel :=
  startAutoPlay
    (set_anglePerSlide (div (Fin 360) (of_nat (length (slides c)))) c).

(** [ngOnDestroy()] *)
Definition ngOnDestroy (c : Carousel) : Carousel := stopAutoPlay c.

(** The angle [cardAngle] of [getCardTransform(index)], exact; in the
    code it is rounded when [360 / slides.length] is not a double. *)
Definition cardAngle (c : Carousel) (index : number) : number :=
  add (mul (anglePerSlide c) index) (rotationAngle c).

(** [getCardTransform(index)] *)
Definition getCardTransform (NumberToString : number -> jsstring)
           (c : Carousel) (index : number) : jsstring :=
  lit "rotateY(" ++ NumberToString (cardAngle c index) ++
  lit "deg) translateZ(" ++ NumberToString (sphereRadius c) ++ lit "px)".

(** [nextSlide()] *)
Definition nextSlide (c : Carousel) : Carousel :=
  resetAutoPlay
    (set_rotationAngle (sub (rotationAngle c) (anglePerSlide c)) c).

(** [prevSlide()] *)
Definition prevSlide (c : Carousel) : Carousel :=
  resetAutoPlay
    (set_rotationAngle (add (rotationAngle c) (anglePerSlide c)) c).

(** [goToSlide(index)] *)
Definition goToSlide (index : number) (c : Carousel) : Carousel :=
  resetAutoPlay
    (set_rotationAngle (neg (mul (anglePerSlide c) index)) c).

(** [getActiveSlideIndex()] *)
Definition getActiveSlideIndex (c : Carousel) : number :=
  let normalizedAngle :=
    rem (add (rem (neg (rotationAngle c)) (Fin 360)) (Fin 360)) (Fin 360) in
  rem (Math_round (div normalizedAngle (anglePerSlide c)))
      (of_nat (length (slides c))).

(** The callback of the interval of [startAutoPlay]. *)
Definition autoPlayCallback (c : Carousel) : Carousel :=
  if negb (isInteracting c)
  then set_rotationAngle (sub (rotationAngle c) (anglePerSlide c)) c
  else c.

(** [onMouseEnter()] and [onMouseLeave()] *)
Definition onMouseEnter (c : Carousel) : Carousel := set_isInteracting true c.
Definition onMouseLeave (c : Carousel) : Carousel := set_isInteracting false c.

(** What the user, the framework and the timers can do to the
    component. *)
Inductive CarouselEvent : Type :=
| Init
| Destroy
| NextSlide
| PrevSlide
| GoToSlide (index : nat)
| MouseEnter
| MouseLeave
| Tick.

(** An interval calls back only while one of its subscriptions is
    alive. *)
Definition handleCarousel (c : Carousel) (ev : CarouselEvent) : Carousel :=
  match ev with
  | Init => ngOnInit c
  | Destroy => ngOnDestroy c
  | NextSlide => nextSlide c
  | PrevSlide => prevSlide c
  | GoToSlide index => goToSlide (of_nat index) c
  | MouseEnter => onMouseEnter c
  | MouseLeave => onMouseLeave c
  | Tick => match liveIntervals c with
            | O => c
            | S _ => autoPlayCallback c
            end
  end.

(** The angle between two cards once [ngOnInit] has run on [n] slides. *)
Definition slideAngle (n : nat) : Q := (360 / inject_Z (Z.of_nat n))%Q.

(** The carousel has been initialised and is turned by [k] cards: slide
    [k] (modulo the number of slides) is in front. *)
Definition turned (c : Carousel) (k : Z) : Prop :=
  slides c <> [] /\
  anglePerSlide c = Fin (slideAngle (length (slides c))) /\
  exists r, rotationAngle c = Fin r /\
            (r == - (inject_Z k * slideAngle (length (slides c))))%Q.

(** [x === y] holds for the numbers [x] and [y]. *)
Definition same_number (x y : number) : Prop := eqb x y = true.

(** The number is a whole number of full turns, in degrees. *)
Definition full_turns (x : number) : Prop :=
  exists (q : Q) (m : Z), x = Fin q /\ (q == 360 * inject_Z m)%Q.

(** No [Init] among the events. *)
Definition no_Init (events : list CarouselEvent) : Prop :=
  Forall (fun ev => ev <> Init) events.

(** Every interval subscription but the one held has been
    unsubscribed. *)
Definition one_interval (c : Carousel) : Prop :=
  liveIntervals c = if autoPlaySubscription c then 1%nat else 0%nat.

(** ** Sample states of the components *)

(** The sample records on pages of two: the second page ... *)
Definition secondOfTwo : DataTable :=
  mkDataTable staff staff [jon] [] (mkSortState None Asc) 2 2 2 false [].

(** ... and the first. *)
Definition firstOfTwo : DataTable :=
  mkDataTable staff staff [mary; john] [] (mkSortState None Asc) 1 2 2
              false [].

(** A table of twenty pages showing the seventh. *)
Definition seventhOfTwenty : DataTable :=
  mkDataTable [] [] [] [] (mkSortState None Asc) 7 10 20 false [].

(** The sample records, not yet searched. *)
Definition unsearched : DataTable :=
  mkDataTable staff [] [] (lit "jon") (mkSortState (Some ColFirstName) Asc)
              1 10 0 true [].

(** ** The order of the table *)

(** The other direction. *)
Definition opposite (d : SortDirection) : SortDirection :=
  match d with
  | Asc => Desc
  | Desc => Asc
  end.

(** The sort state a click on the header of [c] leads to. *)
Definition clicked (c : Column) (s : SortState) : SortState :=
  if match column s with
     | Some c' => Column_eqb c' c
     | None => false
     end
  then mkSortState (column s) (opposite (direction s))
  else mkSortState (Some c) Asc.

(** The filtered records are in the order of the sort state, when the
    table is sorted by a string column. *)
Definition sorted_by_state (toLowerCase : jsstring -> jsstring)
           (t : DataTable) : Prop :=
  forall c, column (sortState t) = Some c -> c <> ColId ->
    StronglySorted
      (fun a b => keyOrder (direction (sortState t))
                           (sortKey toLowerCase c a)
                           (sortKey toLowerCase c b))
      (filteredEmployees t).

(** The state the table reaches from its construction through the
    events [events]. *)
Definition reached (toLowerCase : jsstring -> jsstring)
           (NumberToString : number -> jsstring)
           (events : list TableEvent) : DataTable :=
  fold_left (handle toLowerCase NumberToString) events newDataTable.

(** ** The ranking for any scores

    The ranking of [searchEmployees] does not look into the scores: it
    takes the maximum of seven numbers, compares it with the threshold
    and sorts.  Here [searchEmployees] is embedded once more with the
    scoring method and the threshold as parameters: [matchScore] stands
    for the numbers [this.fuzzyMatchScore] returns and [threshold] for
    [this.fuzzyThreshold].  With [fuzzyMatchScore] and [fuzzyThreshold]
    above, the scores are exact rationals; in the code they are doubles
    (see [F64] below), and two scores that agree as rationals can be two
    different doubles.  A double is a rational, [Math.max] and [>=] do
    not round, and the sign of [b.score - a.score] is the same with and
    without rounding, so the code is the instance of this embedding at
    the scores it computes. *)

Section ScoredSearch.

Variable matchScore : jsstring -> jsstring -> number.
Variable threshold : number.

(** The array [scores] built for one employee. *)
Definition scores_by (term : jsstring) (e : Employee) : list number :=
  [ matchScore term (first_name e);
    matchScore term (last_name e);
    matchScore term (email e);
    matchScore term (role e);
    matchScore term (department e);
    matchScore term (status e);
    matchScore term (first_name e ++ lit " " ++ last_name e) ].

(** [bestScore = Math.max(...scores)] *)
Definition bestScore_by (term : jsstring) (e : Employee) : number :=
  Math_max (scores_by term e).

(** The loop over [employees], pushing on [results]. *)
Definition collect_by (term : jsstring) (employees : list Employee)
  : list FuzzyResult :=
  fold_left (fun results e =>
               let best := bestScore_by term e in
               if geb best threshold
               then results ++ [mkFuzzyResult e best]
               else results)
            employees [].

(** [searchEmployees(employees, searchTerm)] *)
Definition searchEmployees_by (employees : list Employee)
           (searchTerm : jsstring) : list Employee :=
  if negb (truthy (trim searchTerm)) then employees
  else
    let term := trim searchTerm in
    let results := collect_by term employees in
    map employee (Array_sort byScore results).

(** The score of a record for a trimmed query, as a rational. *)
Definition recordScore_by (term : jsstring) (e : Employee) : Q :=
  value (bestScore_by term e).

(** The test [bestScore >= this.fuzzyThreshold]. *)
Definition kept_by (term : jsstring) (e : Employee) : bool :=
  geb (bestScore_by term e) threshold.

(** The comparator of [searchEmployees] read on the records. *)
Definition byBestScore_by (term : jsstring) (a b : Employee) : number :=
  sub (bestScore_by term b) (bestScore_by term a).

(** The records of [l] whose score is [v], in the order of [l]. *)
Definition withScore_by (term : jsstring) (v : Q) (l : list Employee)
  : list Employee :=
  filter (fun e => Qeq_bool (recordScore_by term e) v) l.

(** The seven scores of the record are finite numbers. *)
Definition scored (term : jsstring) (e : Employee) : Prop :=
  Forall finite (scores_by term e).

End ScoredSearch.

(** ** The scores in double precision

    The numbers of the code are IEEE 754 doubles.  The module [F64]
    embeds the two scoring methods once more on the binary64 numbers of
    the kernel, operation by operation, so that every intermediate
    result is rounded as in the code.  The scan of the text and the edit
    distance work on integers and are shared with the embedding above. *)

Module F64.

Import PrimFloat.
#[local] Set Warnings "-inexact-float".

(** The double that holds the integer [n]; exact below [2^53]. *)
Fixpoint of_nat (n : nat) : float :=
  match n with
  | O => 0%float
  | S n' => (of_nat n' + 1)%float
  end.

(** [subsequenceMatchScore(search, text)] *)
Definition subsequenceMatchScore (search text : jsstring) : float :=
  let st := subseq_loop search text (mkSubseq 0 0 0) in
  if (searchIndex st =? length search)%nat then
    let baseScore := (of_nat (searchIndex st) / of_nat (length text))%float in
    let consecutiveBonus :=
      (of_nat (maxConsecutive st) / of_nat (length search))%float in
    ((baseScore + consecutiveBonus) / 2)%float
  else 0%float.

(** [fuzzyMatchScore(searchTerm, target)] *)
Definition fuzzyMatchScore (toLowerCase : jsstring -> jsstring)
           (searchTerm target : jsstring) : float :=
  let search := toLowerCase searchTerm in
  let text := toLowerCase target in
  if str_eqb text search then 1.0%float
  else if includes text search then 0.9%float
  else if startsWith text search || startsWith search text then 0.85%float
  else
    let subsequenceScore := subsequenceMatchScore search text in
    if (0 <? subsequenceScore)%float then
      (0.5 + (subsequenceScore * 0.3))%float
    else
      let maxLen := Nat.max (length search) (length text) in
      if (maxLen =? 0)%nat then 0%float
      else
        let distance := levenshteinDistance search text in
        let similarity := (1 - (of_nat distance / of_nat maxLen))%float in
        if (0.4 <? similarity)%float then (similarity * 0.7)%float
        else 0%float.

(** A double as a number of the embedding: the rational it stands for,
    an infinity or [NaN]. *)
Definition to_number (f : float) : number :=
  match FloatOps.Prim2SF f with
  | SpecFloat.S754_zero _ => Fin 0
  | SpecFloat.S754_infinity false => PosInf
  | SpecFloat.S754_infinity true => NegInf
  | SpecFloat.S754_nan => JSNum.NaN
  | SpecFloat.S754_finite s m e =>
      Fin ((if s then - inject_Z (Zpos m) else inject_Z (Zpos m)) * 2 ^ e)%Q
  end.

(** The number [this.fuzzyMatchScore(searchTerm, target)] returns. *)
Definition score (toLowerCase : jsstring -> jsstring)
           (searchTerm target : jsstring) : number :=
  to_number (fuzzyMatchScore toLowerCase searchTerm target).

(** [private fuzzyThreshold = 0.3] *)
Definition fuzzyThreshold : number := to_number 0.3%float.

End F64.

(** Two records whose best scores for the query [abcdef] are both 27/40
    in exact arithmetic, and [0.6749999999999999] and [0.675] in double
    precision. *)
Definition tieA : Employee :=
  sample 1 "abcxdefyz" "q" "q" "q" "q" "q".
Definition tieB : Employee :=
  sample 2 "abcdexfzzzzzzzzzzz" "q" "q" "q" "q" "q".

(** The scoring functions unfold to large terms.  When two terms are
    compared, the outer layers are to be unfolded first: the wrappers,
    then the best score, the list of scores, the score of one field, and
    last the tiers. *)
Strategy 10 [bestScore scores_rt].
Strategy 20 [scores Math_max fuzzyMatchScore_rt].
Strategy 30 [fuzzyMatchScore].
Strategy 40 [subsequenceMatchScore editDistanceScore].
Strategy 50 [levenshteinDistance subseq_loop].

(** ** Facts on numbers *)

Open Scope Q_scope.

Lemma is_zero_of_nat (n : nat) : is_zero (inject_Z (Z.of_nat n)) = (n =? 0)%nat.
Proof.
  unfold is_zero, Qeq_bool. simpl.
  destruct n as [|n]; [reflexivity|].
  rewrite Z.mul_1_r. apply Z.eqb_neq. lia.
Qed.

Lemma div_of_nat (a b : nat) :
  b <> 0%nat ->
  div (of_nat a) (of_nat b) =
  Fin (inject_Z (Z.of_nat a) / inject_Z (Z.of_nat b)).
Proof.
  intros Hb. unfold div, of_nat. rewrite is_zero_of_nat.
  destruct (Nat.eqb_spec b 0); [contradiction | reflexivity].
Qed.

Lemma inject_nat_pos (n : nat) : (0 < n)%nat -> 0 < inject_Z (Z.of_nat n).
Proof. intros H. unfold Qlt. simpl. lia. Qed.

Lemma inject_nat_le (a b : nat) :
  (a <= b)%nat -> inject_Z (Z.of_nat a) <= inject_Z (Z.of_nat b).
Proof. intros H. unfold Qle. simpl. lia. Qed.

Lemma ratio_nonneg (a b : nat) :
  (0 < b)%nat -> 0 <= inject_Z (Z.of_nat a) / inject_Z (Z.of_nat b).
Proof.
  intros Hb. apply Qle_shift_div_l; [now apply inject_nat_pos|].
  rewrite Qmult_0_l. change 0 with (inject_Z (Z.of_nat 0)).
  apply inject_nat_le. lia.
Qed.

Lemma ratio_pos (a b : nat) :
  (0 < a)%nat -> (0 < b)%nat ->
  0 < inject_Z (Z.of_nat a) / inject_Z (Z.of_nat b).
Proof.
  intros Ha Hb. apply Qlt_shift_div_l; [now apply inject_nat_pos|].
  rewrite Qmult_0_l. now apply inject_nat_pos.
Qed.

Lemma ratio_le_1 (a b : nat) :
  (a <= b)%nat -> (0 < b)%nat ->
  inject_Z (Z.of_nat a) / inject_Z (Z.of_nat b) <= 1.
Proof.
  intros Hab Hb. apply Qle_shift_div_r; [now apply inject_nat_pos|].
  rewrite Qmult_1_l. now apply inject_nat_le.
Qed.

Lemma ratio_lt_1 (a b : nat) :
  (a < b)%nat ->
  inject_Z (Z.of_nat a) / inject_Z (Z.of_nat b) < 1.
Proof.
  intros Hab. apply Qlt_shift_div_r; [apply inject_nat_pos; lia|].
  rewrite Qmult_1_l. unfold Qlt. simpl. lia.
Qed.

Lemma gtb_Fin (a b : Q) : gtb (Fin a) (Fin b) = true <-> b < a.
Proof.
  simpl. rewrite negb_true_iff. split.
  - intros H. apply Qnot_le_lt. intros Hle.
    apply Qle_bool_iff in Hle. congruence.
  - intros H. destruct (Qle_bool a b) eqn:E; [|reflexivity].
    apply Qle_bool_iff in E. lra.
Qed.

Lemma gtb_Fin_false (a b : Q) : gtb (Fin a) (Fin b) = false <-> a <= b.
Proof.
  simpl. rewrite negb_false_iff. apply Qle_bool_iff.
Qed.

Lemma geb_Fin (a b : Q) : geb (Fin a) (Fin b) = true <-> b <= a.
Proof. simpl. apply Qle_bool_iff. Qed.

(** ** Facts on strings *)

Lemma str_eqb_eq (s t : jsstring) : str_eqb s t = true <-> s = t.
Proof.
  revert t. induction s as [|c s IH]; intros [|d t]; simpl;
    try (split; [discriminate | discriminate]); [tauto|].
  rewrite andb_true_iff, N.eqb_eq, IH. split.
  - intros [-> ->]. reflexivity.
  - intros H. injection H as -> ->. auto.
Qed.

Lemma str_eqb_refl (s : jsstring) : str_eqb s s = true.
Proof. now apply str_eqb_eq. Qed.

Lemma startsWith_nil (s : jsstring) : startsWith s [] = true.
Proof. destruct s; reflexivity. Qed.

Lemma includes_nil (s : jsstring) : includes s [] = true.
Proof. destruct s; reflexivity. Qed.

Lemma startsWith_app (s p : jsstring) :
  startsWith s p = true <-> exists r, s = p ++ r.
Proof.
  revert s. induction p as [|d p IH]; intros s.
  - rewrite startsWith_nil. split; [exists s; reflexivity | reflexivity].
  - destruct s as [|c s]; simpl.
    + split; [discriminate | intros [r Hr]; discriminate].
    + rewrite andb_true_iff, N.eqb_eq, IH. split.
      * intros [-> [r ->]]. exists r. reflexivity.
      * intros [r Hr]. injection Hr as -> ->. split; [reflexivity | now exists r].
Qed.

Lemma includes_app (s p : jsstring) :
  includes s p = true <-> exists l r, s = l ++ p ++ r.
Proof.
  induction s as [|c s IH].
  - change (includes [] p) with (startsWith [] p || false).
    rewrite orb_false_r, startsWith_app. split.
    + intros [r Hr]. exists [], r. exact Hr.
    + intros [l [r Hr]]. destruct l; simpl in Hr.
      * now exists r.
      * discriminate.
  - change (includes (c :: s) p) with (startsWith (c :: s) p || includes s p).
    rewrite orb_true_iff, IH. split.
    + intros [H | [l [r ->]]].
      * apply startsWith_app in H. destruct H as [r Hr].
        exists [], r. exact Hr.
      * exists (c :: l), r. reflexivity.
    + intros [[|c' l] [r Hr]]; simpl in Hr.
      * left. apply startsWith_app. now exists r.
      * right. injection Hr as -> ->. now exists l, r.
Qed.

(** When none of the first three guards holds, both strings are
    non-empty and different. *)
Lemma early_miss_nonempty (search text : jsstring) :
  exact_fires search text = false ->
  substring_fires search text = false ->
  prefix_fires search text = false ->
  search <> [] /\ text <> [] /\ search <> text.
Proof.
  unfold exact_fires, substring_fires, prefix_fires.
  intros He Hs Hp. repeat split; intros ->.
  - rewrite includes_nil in Hs. discriminate.
  - rewrite startsWith_nil, orb_true_r in Hp. discriminate.
  - rewrite str_eqb_refl in He. discriminate.
Qed.

(** ** The scan of [subsequenceMatchScore] *)

Lemma Subsequence_length (q t : jsstring) :
  Subsequence q t -> (length q <= length t)%nat.
Proof. induction 1; simpl; lia. Qed.

Lemma Subsequence_tail (c : N) (q t : jsstring) :
  Subsequence (c :: q) t -> Subsequence q t.
Proof.
  intros H. remember (c :: q) as cq eqn:E. revert c q E.
  induction H as [t | c' q' t H IH | c' q' t H IH]; intros c q E.
  - discriminate.
  - injection E as -> ->. now apply Subsequence_skip.
  - apply Subsequence_skip. now apply (IH c).
Qed.

Lemma Subsequence_same_length (q t : jsstring) :
  Subsequence q t -> length q = length t -> q = t.
Proof.
  induction 1 as [t | c q t H IH | c q t H IH]; simpl; intros L.
  - destruct t; [reflexivity | discriminate].
  - f_equal. apply IH. lia.
  - apply Subsequence_length in H. lia.
Qed.

Lemma nth_error_skipn (A : Type) (l : list A) (k : nat) :
  nth_error l k = hd_error (skipn k l).
Proof.
  revert l. induction k as [|k IH]; intros [|x l]; simpl; auto.
Qed.

Lemma skipn_cons_length (A : Type) (l : list A) (k : nat) (x : A) (r : list A) :
  skipn k l = x :: r -> (k < length l)%nat /\ skipn (S k) l = r.
Proof.
  revert l. induction k as [|k IH]; intros [|y l]; simpl; try discriminate.
  - intros H. injection H as -> ->. split; [lia | reflexivity].
  - intros H. apply IH in H. destruct H as [H1 H2]. split; [lia | exact H2].
Qed.

Lemma subseq_loop_inv (search text : jsstring) (st : SubseqState) :
  scan_ok search st ->
  let st' := subseq_loop search text st in
  scan_ok search st' /\
  (searchIndex st <= searchIndex st')%nat /\
  (searchIndex st' <= searchIndex st + length text)%nat /\
  (maxConsecutive st <= maxConsecutive st')%nat /\
  ((searchIndex st < searchIndex st')%nat -> (1 <= maxConsecutive st')%nat).
Proof.
  revert st. induction text as [|c text IH]; intros st Hok; simpl.
  - repeat split; try apply Hok; lia.
  - destruct (Nat.ltb_spec (searchIndex st) (length search)) as [Hlt | Hge].
    + assert (Hok' : scan_ok search (subseq_step search st c)).
      { destruct Hok as [H1 H2 H3]. unfold subseq_step.
        destruct (unit_eqb _ _); constructor; simpl; lia. }
      specialize (IH _ Hok'). simpl in IH.
      destruct IH as (Hok'' & Hlo & Hhi & Hmax & Hpos).
      assert (Hstep : (searchIndex st <= searchIndex (subseq_step search st c)
                       <= searchIndex st + 1)%nat /\
                      (maxConsecutive st <= maxConsecutive (subseq_step search st c))%nat /\
                      ((searchIndex st < searchIndex (subseq_step search st c))%nat ->
                       (1 <= maxConsecutive (subseq_step search st c))%nat)).
      { unfold subseq_step. destruct (unit_eqb _ _); simpl; lia. }
      repeat split; try apply Hok''; try lia.
    + repeat split; try apply Hok; lia.
Qed.

(** The scan reaches the end of [search] exactly when [search] is an
    ordered subsequence of the text. *)
Lemma subseq_loop_complete (search text : jsstring) (st : SubseqState) :
  Subsequence (skipn (searchIndex st) search) text ->
  (searchIndex st <= length search)%nat ->
  searchIndex (subseq_loop search text st) = length search.
Proof.
  revert st. induction text as [|c text IH]; intros st Hsub Hle; simpl.
  - inversion Hsub as [t E | |]. 
    assert (L : length (skipn (searchIndex st) search) = 0%nat)
      by (rewrite <- E; reflexivity).
    rewrite length_skipn in L. lia.
  - destruct (Nat.ltb_spec (searchIndex st) (length search)) as [Hlt | Hge];
      [| lia].
    apply IH.
    + unfold subseq_step. rewrite nth_error_skipn.
      destruct (skipn (searchIndex st) search) as [|d r] eqn:E.
      * assert (L : length (skipn (searchIndex st) search) = 0%nat)
          by (rewrite E; reflexivity).
        rewrite length_skipn in L. lia.
      * destruct (skipn_cons_length _ _ E) as [_ E2].
        simpl. destruct (N.eqb_spec c d) as [-> | Hne]; simpl.
        -- replace (searchIndex st + 1)%nat with (S (searchIndex st)) by lia.
           rewrite E2. inversion Hsub; subst; auto.
           eapply Subsequence_tail; eauto.
        -- rewrite E. inversion Hsub; subst; [congruence | assumption].
    + unfold subseq_step. destruct (unit_eqb _ _); simpl; lia.
Qed.

Lemma subseq_loop_sound (search text : jsstring) (st : SubseqState) :
  searchIndex (subseq_loop search text st) = length search ->
  (searchIndex st <= length search)%nat ->
  Subsequence (skipn (searchIndex st) search) text.
Proof.
  revert st. induction text as [|c text IH]; intros st Hend Hle; simpl in Hend.
  - rewrite Hend, skipn_all. constructor.
  - destruct (Nat.ltb_spec (searchIndex st) (length search)) as [Hlt | Hge].
    + assert (Hle' : (searchIndex (subseq_step search st c) <= length search)%nat).
      { unfold subseq_step. destruct (unit_eqb _ _); simpl; lia. }
      specialize (IH _ Hend Hle'). revert IH. unfold subseq_step.
      rewrite nth_error_skipn.
      destruct (skipn (searchIndex st) search) as [|d r] eqn:E.
      * intros _. constructor.
      * destruct (skipn_cons_length _ _ E) as [_ E2].
        simpl. destruct (N.eqb_spec c d) as [-> | Hne]; simpl.
        -- replace (searchIndex st + 1)%nat with (S (searchIndex st)) by lia.
           rewrite E2. intros H. now constructor.
        -- rewrite E. intros H. now constructor.
    + replace (searchIndex st) with (length search) by lia.
      rewrite skipn_all. constructor.
Qed.

Lemma scan_ok_init (search : jsstring) : scan_ok search (mkSubseq 0 0 0).
Proof. constructor; simpl; lia. Qed.

Lemma scan_complete_iff (search text : jsstring) :
  searchIndex (subseq_loop search text (mkSubseq 0 0 0)) = length search <->
  Subsequence search text.
Proof.
  split.
  - intros H. apply subseq_loop_sound in H; [exact H | simpl; lia].
  - intros H. apply subseq_loop_complete; simpl; [exact H | lia].
Qed.

(** ** The tiers of [fuzzyMatchScore] *)

Section Scoring.

Variable toLowerCase : jsstring -> jsstring.

(** The score, tier by tier. *)
Lemma fuzzyMatchScore_by_tier (q t : jsstring) :
  let search := toLowerCase q in
  let text := toLowerCase t in
  fuzzyMatchScore toLowerCase q t =
  match tier search text with
  | Exact => Fin 1.0
  | Substring => Fin 0.9
  | Prefix => Fin 0.85
  | OrderedSubsequence =>
      add (Fin 0.5) (mul (subsequenceMatchScore search text) (Fin 0.3))
  | EditDistance => editDistanceScore search text
  end.
Proof.
  unfold fuzzyMatchScore, tier, exact_fires, substring_fires, prefix_fires,
    editDistanceScore. cbv zeta.
  destruct (str_eqb _ _); [reflexivity|].
  destruct (includes _ _); [reflexivity|].
  destruct (startsWith _ _ || startsWith _ _); [reflexivity|].
  destruct (gtb _ _); reflexivity.
Qed.

End Scoring.

(** Value of the subsequence score on a complete scan. *)
Lemma subsequenceMatchScore_complete (search text : jsstring) :
  search <> [] -> text <> [] ->
  Subsequence search text ->
  subsequenceMatchScore search text =
  Fin ((inject_Z (Z.of_nat (length search)) / inject_Z (Z.of_nat (length text))
        + inject_Z (Z.of_nat (maxRun search text))
          / inject_Z (Z.of_nat (length search))) / 2).
Proof.
  intros Hs Ht Hsub. unfold subsequenceMatchScore, maxRun. cbv zeta.
  apply scan_complete_iff in Hsub. rewrite Hsub, Nat.eqb_refl.
  rewrite !div_of_nat.
  - reflexivity.
  - destruct search; [congruence | discriminate].
  - destruct text; [congruence | discriminate].
Qed.

Lemma subsequenceMatchScore_incomplete (search text : jsstring) :
  ~ Subsequence search text ->
  subsequenceMatchScore search text = Fin 0.
Proof.
  intros Hsub. unfold subsequenceMatchScore. cbv zeta.
  destruct (Nat.eqb_spec
              (searchIndex (subseq_loop search text (mkSubseq 0 0 0)))
              (length search)) as [E | E]; [|reflexivity].
  apply scan_complete_iff in E. contradiction.
Qed.

Lemma maxRun_bounds (search text : jsstring) :
  search <> [] -> Subsequence search text ->
  (1 <= maxRun search text <= length search)%nat.
Proof.
  intros Hs Hsub. unfold maxRun.
  destruct (subseq_loop_inv text (scan_ok_init search))
    as (Hok & _ & _ & _ & Hpos).
  apply scan_complete_iff in Hsub. destruct Hok as [H1 H2 H3].
  rewrite Hsub in *. simpl in Hpos.
  assert (0 < length search)%nat by (destruct search; [congruence | simpl; lia]).
  split; [apply Hpos; lia | lia].
Qed.

(** On strings that pass the first three guards, an ordered subsequence
    gets a subsequence score strictly between 0 and 1. *)
Lemma subsequenceMatchScore_range (search text : jsstring) :
  search <> [] -> text <> [] -> search <> text ->
  Subsequence search text ->
  exists s, subsequenceMatchScore search text = Fin s /\ 0 < s /\ s < 1.
Proof.
  intros Hs Ht Hne Hsub. eexists. split.
  - now apply subsequenceMatchScore_complete.
  - pose proof (maxRun_bounds Hs Hsub) as [Hr1 Hr2].
    pose proof (Subsequence_length Hsub) as Hlen.
    assert (Hlt : (length search < length text)%nat).
    { destruct (Nat.eq_dec (length search) (length text)) as [E|E]; [|lia].
      exfalso. apply Hne. now apply Subsequence_same_length. }
    assert (Hq : (0 < length search)%nat) by lia.
    pose proof (ratio_pos Hq (Nat.lt_trans _ _ _ Hq Hlt)) as B1.
    pose proof (ratio_lt_1 Hlt) as B2.
    pose proof (@ratio_pos (maxRun search text) (length search)
                  ltac:(lia) Hq) as C1.
    pose proof (@ratio_le_1 (maxRun search text) (length search)
                  Hr2 Hq) as C2.
    split.
    + apply Qlt_shift_div_l; lra.
    + apply Qlt_shift_div_r; lra.
Qed.

(** The guard of the fourth tier holds exactly for ordered subsequences. *)
Lemma subsequence_guard (search text : jsstring) :
  search <> [] -> text <> [] -> search <> text ->
  gtb (subsequenceMatchScore search text) (Fin 0) = true <->
  Subsequence search text.
Proof.
  intros Hs Ht Hne. split.
  - intros H.
    destruct (Nat.eq_dec
                (searchIndex (subseq_loop search text (mkSubseq 0 0 0)))
                (length search)) as [E | E].
    + now apply scan_complete_iff.
    + rewrite subsequenceMatchScore_incomplete in H; [discriminate|].
      intros Hsub. apply E. now apply scan_complete_iff.
  - intros Hsub.
    destruct (subsequenceMatchScore_range Hs Ht Hne Hsub) as (s & -> & H0 & _).
    now apply gtb_Fin.
Qed.

(** The last tier returns 0 or 0.7 times a similarity above 0.4. *)
Lemma editDistanceScore_range (search text : jsstring) :
  editDistanceScore search text = Fin 0 \/
  exists sim, editDistanceScore search text = Fin (sim * 0.7) /\
              0.4 < sim /\ sim <= 1.
Proof.
  unfold editDistanceScore. cbv zeta.
  destruct (Nat.eqb_spec (Nat.max (length search) (length text)) 0) as [E|E];
    [now left|].
  rewrite div_of_nat by exact E.
  set (r := inject_Z (Z.of_nat (levenshteinDistance search text))
            / inject_Z (Z.of_nat (Nat.max (length search) (length text)))).
  assert (Hr : 0 <= r) by (apply ratio_nonneg; lia).
  change (sub (Fin 1) (Fin r)) with (Fin (1 + - r)).
  destruct (gtb (Fin (1 + - r)) (Fin 0.4)) eqn:G; [|now left].
  right. exists (1 + - r). split; [reflexivity|].
  apply gtb_Fin in G. split; lra.
Qed.

Section ScoreProfile.

Variable toLowerCase : jsstring -> jsstring.

(** What each tier returns. *)
Lemma score_profile (q t : jsstring) :
  let search := toLowerCase q in
  let text := toLowerCase t in
  let sc := fuzzyMatchScore toLowerCase q t in
  match tier search text with
  | Exact => sc = Fin 1.0
  | Substring => sc = Fin 0.9
  | Prefix => sc = Fin 0.85
  | OrderedSubsequence =>
      Subsequence search text /\
      exists s, subsequenceMatchScore search text = Fin s /\
                0 < s /\ s < 1 /\ sc = Fin (0.5 + s * 0.3)
  | EditDistance =>
      sc = Fin 0 \/
      exists sim, sc = Fin (sim * 0.7) /\ 0.4 < sim /\ sim <= 1
  end.
Proof.
  intros search text sc. unfold sc.
  rewrite fuzzyMatchScore_by_tier. fold search text.
  unfold tier.
  destruct (exact_fires search text) eqn:E1; [reflexivity|].
  destruct (substring_fires search text) eqn:E2; [reflexivity|].
  destruct (prefix_fires search text) eqn:E3; [reflexivity|].
  destruct (early_miss_nonempty _ _ E1 E2 E3) as (Hs & Ht & Hne).
  destruct (gtb (subsequenceMatchScore search text) (Fin 0)) eqn:G.
  - apply subsequence_guard in G; auto. split; [exact G|].
    destruct (subsequenceMatchScore_range Hs Ht Hne G) as (s & Es & H0 & H1).
    exists s. rewrite Es. repeat split; auto.
  - apply editDistanceScore_range.
Qed.

(** Every score is a rational of the unit interval, and either 0 or
    above 0.28. *)
Lemma fuzzyMatchScore_range (q t : jsstring) :
  exists r, fuzzyMatchScore toLowerCase q t = Fin r /\
            0 <= r /\ r <= 1 /\ (Fin r = Fin 0 \/ 0.28 < r).
Proof.
  pose proof (score_profile q t) as P. cbv zeta in P.
  destruct (tier (toLowerCase q) (toLowerCase t)).
  - exists 1.0. repeat split; auto; try lra; try (right; lra).
  - exists 0.9. repeat split; auto; try lra; try (right; lra).
  - exists 0.85. repeat split; auto; try lra; try (right; lra).
  - destruct P as (_ & s & _ & H0 & H1 & ->).
    exists (0.5 + s * 0.3). repeat split; auto; try lra; try (right; lra).
  - destruct P as [-> | (sim & -> & H0 & H1)].
    + exists 0. repeat split; auto; try lra.
    + exists (sim * 0.7). repeat split; auto; try lra; try (right; lra).
Qed.

End ScoreProfile.

(** ** [Math.max] on finite numbers *)

Lemma max2_Fin (a b : Q) :
  max2 (Fin a) (Fin b) = Fin (if Qle_bool b a then a else b).
Proof. unfold max2. simpl. destruct (Qle_bool b a); reflexivity. Qed.

Lemma fold_max2_Fin (l : list number) (a : Q) :
  Forall finite l ->
  exists r, fold_left max2 l (Fin a) = Fin r /\
            a <= r /\
            (Fin r = Fin a \/ In (Fin r) l) /\
            (forall q, In (Fin q) l -> q <= r).
Proof.
  intros Hl. revert a. induction Hl as [|x l [b ->] Hl IH]; intros a;
    cbn [fold_left].
  - exists a. repeat split; auto; try lra. intros q [].
  - rewrite max2_Fin. destruct (Qle_bool b a) eqn:E.
    + apply Qle_bool_iff in E.
      destruct (IH a) as (r & Er & Har & Hin & Hmax).
      exists r. repeat split; auto.
      * destruct Hin as [Hin | Hin]; [now left | right; now right].
      * intros q [Hq | Hq]; [injection Hq as <-; lra | auto].
    + assert (Hab : a < b).
      { apply Qnot_le_lt. intros H. apply Qle_bool_iff in H. congruence. }
      destruct (IH b) as (r & Er & Hbr & Hin & Hmax).
      exists r. repeat split; auto; try lra.
      * right. destruct Hin as [Hin | Hin]; [left; now symmetry | now right].
      * intros q [Hq | Hq]; [injection Hq as <-; lra | auto].
Qed.

(** On a non-empty list of finite numbers, [Math.max] returns the
    greatest element. *)
Lemma Math_max_Fin (x : number) (l : list number) :
  Forall finite (x :: l) ->
  exists r, Math_max (x :: l) = Fin r /\
            In (Fin r) (x :: l) /\
            (forall q, In (Fin q) (x :: l) -> q <= r).
Proof.
  intros H. inversion H as [|? ? [a ->] Hl]; subst.
  unfold Math_max. cbn [fold_left].
  change (max2 NegInf (Fin a)) with (Fin a).
  destruct (fold_max2_Fin a Hl) as (r & Er & Har & Hin & Hmax).
  exists r. repeat split; auto.
  - destruct Hin as [Hin | Hin]; [left; now symmetry | now right].
  - intros q [Hq | Hq]; [injection Hq as <-; lra | auto].
Qed.

(** ** The stable sort *)

Lemma sort_insert_perm (A : Type) (cmp : A -> A -> number) (x : A) (l : list A) :
  Permutation (sort_insert cmp x l) (x :: l).
Proof.
  induction l as [|y l IH]; simpl; [reflexivity|].
  destruct (gtb (cmp x y) (Fin 0)); [|reflexivity].
  rewrite IH. apply perm_swap.
Qed.

Lemma Array_sort_perm (A : Type) (cmp : A -> A -> number) (l : list A) :
  Permutation (Array_sort cmp l) l.
Proof.
  induction l as [|x l IH]; simpl; [reflexivity|].
  rewrite sort_insert_perm. now constructor.
Qed.

(** Sorting commutes with a map that preserves the comparator. *)
Lemma Array_sort_map (A B : Type) (f : A -> B)
      (cmpA : A -> A -> number) (cmpB : B -> B -> number) (l : list A) :
  (forall x y, cmpB (f x) (f y) = cmpA x y) ->
  Array_sort cmpB (map f l) = map f (Array_sort cmpA l).
Proof.
  intros H. induction l as [|x l IH]; simpl; [reflexivity|].
  rewrite IH. generalize (Array_sort cmpA l). intros s.
  induction s as [|y s IHs]; simpl; [reflexivity|].
  rewrite H. destruct (gtb (cmpA x y) (Fin 0)); simpl; [now rewrite IHs | reflexivity].
Qed.

Section SortByKey.

Variable A : Type.
Variable cmp : A -> A -> number.
Variable key : A -> Q.

(** The comparator asks to move [y] ahead of [x] exactly when the key
    of [y] is the greater one. *)
Hypothesis cmp_key :
  forall x y, gtb (cmp x y) (Fin 0) = true <-> key x < key y.

Lemma sort_insert_sorted (x : A) (l : list A) :
  StronglySorted (descending key) l ->
  StronglySorted (descending key) (sort_insert cmp x l).
Proof.
  induction 1 as [|y l Hs IH Hy]; simpl.
  - repeat constructor.
  - destruct (gtb (cmp x y) (Fin 0)) eqn:G.
    + apply cmp_key in G. constructor; [exact IH|].
      eapply Permutation_Forall; [symmetry; apply sort_insert_perm|].
      constructor; [unfold descending; lra | exact Hy].
    + assert (Hxy : key y <= key x).
      { apply Qnot_lt_le. intros H. apply cmp_key in H. congruence. }
      constructor; [now constructor|].
      constructor; [exact Hxy|].
      eapply Forall_impl; [|exact Hy].
      unfold descending. intros z Hz. lra.
Qed.

Lemma Array_sort_sorted (l : list A) :
  StronglySorted (descending key) (Array_sort cmp l).
Proof.
  induction l as [|x l IH]; simpl; [constructor|].
  now apply sort_insert_sorted.
Qed.

(** Stability: the elements of one key keep their order. *)
Lemma sort_insert_stable (v : Q) (x : A) (l : list A) :
  filter (fun a => Qeq_bool (key a) v) (sort_insert cmp x l) =
  filter (fun a => Qeq_bool (key a) v) (x :: l).
Proof.
  induction l as [|y l IH]; [reflexivity|].
  cbn [sort_insert].
  destruct (gtb (cmp x y) (Fin 0)) eqn:G; [|reflexivity].
  apply cmp_key in G.
  cbn [filter] in *. rewrite IH.
  destruct (Qeq_bool (key x) v) eqn:Ex; [|reflexivity].
  destruct (Qeq_bool (key y) v) eqn:Ey; [|reflexivity].
  apply Qeq_bool_iff in Ex, Ey. lra.
Qed.

Lemma Array_sort_stable (v : Q) (l : list A) :
  filter (fun a => Qeq_bool (key a) v) (Array_sort cmp l) =
  filter (fun a => Qeq_bool (key a) v) l.
Proof.
  induction l as [|x l IH]; [reflexivity|].
  cbn [Array_sort fold_right]. fold (Array_sort cmp l).
  rewrite sort_insert_stable. cbn [filter]. now rewrite IH.
Qed.

(** A list already in descending order is left as it is. *)
Lemma Array_sort_sorted_id (l : list A) :
  StronglySorted (descending key) l -> Array_sort cmp l = l.
Proof.
  induction 1 as [|x l Hs IH Hx]; [reflexivity|].
  cbn [Array_sort fold_right]. fold (Array_sort cmp l). rewrite IH.
  destruct l as [|y l]; [reflexivity|].
  cbn [sort_insert].
  destruct (gtb (cmp x y) (Fin 0)) eqn:G; [|reflexivity].
  apply cmp_key in G. inversion Hx; subst. unfold descending in *. lra.
Qed.

(** The result does not depend on the sorting algorithm: a list in
    descending order that keeps the elements of every key in their order
    is determined by these two properties. *)
Lemma stable_sorted_unique (l1 l2 : list A) :
  StronglySorted (descending key) l1 ->
  StronglySorted (descending key) l2 ->
  (forall v, filter (fun a => Qeq_bool (key a) v) l1 =
             filter (fun a => Qeq_bool (key a) v) l2) ->
  l1 = l2.
Proof.
  intros H1. revert l2.
  induction H1 as [|x t1 Hs1 IH Hx]; intros l2 H2 Hf.
  - destruct l2 as [|y t2]; [reflexivity|].
    specialize (Hf (key y)). cbn [filter] in Hf.
    rewrite Qeq_bool_refl in Hf. discriminate.
  - destruct l2 as [|y t2].
    + specialize (Hf (key x)). cbn [filter] in Hf.
      rewrite Qeq_bool_refl in Hf. discriminate.
    + inversion H2 as [|? ? Hs2 Hy]; subst.
      assert (Hxy : key x <= key y).
      { pose proof (Hf (key x)) as E. cbn [filter] in E.
        rewrite Qeq_bool_refl in E.
        assert (Hin : In x (filter (fun a => Qeq_bool (key a) (key x))
                                   (y :: t2))).
        { cbn [filter]. rewrite <- E. now left. }
        apply filter_In in Hin. destruct Hin as [[<- | Hin] Hk].
        - apply Qle_refl.
        - rewrite Forall_forall in Hy. apply (Hy x Hin). }
      assert (Hyx : key y <= key x).
      { pose proof (Hf (key y)) as E. cbn [filter] in E.
        rewrite Qeq_bool_refl in E.
        assert (Hin : In y (filter (fun a => Qeq_bool (key a) (key y))
                                   (x :: t1))).
        { cbn [filter]. rewrite E. now left. }
        apply filter_In in Hin. destruct Hin as [[<- | Hin] Hk].
        - apply Qle_refl.
        - rewrite Forall_forall in Hx. apply (Hx y Hin). }
      assert (Exy : x = y).
      { pose proof (Hf (key x)) as E. cbn [filter] in E.
        rewrite Qeq_bool_refl in E.
        replace (Qeq_bool (key y) (key x)) with true in E
          by (symmetry; apply Qeq_bool_iff; lra).
        now injection E. }
      subst y. f_equal. apply IH; [exact Hs2|].
      intros v. specialize (Hf v). cbn [filter] in Hf.
      destruct (Qeq_bool (key x) v); [now injection Hf | exact Hf].
Qed.

(** Hence [Array_sort] is the stable sort of the language, whatever
    algorithm the engine runs. *)
Lemma Array_sort_unique (l out : list A) :
  StronglySorted (descending key) out ->
  (forall v, filter (fun a => Qeq_bool (key a) v) out =
             filter (fun a => Qeq_bool (key a) v) l) ->
  out = Array_sort cmp l.
Proof.
  intros Hs Hf. apply stable_sorted_unique; [exact Hs | apply Array_sort_sorted|].
  intros v. now rewrite Array_sort_stable.
Qed.

End SortByKey.

(** ** Filtering and ranking *)

(** A loop that pushes the elements passing a test is a filter. *)
Lemma push_loop (A B : Type) (test : A -> bool) (mk : A -> B)
      (l : list A) (acc : list B) :
  fold_left (fun results e => if test e then results ++ [mk e] else results)
            l acc
  = acc ++ map mk (filter test l).
Proof.
  revert acc. induction l as [|e l IH]; intros acc; simpl.
  - symmetry. apply app_nil_r.
  - rewrite IH. destruct (test e); simpl; [|reflexivity].
    rewrite <- app_assoc. reflexivity.
Qed.



Lemma filter_Selection (A : Type) (f : A -> bool) (l : list A) :
  Selection (filter f l) l.
Proof.
  induction l as [|x l IH]; simpl; [constructor|].
  destruct (f x); now constructor.
Qed.

Lemma Selection_refl (A : Type) (l : list A) : Selection l l.
Proof. induction l; now constructor. Qed.

Lemma Selection_length (A : Type) (sub l : list A) :
  Selection sub l -> (length sub <= length l)%nat.
Proof. induction 1; simpl; lia. Qed.

Lemma Selection_In (A : Type) (sub l : list A) (x : A) :
  Selection sub l -> In x sub -> In x l.
Proof.
  induction 1 as [|y sub l Hs IH|y sub l Hs IH]; simpl; intros Hin; auto.
  destruct Hin; auto.
Qed.

Section Ranking.

Variable toLowerCase : jsstring -> jsstring.

Lemma fuzzyMatchScore_finite (q t : jsstring) :
  finite (fuzzyMatchScore toLowerCase q t).
Proof.
  destruct (fuzzyMatchScore_range toLowerCase q t) as (r & -> & _).
  now exists r.
Qed.

Lemma scores_finite (term : jsstring) (e : Employee) :
  Forall finite (scores toLowerCase term e).
Proof.
  unfold scores. repeat constructor; apply fuzzyMatchScore_finite.
Qed.

(** The best score is the greatest of the seven field scores. *)
Lemma bestScore_max (term : jsstring) (e : Employee) :
  exists r, bestScore toLowerCase term e = Fin r /\
            In (Fin r) (scores toLowerCase term e) /\
            (forall q, In (Fin q) (scores toLowerCase term e) -> q <= r).
Proof.
  unfold bestScore. apply Math_max_Fin.
  apply (scores_finite term e).
Qed.

Lemma bestScore_value (term : jsstring) (e : Employee) :
  bestScore toLowerCase term e = Fin (recordScore toLowerCase term e).
Proof.
  unfold recordScore. destruct (bestScore_max term e) as (r & -> & _).
  reflexivity.
Qed.

Lemma kept_iff (term : jsstring) (e : Employee) :
  kept toLowerCase term e = true <-> 0.3 <= recordScore toLowerCase term e.
Proof.
  unfold kept, fuzzyThreshold. rewrite bestScore_value. apply geb_Fin.
Qed.

Lemma byBestScore_key (term : jsstring) (x y : Employee) :
  gtb (byBestScore toLowerCase term x y) (Fin 0) = true <->
  recordScore toLowerCase term x < recordScore toLowerCase term y.
Proof.
  unfold byBestScore. rewrite !bestScore_value.
  change (sub (Fin ?a) (Fin ?b)) with (Fin (a + - b)).
  rewrite gtb_Fin. split; intros H; lra.
Qed.

Lemma kept_unfold (term : jsstring) (e : Employee) :
  kept toLowerCase term e = geb (bestScore toLowerCase term e) fuzzyThreshold.
Proof. reflexivity. Qed.

(** The loop of [searchEmployees] is a filter. *)
Lemma collect_filter (term : jsstring) (l : list Employee) :
  collect toLowerCase term l =
  map (fun e => mkFuzzyResult e (bestScore toLowerCase term e))
      (filter (kept toLowerCase term) l).
Proof.
  exact (push_loop (kept toLowerCase term)
           (fun e => mkFuzzyResult e (bestScore toLowerCase term e)) l []).
Qed.

(** [searchEmployees] on a query with a non-empty trimmed form. *)
Lemma searchEmployees_ranked (l : list Employee) (q : jsstring) :
  trim q <> [] ->
  searchEmployees toLowerCase l q =
  Array_sort (byBestScore toLowerCase (trim q))
             (filter (kept toLowerCase (trim q)) l).
Proof.
  intros Hq. unfold searchEmployees.
  destruct (trim q) as [|c term] eqn:E; [congruence|].
  cbn [truthy negb]. cbv zeta. rewrite collect_filter.
  rewrite (Array_sort_map (fun e => mkFuzzyResult e (bestScore toLowerCase (c :: term) e))
             (byBestScore toLowerCase (c :: term)) byScore);
    [|reflexivity].
  rewrite map_map. simpl. apply map_id.
Qed.

Lemma searchEmployees_passthrough (l : list Employee) (q : jsstring) :
  trim q = [] -> searchEmployees toLowerCase l q = l.
Proof. intros Hq. unfold searchEmployees. now rewrite Hq. Qed.

Lemma ranked_kept (l : list Employee) (term : jsstring) :
  let out := Array_sort (byBestScore toLowerCase term)
                        (filter (kept toLowerCase term) l) in
  filter (kept toLowerCase term) out = out.
Proof.
  intros out. apply forallb_filter_id.
  apply forallb_forall. intros e He.
  eapply Permutation_in in He; [|apply Array_sort_perm].
  apply filter_In in He. tauto.
Qed.

Lemma searchEmployees_idem (l : list Employee) (q : jsstring) :
  searchEmployees toLowerCase (searchEmployees toLowerCase l q) q =
  searchEmployees toLowerCase l q.
Proof.
  destruct (trim q) as [|c term] eqn:E.
  - now rewrite !searchEmployees_passthrough.
  - assert (Hq : trim q <> []) by congruence.
    rewrite !searchEmployees_ranked by exact Hq. rewrite E.
    rewrite ranked_kept.
    apply Array_sort_sorted_id with (key := recordScore toLowerCase (c :: term)).
    + apply byBestScore_key.
    + apply Array_sort_sorted. apply byBestScore_key.
Qed.

End Ranking.

(** ** The longest run of matched units *)

Lemma repeat_true_cons (n : nat) (m : list bool) :
  repeat true n ++ true :: m = repeat true (S n) ++ m.
Proof.
  induction n as [|n IH]; simpl; [reflexivity|]. now rewrite IH.
Qed.

Lemma longest_from_ge (cur : nat) (mask : list bool) :
  (cur <= longest_from cur mask)%nat.
Proof.
  revert cur. induction mask as [|[|] mask IH]; intros cur; simpl.
  - lia.
  - specialize (IH (S cur)). lia.
  - lia.
Qed.

Lemma longest_from_exists (cur : nat) (mask : list bool) :
  exists pre post,
    repeat true cur ++ mask = pre ++ repeat true (longest_from cur mask) ++ post.
Proof.
  revert cur. induction mask as [|[|] mask IH]; intros cur; simpl.
  - exists [], []. now rewrite app_nil_r.
  - rewrite repeat_true_cons. apply IH.
  - destruct (Nat.max_spec cur (longest_from 0 mask)) as [[_ ->] | [_ ->]].
    + destruct (IH 0%nat) as (pre & post & E). simpl in E.
      exists (repeat true cur ++ false :: pre), post.
      rewrite <- app_assoc. cbn [app]. do 2 f_equal. exact E.
    + exists [], (false :: mask). reflexivity.
Qed.

Lemma repeat_true_nth (n i : nat) :
  (i < n)%nat -> nth i (repeat true n) false = true.
Proof.
  revert i. induction n as [|n IH]; intros [|i] H; simpl; try lia; auto.
  apply IH. lia.
Qed.

Lemma longest_from_max (cur : nat) (mask : list bool) (k : nat)
      (pre post : list bool) :
  repeat true cur ++ mask = pre ++ repeat true k ++ post ->
  (k <= longest_from cur mask)%nat.
Proof.
  revert cur k pre post.
  induction mask as [|[|] mask IH]; intros cur k pre post E; simpl.
  - apply (f_equal (@length bool)) in E.
    rewrite !length_app, !repeat_length in E. simpl in E. lia.
  - rewrite repeat_true_cons in E. eapply IH; eauto.
  - destruct (Nat.le_gt_cases (length pre + k) cur) as [H1 | H1]; [lia|].
    destruct (Nat.le_gt_cases (length pre) cur) as [H2 | H2].
    + (* the run would cover the [false] mark *)
      exfalso.
      apply (f_equal (fun l => nth cur l false)) in E.
      rewrite app_nth2 in E by (rewrite repeat_length; lia).
      rewrite repeat_length, Nat.sub_diag in E. simpl in E.
      rewrite app_nth2 in E by lia.
      rewrite app_nth1 in E by (rewrite repeat_length; lia).
      rewrite repeat_true_nth in E by lia. discriminate.
    + (* the run lies after the [false] mark *)
      assert (Hk : (k <= longest_from 0 mask)%nat); [|lia].
      apply (f_equal (skipn (S cur))) in E.
      rewrite (skipn_app (S cur) pre) in E.
      replace (S cur - length pre)%nat with 0%nat in E by lia.
      rewrite (skipn_app (S cur) (repeat true cur)) in E.
      rewrite skipn_all2 in E by (rewrite repeat_length; lia).
      rewrite repeat_length in E.
      replace (S cur - cur)%nat with 1%nat in E by lia.
      cbn [app skipn] in E.
      apply (IH 0%nat k (skipn (S cur) pre) post). exact E.
Qed.

Lemma longest_from_spec (mask : list bool) :
  longest_run mask (longest_from 0 mask).
Proof.
  split.
  - apply (longest_from_exists 0 mask).
  - intros k pre post E. apply (@longest_from_max 0 mask k pre post). exact E.
Qed.

Lemma matched_nil (text : jsstring) :
  matched [] text = repeat false (length text).
Proof. induction text as [|c text IH]; simpl; [reflexivity | now rewrite IH]. Qed.

Lemma longest_from_false (cur n : nat) :
  longest_from cur (repeat false n) = cur.
Proof.
  revert cur. induction n as [|n IH]; intros cur; simpl; [reflexivity|].
  rewrite IH. lia.
Qed.

(** The counter [maxConsecutive] of the scan is the longest run of marks
    still to come, the current run included. *)
Lemma subseq_loop_runs (search text : jsstring) (st : SubseqState) :
  scan_ok search st ->
  maxConsecutive (subseq_loop search text st) =
  Nat.max (maxConsecutive st)
          (longest_from (consecutiveMatches st)
                        (matched (skipn (searchIndex st) search) text)).
Proof.
  revert st. induction text as [|c text IH]; intros st Hok.
  - simpl. destruct Hok. lia.
  - cbn [subseq_loop].
    destruct (Nat.ltb_spec (searchIndex st) (length search)) as [Hlt | Hge].
    + assert (Hok' : scan_ok search (subseq_step search st c)).
      { destruct Hok as [H1 H2 H3]. unfold subseq_step.
        destruct (unit_eqb _ _); constructor; simpl; lia. }
      rewrite (IH _ Hok'). unfold subseq_step.
      rewrite nth_error_skipn.
      destruct (skipn (searchIndex st) search) as [|d r] eqn:E.
      * assert (L : length (skipn (searchIndex st) search) = 0%nat)
          by (rewrite E; reflexivity).
        rewrite length_skipn in L. lia.
      * destruct (skipn_cons_length _ _ E) as [_ E2].
        cbn [hd_error unit_eqb matched].
        destruct (N.eqb c d); cbn [searchIndex consecutiveMatches
                                   maxConsecutive longest_from].
        -- replace (searchIndex st + 1)%nat with (S (searchIndex st)) by lia.
           rewrite E2.
           replace (consecutiveMatches st + 1)%nat
             with (S (consecutiveMatches st)) by lia.
           pose proof (longest_from_ge (S (consecutiveMatches st))
                         (matched r text)). lia.
        -- rewrite E. destruct Hok. lia.
    + replace (searchIndex st) with (length search)
        by (destruct Hok; lia).
      rewrite skipn_all, matched_nil, longest_from_false.
      destruct Hok. lia.
Qed.

(** [maxRun] is the length of the longest run of consecutively matched
    units of the text. *)
Lemma maxRun_longest (search text : jsstring) :
  longest_run (matched search text) (maxRun search text).
Proof.
  unfold maxRun. rewrite subseq_loop_runs by apply scan_ok_init.
  simpl. apply longest_from_spec.
Qed.

(** ** Records at run time *)

Lemma is_string_inv (v : jsval) :
  is_string v = true -> exists s, v = JString s.
Proof. destruct v; try discriminate. intros _. now eexists. Qed.

Section RunTimeFacts.

Variable toLowerCase : jsstring -> jsstring.
Variable NumberToString : number -> jsstring.

Lemma scores_rt_erase (term : jsstring) (e : Employee) :
  scores_rt toLowerCase NumberToString term (erase e) =
  Normal (scores toLowerCase term e).
Proof. reflexivity. Qed.

(** The scores of a record are computed exactly when its six fields
    hold strings. *)
Lemma scores_rt_well_typed (term : jsstring) (e : RawEmployee) :
  well_typed e = true ->
  exists l, scores_rt toLowerCase NumberToString term e = Normal l.
Proof.
  destruct e as [i f l m r d s]. unfold well_typed.
  cbn [raw_first_name raw_last_name raw_email raw_role raw_department
       raw_status].
  rewrite !andb_true_iff. intros [[[[[Hf Hl] Hm] Hr] Hd] Hs].
  apply is_string_inv in Hf, Hl, Hm, Hr, Hd, Hs.
  destruct Hf as [sf ->], Hl as [sl ->], Hm as [sm ->],
           Hr as [sr ->], Hd as [sd ->], Hs as [ss ->].
  eexists. reflexivity.
Qed.

Lemma scores_rt_ill_typed (term : jsstring) (e : RawEmployee) :
  well_typed e = false ->
  scores_rt toLowerCase NumberToString term e = TypeError.
Proof.
  destruct e as [i f l m r d s]. unfold well_typed, scores_rt.
  cbn [raw_first_name raw_last_name raw_email raw_role raw_department
       raw_status].
  destruct f; try reflexivity.
  destruct l; try reflexivity.
  destruct m; try reflexivity.
  destruct r; try reflexivity.
  destruct d; try reflexivity.
  destruct s; try reflexivity.
  discriminate.
Qed.

(** One round of the loop on a record whose scores are computed. *)
Lemma collect_rt_step (term : jsstring) (e : RawEmployee)
      (rest : list RawEmployee) (acc : list RawResult) (sc : list number) :
  scores_rt toLowerCase NumberToString term e = Normal sc ->
  collect_rt toLowerCase NumberToString term (e :: rest) acc =
  collect_rt toLowerCase NumberToString term rest
    (if geb (Math_max sc) fuzzyThreshold
     then acc ++ [mkRawResult e (Math_max sc)]
     else acc).
Proof. intros H. cbn [collect_rt]. rewrite H. reflexivity. Qed.

Lemma collect_rt_throw (term : jsstring) (e : RawEmployee)
      (rest : list RawEmployee) (acc : list RawResult) :
  scores_rt toLowerCase NumberToString term e = TypeError ->
  collect_rt toLowerCase NumberToString term (e :: rest) acc = TypeError.
Proof. intros H. cbn [collect_rt]. rewrite H. reflexivity. Qed.

Lemma collect_rt_well_typed (term : jsstring) (l : list RawEmployee)
      (acc : list RawResult) :
  forallb well_typed l = true ->
  exists r, collect_rt toLowerCase NumberToString term l acc = Normal r.
Proof.
  revert acc. induction l as [|e l IH]; intros acc H.
  - now exists acc.
  - cbn [forallb] in H. apply andb_true_iff in H. destruct H as [He Hl].
    destruct (scores_rt_well_typed term e He) as (sc & Hsc).
    rewrite (collect_rt_step term e l acc Hsc). apply IH. exact Hl.
Qed.

Lemma collect_rt_ill_typed (term : jsstring) (l : list RawEmployee)
      (acc : list RawResult) :
  forallb well_typed l = false ->
  collect_rt toLowerCase NumberToString term l acc = TypeError.
Proof.
  revert acc. induction l as [|e l IH]; intros acc H.
  - discriminate.
  - cbn [forallb] in H. destruct (well_typed e) eqn:He.
    + destruct (scores_rt_well_typed term e He) as (sc & Hsc).
      rewrite (collect_rt_step term e l acc Hsc). apply IH. exact H.
    + apply collect_rt_throw. now apply scores_rt_ill_typed.
Qed.

Lemma collect_rt_erase (term : jsstring) (l : list Employee)
      (acc : list RawResult) :
  collect_rt toLowerCase NumberToString term (map erase l) acc =
  Normal (acc ++ map (fun e => mkRawResult (erase e)
                                 (bestScore toLowerCase term e))
                     (filter (kept toLowerCase term) l)).
Proof.
  revert acc. induction l as [|e l IH]; intros acc.
  - cbn [map filter collect_rt]. now rewrite app_nil_r.
  - cbn [map filter].
    rewrite (collect_rt_step term (erase e) (map erase l) acc
               (scores_rt_erase term e)).
    rewrite IH, kept_unfold.
    change (Math_max (scores toLowerCase term e))
      with (bestScore toLowerCase term e).
    destruct (geb (bestScore toLowerCase term e) fuzzyThreshold).
    + cbn [map]. rewrite <- app_assoc. reflexivity.
    + reflexivity.
Qed.

(** On records that have the [Employee] type the run-time model and
    the typed model agree. *)
Lemma searchEmployees_rt_erase (l : list Employee) (q : jsstring) :
  searchEmployees_rt toLowerCase NumberToString (map erase l) q =
  Normal (map erase (searchEmployees toLowerCase l q)).
Proof.
  destruct (trim q) as [|c term] eqn:E.
  - rewrite searchEmployees_passthrough by exact E.
    unfold searchEmployees_rt. now rewrite E.
  - rewrite searchEmployees_ranked by congruence.
    unfold searchEmployees_rt. rewrite E. cbn [truthy negb]. cbv zeta.
    rewrite collect_rt_erase. cbn [bind app].
    rewrite (Array_sort_map
               (fun e => mkRawResult (erase e)
                           (bestScore toLowerCase (c :: term) e))
               (byBestScore toLowerCase (c :: term)) byRawScore);
      [|reflexivity].
    rewrite map_map. reflexivity.
Qed.

Lemma searchEmployees_rt_throws (l : list RawEmployee) (q : jsstring) :
  searchEmployees_rt toLowerCase NumberToString l q = TypeError <->
  trim q <> [] /\ forallb well_typed l = false.
Proof.
  unfold searchEmployees_rt.
  destruct (trim q) as [|c term] eqn:E; cbn [truthy negb]; cbv zeta.
  - split; [discriminate | intros [H _]; congruence].
  - destruct (forallb well_typed l) eqn:W.
    + destruct (collect_rt_well_typed (c :: term) l [] W) as (r & ->).
      cbn [bind]. split; [discriminate | intros [_ H]; discriminate].
    + rewrite collect_rt_ill_typed by exact W. cbn [bind].
      split; [intros _; split; [discriminate | reflexivity] | reflexivity].
Qed.

End RunTimeFacts.

(** ** Worked examples *)

Example score_engr_engineering :
  fuzzyMatchScore toLowerCaseASCII (lit "engr") (lit "engineering")
  = Fin (5870 # 8800)
  /\ tier (lit "engr") (lit "engineering") = OrderedSubsequence.
Proof. split; vm_compute; reflexivity. Qed.

Example score_jon_John :
  fuzzyMatchScore toLowerCaseASCII (lit "jon") (lit "Jon") = Fin 1.0
  /\ tier (lit "jon") (lit "john") = OrderedSubsequence
  /\ fuzzyMatchScore toLowerCaseASCII (lit "jon") (lit "John")
     = Fin (1710 # 2400).
Proof. repeat split; vm_compute; reflexivity. Qed.

Example score_xyz123_manager :
  tier (lit "xyz123") (lit "manager") = EditDistance
  /\ fuzzyMatchScore toLowerCaseASCII (lit "xyz123") (lit "manager") = Fin 0.
Proof. split; vm_compute; reflexivity. Qed.

Example levenshtein_kitten_sitting :
  levenshteinDistance (lit "kitten") (lit "sitting") = 3%nat.
Proof. vm_compute. reflexivity. Qed.

(** A non-zero score below the threshold: 5 of 12 units agree. *)
Example score_below_threshold :
  tier (lit "abcdefghijkl") (lit "abcdemnopqrs") = EditDistance
  /\ exists r, fuzzyMatchScore toLowerCaseASCII (lit "abcdefghijkl")
                 (lit "abcdemnopqrs") = Fin r
               /\ 0.28 < r /\ r < 0.3.
Proof.
  split; [vm_compute; reflexivity|].
  eexists. split; [vm_compute; reflexivity|].
  split; reflexivity.
Qed.

Example rank_sample :
  searchEmployees toLowerCaseASCII staff (lit " jon ") = [jon; john].
Proof. vm_compute. reflexivity. Qed.

(** ** Properties of the specification *)

Lemma subsequenceMatchScore_finite_late (search text : jsstring) :
  search <> [] -> text <> [] ->
  finite (subsequenceMatchScore search text).
Proof.
  intros Hs Ht.
  destruct (Nat.eq_dec
              (searchIndex (subseq_loop search text (mkSubseq 0 0 0)))
              (length search)) as [E | E].
  - apply scan_complete_iff in E.
    rewrite subsequenceMatchScore_complete by assumption. eexists. reflexivity.
  - rewrite subsequenceMatchScore_incomplete; [now exists 0|].
    intros Hsub. apply E. now apply scan_complete_iff.
Qed.

Lemma nonempty_length (A : Type) (l : list A) : l <> [] -> (0 < length l)%nat.
Proof. destruct l; [congruence | simpl; lia]. Qed.

(** C1: for a query whose trimmed form is non-empty, the score of a
    record is the greatest of the seven similarity scores of the trimmed
    query against first name, last name, email, role, department, status
    and the composite "first last", and a record is in the output of
    [searchEmployees] if and only if it is in the input and this score is
    at least 0.3. *)
Theorem searchEmployees_threshold :
  forall (toLowerCase : jsstring -> jsstring)
         (employees : list Employee) (query : jsstring),
    trim query <> [] ->
    forall e : Employee,
    exists r : Q,
      bestScore toLowerCase (trim query) e = Fin r /\
      (exists f, In f (fields e) /\
                 fuzzyMatchScore toLowerCase (trim query) f = Fin r) /\
      (forall f, In f (fields e) ->
                 exists x, fuzzyMatchScore toLowerCase (trim query) f = Fin x /\
                           x <= r) /\
      (In e (searchEmployees toLowerCase employees query) <->
       In e employees /\ 0.3 <= r).
Proof.
  intros toLowerCase employees query Hq e.
  destruct (bestScore_max toLowerCase (trim query) e) as (r & Er & Hin & Hmax).
  exists r. split; [exact Er|].
  assert (Hsc : scores toLowerCase (trim query) e =
                map (fuzzyMatchScore toLowerCase (trim query)) (fields e))
    by reflexivity.
  rewrite Hsc in Hin, Hmax.
  split; [|split].
  - apply in_map_iff in Hin. destruct Hin as (f & Hf & Hin). now exists f.
  - intros f Hf.
    destruct (fuzzyMatchScore_finite toLowerCase (trim query) f) as [x Ex].
    exists x. split; [exact Ex|]. apply Hmax. rewrite <- Ex. now apply in_map.
  - rewrite searchEmployees_ranked by exact Hq.
    assert (Hk : kept toLowerCase (trim query) e = true <-> 0.3 <= r).
    { rewrite kept_iff. unfold recordScore. now rewrite Er. }
    rewrite <- Hk, <- filter_In. split; intros H.
    + eapply Permutation_in; [apply Array_sort_perm | exact H].
    + eapply Permutation_in; [symmetry; apply Array_sort_perm | exact H].
Qed.

Lemma searchEmployees_threshold_witness :
  trim (lit " jon ") <> [] /\
  exists r : Q,
    bestScore toLowerCaseASCII (trim (lit " jon ")) john = Fin r /\
    (exists f, In f (fields john) /\
               fuzzyMatchScore toLowerCaseASCII (trim (lit " jon ")) f = Fin r) /\
    (forall f, In f (fields john) ->
               exists x, fuzzyMatchScore toLowerCaseASCII (trim (lit " jon ")) f
                         = Fin x /\ x <= r) /\
    (In john (searchEmployees toLowerCaseASCII staff (lit " jon ")) <->
     In john staff /\ 0.3 <= r).
Proof.
  assert (H : trim (lit " jon ") <> []) by (vm_compute; discriminate).
  split; [exact H|].
  exact (searchEmployees_threshold toLowerCaseASCII staff (lit " jon ") H john).
Defined.

(** C3: when the query trims to the empty string, [searchEmployees]
    returns the input sequence unchanged: same length, same records, same
    order. *)
Theorem searchEmployees_empty_query :
  forall (toLowerCase : jsstring -> jsstring)
         (employees : list Employee) (query : jsstring),
    trim query = [] ->
    searchEmployees toLowerCase employees query = employees.
Proof.
  intros toLowerCase employees query Hq.
  now apply searchEmployees_passthrough.
Qed.

Lemma searchEmployees_empty_query_witness :
  trim (lit "   ") = [] /\
  searchEmployees toLowerCaseASCII staff (lit "   ") = staff.
Proof.
  assert (H : trim (lit "   ") = []) by (vm_compute; reflexivity).
  split; [exact H|].
  exact (searchEmployees_empty_query toLowerCaseASCII staff (lit "   ") H).
Defined.

(** C4: for all strings, empty ones included, [fuzzyMatchScore] returns
    a finite number of the closed interval [0, 1] (never [NaN] nor an
    infinity), and it divides only by non-zero numbers: either one of the
    first three guards decides the score and no division is performed, or
    both lower-cased strings are non-empty, so that the divisors
    [text.length], [search.length] and [maxLen] are positive and the
    subsequence score is finite. *)
Theorem fuzzyMatchScore_total_bounded :
  forall (toLowerCase : jsstring -> jsstring) (q t : jsstring),
    let search := toLowerCase q in
    let text := toLowerCase t in
    (exists r : Q, fuzzyMatchScore toLowerCase q t = Fin r /\
                   0 <= r /\ r <= 1) /\
    (exact_fires search text || substring_fires search text
       || prefix_fires search text = true
     \/ ((0 < length search)%nat /\ (0 < length text)%nat /\
         (0 < Nat.max (length search) (length text))%nat /\
         finite (subsequenceMatchScore search text))).
Proof.
  intros toLowerCase q t search text. split.
  - destruct (fuzzyMatchScore_range toLowerCase q t) as (r & E & H0 & H1 & _).
    exists r. auto.
  - destruct (exact_fires search text) eqn:E1; [now left|].
    destruct (substring_fires search text) eqn:E2; [now left|].
    destruct (prefix_fires search text) eqn:E3; [now left|].
    right. destruct (early_miss_nonempty _ _ E1 E2 E3) as (Hs & Ht & _).
    pose proof (nonempty_length Hs). pose proof (nonempty_length Ht).
    repeat split; try lia. now apply subsequenceMatchScore_finite_late.
Qed.

(** C5: when the lower-cased query is an ordered subsequence of the
    lower-cased target and none of the exact, substring and prefix guards
    holds, the score is 0.5 + 0.3 * ((|q|/|t| + maxRun/|q|) / 2), where
    maxRun is the longest run of consecutively matched units, and it lies
    strictly above 0.5 and at most at 0.8. *)
Theorem subsequence_tier_score :
  forall (toLowerCase : jsstring -> jsstring) (q t : jsstring),
    let search := toLowerCase q in
    let text := toLowerCase t in
    exact_fires search text = false ->
    substring_fires search text = false ->
    prefix_fires search text = false ->
    Subsequence search text ->
    exists r : Q,
      fuzzyMatchScore toLowerCase q t = Fin r /\
      longest_run (matched search text) (maxRun search text) /\
      r == 0.5 + 0.3 *
             ((inject_Z (Z.of_nat (length search))
               / inject_Z (Z.of_nat (length text))
               + inject_Z (Z.of_nat (maxRun search text))
                 / inject_Z (Z.of_nat (length search))) / 2) /\
      0.5 < r /\ r <= 0.8.
Proof.
  intros toLowerCase q t search text E1 E2 E3 Hsub.
  destruct (early_miss_nonempty _ _ E1 E2 E3) as (Hs & Ht & Hne).
  destruct (subsequenceMatchScore_range Hs Ht Hne Hsub) as (s & Es & H0 & H1).
  pose proof (subsequenceMatchScore_complete Hs Ht Hsub) as Ec.
  rewrite Es in Ec. injection Ec as Ec.
  exists (0.5 + s * 0.3). repeat split.
  - rewrite fuzzyMatchScore_by_tier. fold search text. unfold tier.
    rewrite E1, E2, E3.
    replace (gtb (subsequenceMatchScore search text) (Fin 0)) with true
      by (symmetry; now apply subsequence_guard).
    now rewrite Es.
  - apply maxRun_longest.
  - apply maxRun_longest.
  - rewrite <- Ec. ring.
  - lra.
  - lra.
Qed.

Lemma subsequence_tier_score_witness :
  let search := toLowerCaseASCII (lit "engr") in
  let text := toLowerCaseASCII (lit "Engineering") in
  exact_fires search text = false /\
  substring_fires search text = false /\
  prefix_fires search text = false /\
  Subsequence search text /\
  exists r : Q,
    fuzzyMatchScore toLowerCaseASCII (lit "engr") (lit "Engineering") = Fin r /\
    longest_run (matched search text) (maxRun search text) /\
    r == 0.5 + 0.3 *
           ((inject_Z (Z.of_nat (length search))
             / inject_Z (Z.of_nat (length text))
             + inject_Z (Z.of_nat (maxRun search text))
               / inject_Z (Z.of_nat (length search))) / 2) /\
    0.5 < r /\ r <= 0.8.
Proof.
  intros search text.
  assert (E1 : exact_fires search text = false) by (vm_compute; reflexivity).
  assert (E2 : substring_fires search text = false) by (vm_compute; reflexivity).
  assert (E3 : prefix_fires search text = false) by (vm_compute; reflexivity).
  assert (Hsub : Subsequence search text).
  { vm_compute. repeat (apply Subsequence_take || apply Subsequence_skip
                        || apply Subsequence_nil). }
  repeat (split; [assumption|]).
  exact (subsequence_tier_score toLowerCaseASCII (lit "engr")
           (lit "Engineering") E1 E2 E3 Hsub).
Defined.

(** C6 (as stated, refuted): for a non-empty query the empty target is
    not scored by the edit-distance tier.  With the query "a" the prefix
    guard holds, because the query starts with the empty target, and the
    score is 0.85, whereas the edit-distance tier would give 0. *)
Lemma empty_target_not_edit_distance :
  ~ (forall q : jsstring,
        q <> [] ->
        tier (toLowerCaseASCII q) (toLowerCaseASCII []) = EditDistance /\
        fuzzyMatchScore toLowerCaseASCII q [] =
        editDistanceScore (toLowerCaseASCII q) (toLowerCaseASCII [])).
Proof.
  intros H. destruct (H (lit "a")) as [Ht _]; [discriminate|].
  vm_compute in Ht. discriminate.
Qed.

(** C6 (amended): for every query whose lower-cased form is non-empty,
    the score against the empty target is decided by the prefix tier: the
    exact and substring guards fail, the prefix guard holds because every
    string starts with the empty string, and the result is 0.85; the
    subsequence and edit-distance tiers are not reached, so no division
    is performed. *)
Theorem empty_target_prefix_tier :
  forall (toLowerCase : jsstring -> jsstring) (q : jsstring),
    toLowerCase [] = [] ->
    toLowerCase q <> [] ->
    exact_fires (toLowerCase q) (toLowerCase []) = false /\
    substring_fires (toLowerCase q) (toLowerCase []) = false /\
    prefix_fires (toLowerCase q) (toLowerCase []) = true /\
    tier (toLowerCase q) (toLowerCase []) = Prefix /\
    fuzzyMatchScore toLowerCase q [] = Fin 0.85.
Proof.
  intros toLowerCase q Hnil Hq. rewrite fuzzyMatchScore_by_tier.
  unfold tier. rewrite Hnil.
  destruct (toLowerCase q) as [|c s]; [congruence|].
  repeat split; reflexivity.
Qed.

Lemma empty_target_prefix_tier_witness :
  toLowerCaseASCII [] = [] /\
  toLowerCaseASCII (lit "Q") <> [] /\
  exact_fires (toLowerCaseASCII (lit "Q")) (toLowerCaseASCII []) = false /\
  substring_fires (toLowerCaseASCII (lit "Q")) (toLowerCaseASCII []) = false /\
  prefix_fires (toLowerCaseASCII (lit "Q")) (toLowerCaseASCII []) = true /\
  tier (toLowerCaseASCII (lit "Q")) (toLowerCaseASCII []) = Prefix /\
  fuzzyMatchScore toLowerCaseASCII (lit "Q") [] = Fin 0.85.
Proof.
  assert (H1 : toLowerCaseASCII [] = []) by reflexivity.
  assert (H2 : toLowerCaseASCII (lit "Q") <> []) by (vm_compute; discriminate).
  split; [exact H1|]. split; [exact H2|].
  exact (empty_target_prefix_tier toLowerCaseASCII (lit "Q") H1 H2).
Defined.

(** C7 (as stated, refuted): [searchEmployees] is not total on records
    with a missing field.  On the record [nameless], whose [first_name]
    is missing, the query "roe" makes the call throw a [TypeError]
    instead of ranking the collection. *)
Lemma searchEmployees_rt_not_total :
  ~ (forall (employees : list RawEmployee) (query : jsstring),
        exists out,
          searchEmployees_rt toLowerCaseASCII noDigits employees query
          = Normal out).
Proof.
  intros H. destruct (H [erase jon; nameless] (lit "roe")) as [out E].
  vm_compute in E. discriminate.
Qed.

(** C7 (amended): [searchEmployees] is total on the collections whose
    records hold strings in the six matched fields, and on every
    collection when the query trims to the empty string: on records of
    the [Employee] type it returns the ranking of the typed model, and it
    throws exactly when the trimmed query is non-empty and some record
    has a missing or non-string field among the six. *)
Theorem searchEmployees_rt_total_on_typed :
  forall (toLowerCase : jsstring -> jsstring)
         (NumberToString : number -> jsstring) (query : jsstring),
    (forall typed : list Employee,
        searchEmployees_rt toLowerCase NumberToString (map erase typed) query
        = Normal (map erase (searchEmployees toLowerCase typed query))) /\
    (forall employees : list RawEmployee,
        searchEmployees_rt toLowerCase NumberToString employees query
        = TypeError
        <-> trim query <> [] /\ forallb well_typed employees = false) /\
    (forall employees : list RawEmployee,
        (exists out, searchEmployees_rt toLowerCase NumberToString
                       employees query = Normal out)
        <-> trim query = [] \/ forallb well_typed employees = true).
Proof.
  intros toLowerCase NumberToString query. split; [|split].
  - intros typed. apply searchEmployees_rt_erase.
  - intros employees. apply searchEmployees_rt_throws.
  - intros employees. split.
    + intros [out E].
      destruct (trim query) as [|c term] eqn:Eq; [now left|]. right.
      destruct (forallb well_typed employees) eqn:W; [reflexivity|].
      assert (T : searchEmployees_rt toLowerCase NumberToString employees
                    query = TypeError).
      { apply searchEmployees_rt_throws. rewrite Eq.
        split; [discriminate | exact W]. }
      congruence.
    + intros H.
      destruct (searchEmployees_rt toLowerCase NumberToString employees query)
        as [out|] eqn:E; [now exists out|].
      apply searchEmployees_rt_throws in E. destruct E as [E1 E2].
      destruct H as [H | H]; congruence.
Qed.

(** C8: [searchEmployees] is idempotent: ranking its own output with the
    same query returns that output, same records in the same order. *)
Theorem searchEmployees_idempotent :
  forall (toLowerCase : jsstring -> jsstring)
         (employees : list Employee) (query : jsstring),
    searchEmployees toLowerCase
      (searchEmployees toLowerCase employees query) query
    = searchEmployees toLowerCase employees query.
Proof.
  intros toLowerCase employees query. apply searchEmployees_idem.
Qed.

(** C9: the output of [searchEmployees] is a selection of the input up
    to reordering: it is a permutation of a list obtained from the input
    by erasing records, so that every output record is an input record,
    no record occurs more often in the output than in the input, and the
    output is not longer than the input. *)
Theorem searchEmployees_selection :
  forall (toLowerCase : jsstring -> jsstring)
         (employees : list Employee) (query : jsstring),
    let out := searchEmployees toLowerCase employees query in
    (exists sub, Selection sub employees /\ Permutation out sub) /\
    incl out employees /\
    (length out <= length employees)%nat.
Proof.
  intros toLowerCase employees query out.
  assert (H : exists sub, Selection sub employees /\ Permutation out sub).
  { unfold out. destruct (trim query) as [|c term] eqn:E.
    - rewrite searchEmployees_passthrough by exact E.
      exists employees. split; [apply Selection_refl | reflexivity].
    - rewrite searchEmployees_ranked by congruence.
      exists (filter (kept toLowerCase (trim query)) employees).
      split; [apply filter_Selection | apply Array_sort_perm]. }
  split; [exact H|]. destruct H as (sub & Hsel & Hperm). split.
  - intros e He. eapply Selection_In; [exact Hsel|].
    eapply Permutation_in; eauto.
  - rewrite (Permutation_length Hperm). now apply Selection_length.
Qed.

(** C10: every score is exactly 0 or strictly above 0.28.  The tiers
    yield 1.0, 0.9, 0.85, a value in (0.5, 0.8], and either 0 or 0.7
    times a similarity above 0.4; hence a non-zero score below the
    threshold 0.3 comes from the edit-distance tier and lies strictly
    between 0.28 and 0.3. *)
Theorem fuzzyMatchScore_zero_or_above :
  forall (toLowerCase : jsstring -> jsstring) (q t : jsstring),
    exists r : Q,
      fuzzyMatchScore toLowerCase q t = Fin r /\
      (Fin r = Fin 0 \/ 0.28 < r) /\
      match tier (toLowerCase q) (toLowerCase t) with
      | Exact => r = 1.0
      | Substring => r = 0.9
      | Prefix => r = 0.85
      | OrderedSubsequence => 0.5 < r /\ r <= 0.8
      | EditDistance =>
          Fin r = Fin 0 \/ exists sim, 0.4 < sim /\ r = sim * 0.7
      end /\
      (Fin r = Fin 0 \/ 0.3 <= r \/
       (tier (toLowerCase q) (toLowerCase t) = EditDistance /\
        0.28 < r /\ r < 0.3)).
Proof.
  intros toLowerCase q t.
  pose proof (score_profile toLowerCase q t) as P. cbv zeta in P.
  destruct (tier (toLowerCase q) (toLowerCase t)).
  - exists 1.0. rewrite P.
    split; [reflexivity|]. split; [right; lra|].
    split; [reflexivity|]. right. left. lra.
  - exists 0.9. rewrite P.
    split; [reflexivity|]. split; [right; lra|].
    split; [reflexivity|]. right. left. lra.
  - exists 0.85. rewrite P.
    split; [reflexivity|]. split; [right; lra|].
    split; [reflexivity|]. right. left. lra.
  - destruct P as (_ & s & _ & H0 & H1 & ->).
    exists (0.5 + s * 0.3).
    split; [reflexivity|]. split; [right; lra|].
    split; [split; lra|]. right. left. lra.
  - destruct P as [-> | (sim & -> & H0 & H1)].
    + exists 0. split; [reflexivity|]. split; [now left|].
      split; now left.
    + exists (sim * 0.7). split; [reflexivity|]. split; [right; lra|].
      split; [right; now exists sim|].
      right. destruct (Qlt_le_dec (sim * 0.7) 0.3) as [Hlt | Hge].
      * right. split; [reflexivity|]. split; [lra | exact Hlt].
      * now left.
Qed.

(** ** The edit distance *)

Lemma lev_nil_r (s : jsstring) : lev s [] = length s.
Proof. destruct s; reflexivity. Qed.

Lemma lev_cons (c d : N) (s t : jsstring) :
  lev (c :: s) (d :: t) =
  if N.eqb c d then lev s t
  else (1 + Nat.min (lev s (d :: t)) (Nat.min (lev (c :: s) t) (lev s t)))%nat.
Proof. reflexivity. Qed.

Lemma lev_refl (s : jsstring) : lev s s = 0%nat.
Proof.
  induction s as [|c s IH]; [reflexivity|].
  rewrite lev_cons, N.eqb_refl. exact IH.
Qed.

Lemma lev_sym (s t : jsstring) : lev s t = lev t s.
Proof.
  revert t. induction s as [|c s IHs]; intros t.
  - now rewrite lev_nil_r.
  - induction t as [|d t IHt]; [reflexivity|].
    rewrite !lev_cons, (N.eqb_sym d c), IHt, !IHs.
    destruct (N.eqb c d); [reflexivity | lia].
Qed.

Lemma lev_bounds (s t : jsstring) :
  (length s - length t <= lev s t /\ length t - length s <= lev s t /\
   lev s t <= Nat.max (length s) (length t))%nat.
Proof.
  revert t. induction s as [|c s IHs]; intros t.
  - simpl. lia.
  - induction t as [|d t IHt]; [simpl; lia|].
    rewrite lev_cons. pose proof (IHs t). pose proof (IHs (d :: t)).
    cbn [length] in *. destruct (N.eqb c d); lia.
Qed.

Lemma lev_zero (s t : jsstring) : lev s t = 0%nat -> s = t.
Proof.
  revert t. induction s as [|c s IHs]; intros t.
  - simpl. destruct t; [reflexivity | discriminate].
  - destruct t as [|d t]; [discriminate|].
    rewrite lev_cons. destruct (N.eqb_spec c d) as [-> | Hne].
    + intros H. f_equal. now apply IHs.
    + discriminate.
Qed.

(** *** The matrix of [levenshteinDistance] *)

Lemma list_set_length (A : Type) (i : nat) (v : A) (l : list A) :
  length (list_set i v l) = length l.
Proof.
  revert i. induction l as [|x l IH]; intros [|i]; simpl; auto.
Qed.

Lemma list_set_nth_same (A : Type) (i : nat) (v d : A) (l : list A) :
  (i < length l)%nat -> nth i (list_set i v l) d = v.
Proof.
  revert i. induction l as [|x l IH]; intros [|i] H; simpl in *; try lia.
  - reflexivity.
  - apply IH. lia.
Qed.

Lemma list_set_nth_other (A : Type) (i k : nat) (v d : A) (l : list A) :
  k <> i -> nth k (list_set i v l) d = nth k l d.
Proof.
  revert i k. induction l as [|x l IH]; intros [|i] [|k] H; simpl;
    try reflexivity; try lia.
  apply IH. lia.
Qed.

Lemma list_set_Forall (A : Type) (P : A -> Prop) (i : nat) (v : A) (l : list A) :
  P v -> Forall P l -> Forall P (list_set i v l).
Proof.
  intros Hv Hl. revert i. induction Hl as [|x l Hx Hl IH]; intros [|i]; simpl;
    constructor; auto.
Qed.

Lemma shape_row (rows cols : nat) (dp : matrix) (i : nat) :
  shape rows cols dp -> (i < rows)%nat -> length (nth i dp []) = cols.
Proof.
  intros [Hr Hc] Hi. rewrite Forall_forall in Hc. apply Hc.
  apply nth_In. lia.
Qed.

Lemma mset_shape (rows cols : nat) (dp : matrix) (i j v : nat) :
  shape rows cols dp -> (i < rows)%nat -> shape rows cols (mset dp i j v).
Proof.
  intros Hs Hi. pose proof (shape_row Hs Hi) as Hrow.
  destruct Hs as [Hr Hc]. split.
  - unfold mset. now rewrite list_set_length.
  - unfold mset. apply list_set_Forall; [|exact Hc].
    now rewrite list_set_length.
Qed.

Lemma mget_mset_same (rows cols : nat) (dp : matrix) (i j v : nat) :
  shape rows cols dp -> (i < rows)%nat -> (j < cols)%nat ->
  mget (mset dp i j v) i j = v.
Proof.
  intros Hs Hi Hj. pose proof (shape_row Hs Hi) as Hrow.
  destruct Hs as [Hr Hc]. unfold mget, mset.
  rewrite list_set_nth_same by lia. apply list_set_nth_same. lia.
Qed.

Lemma mget_mset_other (rows cols : nat) (dp : matrix) (i j v i' j' : nat) :
  shape rows cols dp -> (i < rows)%nat ->
  i' <> i \/ j' <> j ->
  mget (mset dp i j v) i' j' = mget dp i' j'.
Proof.
  intros [Hr Hc] Hi H. unfold mget, mset.
  destruct (Nat.eq_dec i' i) as [-> | Hne].
  - rewrite list_set_nth_same by lia.
    apply list_set_nth_other. destruct H; congruence.
  - now rewrite list_set_nth_other.
Qed.

Lemma shape_init (rows cols : nat) :
  shape rows cols (repeat (repeat 0%nat cols) rows).
Proof.
  split; [apply repeat_length|].
  apply Forall_forall. intros r Hr. apply repeat_spec in Hr. subst.
  apply repeat_length.
Qed.

(** A loop over a range of indices keeps an invariant indexed by the
    next index. *)
Lemma fold_left_seq_inv (S : Type) (f : S -> nat -> S)
      (Inv : nat -> S -> Prop) (k a : nat) (st : S) :
  Inv a st ->
  (forall x st, (a <= x < a + k)%nat -> Inv x st -> Inv (Datatypes.S x) (f st x)) ->
  Inv (a + k)%nat (fold_left f (seq a k) st).
Proof.
  revert a st. induction k as [|k IH]; intros a st H0 Hstep; simpl.
  - now rewrite Nat.add_0_r.
  - replace (a + Datatypes.S k)%nat with (Datatypes.S a + k)%nat by lia.
    apply IH.
    + apply Hstep; [lia | exact H0].
    + intros x st' Hx. apply Hstep. lia.
Qed.


Lemma firstn_snoc (s : jsstring) (i : nat) :
  (i < length s)%nat ->
  exists c, nth_error s i = Some c /\ firstn (S i) s = firstn i s ++ [c].
Proof.
  revert i. induction s as [|x s IH]; intros i H; simpl in H; [lia|].
  destruct i as [|i].
  - exists x. split; reflexivity.
  - destruct (IH i) as (c & Hc & Hf); [lia|].
    exists c. split; [exact Hc|].
    change (firstn (S (S i)) (x :: s)) with (x :: firstn (S i) s).
    rewrite Hf. reflexivity.
Qed.

Lemma prefixLev_col (str1 str2 : jsstring) (i : nat) :
  (i <= length str1)%nat -> prefixLev str1 str2 i 0 = i.
Proof.
  intros H. unfold prefixLev. cbn [firstn rev].
  rewrite lev_nil_r, length_rev, length_firstn. lia.
Qed.

Lemma prefixLev_row (str1 str2 : jsstring) (j : nat) :
  (j <= length str2)%nat -> prefixLev str1 str2 0 j = j.
Proof.
  intros H. unfold prefixLev. cbn [firstn rev lev].
  rewrite length_rev, length_firstn. lia.
Qed.

(** The recurrence the loops implement. *)
Lemma prefixLev_step (str1 str2 : jsstring) (i j : nat) :
  (i < length str1)%nat -> (j < length str2)%nat ->
  prefixLev str1 str2 (S i) (S j) =
  if unit_eqb (nth_error str1 i) (nth_error str2 j)
  then prefixLev str1 str2 i j
  else (1 + Nat.min (prefixLev str1 str2 i (S j))
                    (Nat.min (prefixLev str1 str2 (S i) j)
                             (prefixLev str1 str2 i j)))%nat.
Proof.
  intros Hi Hj.
  destruct (firstn_snoc str1 Hi) as (c & Hc & Hfc).
  destruct (firstn_snoc str2 Hj) as (d & Hd & Hfd).
  unfold prefixLev. rewrite Hfc, Hfd, Hc, Hd, !rev_app_distr.
  cbn [rev app unit_eqb]. apply lev_cons.
Qed.

Lemma prefixLev_cell (str1 str2 : jsstring) (i j : nat) :
  (1 <= i <= length str1)%nat -> (1 <= j <= length str2)%nat ->
  prefixLev str1 str2 i j =
  if unit_eqb (nth_error str1 (i - 1)) (nth_error str2 (j - 1))
  then prefixLev str1 str2 (i - 1) (j - 1)
  else (1 + Nat.min (prefixLev str1 str2 (i - 1) j)
                    (Nat.min (prefixLev str1 str2 i (j - 1))
                             (prefixLev str1 str2 (i - 1) (j - 1))))%nat.
Proof.
  intros Hi Hj. destruct i as [|i]; [lia|]. destruct j as [|j]; [lia|].
  replace (S i - 1)%nat with i by lia. replace (S j - 1)%nat with j by lia.
  apply prefixLev_step; lia.
Qed.

Lemma prefixLev_full (str1 str2 : jsstring) :
  prefixLev str1 str2 (length str1) (length str2) = lev (rev str1) (rev str2).
Proof. unfold prefixLev. now rewrite !firstn_all. Qed.

Lemma dp_ok_mset (str1 str2 : jsstring) (i j i2 j2 v : nat) (dp : matrix) :
  dp_ok str1 str2 i j dp ->
  (i <= length str1)%nat -> (j <= length str2)%nat ->
  v = prefixLev str1 str2 i j ->
  (forall i' j', filled i2 j2 i' j' -> filled i j i' j' \/ (i' = i /\ j' = j)) ->
  dp_ok str1 str2 i2 j2 (mset dp i j v).
Proof.
  intros [Hs Hc] Hi Hj Hv Hnext. split.
  - apply mset_shape; [exact Hs | lia].
  - intros i' j' Hi' Hj' Hf.
    assert (Hsame : mget (mset dp i j v) i j = v).
    { apply (@mget_mset_same (length str1 + 1) (length str2 + 1));
        [exact Hs | lia | lia]. }
    destruct (Hnext i' j' Hf) as [Hold | [-> ->]];
      [|now rewrite Hsame].
    destruct (Nat.eq_dec i' i) as [Ei | Ei];
      [destruct (Nat.eq_dec j' j) as [Ej | Ej]|].
    + subst. now rewrite Hsame.
    + rewrite (@mget_mset_other (length str1 + 1) (length str2 + 1));
        [now apply Hc | exact Hs | lia | now right].
    + rewrite (@mget_mset_other (length str1 + 1) (length str2 + 1));
        [now apply Hc | exact Hs | lia | now left].
Qed.

(** The three loops of [levenshteinDistance] fill the matrix with the
    edit distances of the prefixes. *)
Lemma levenshteinDistance_lev (str1 str2 : jsstring) :
  levenshteinDistance str1 str2 = lev (rev str1) (rev str2).
Proof.
  unfold levenshteinDistance. cbv zeta.
  set (m := length str1). set (n := length str2).
  set (dp0 := repeat (repeat 0%nat (n + 1)) (m + 1)).
  (* first column *)
  set (dp1 := fold_left (fun dp i => mset dp i 0 i) (seq 0 (m + 1)) dp0).
  assert (H1 : shape (m + 1) (n + 1) dp1 /\
               forall i', (i' < m + 1)%nat -> mget dp1 i' 0 = i').
  { pose proof (@fold_left_seq_inv matrix (fun dp i => mset dp i 0 i)
                  (fun x dp => shape (m + 1) (n + 1) dp /\
                               forall i', (i' < x)%nat -> mget dp i' 0 = i')
                  (m + 1) 0 dp0) as F.
    apply F; clear F.
    - split; [apply shape_init | intros i' Hi'; lia].
    - intros x dp Hx [Hs Hc]. split; [apply mset_shape; [exact Hs | lia]|].
      intros i' Hi'. destruct (Nat.eq_dec i' x) as [-> | Hne].
      + apply (@mget_mset_same (m + 1) (n + 1)); [exact Hs | lia | lia].
      + rewrite (@mget_mset_other (m + 1) (n + 1));
          [apply Hc; lia | exact Hs | lia | now left]. }
  (* first row *)
  set (dp2 := fold_left (fun dp j => mset dp 0 j j) (seq 0 (n + 1)) dp1).
  assert (H2 : dp_ok str1 str2 1 1 dp2).
  { pose proof (@fold_left_seq_inv matrix (fun dp j => mset dp 0 j j)
                  (fun x dp => shape (m + 1) (n + 1) dp /\
                               (forall i', (i' < m + 1)%nat -> mget dp i' 0 = i') /\
                               forall j', (j' < x)%nat -> mget dp 0 j' = j')
                  (n + 1) 0 dp1) as F.
    destruct F as (Hs & Hcol & Hrow).
    - destruct H1 as [Hs Hc]. split; [exact Hs|]. split; [exact Hc|].
      intros j' Hj'. lia.
    - intros x dp Hx (Hs & Hcol & Hrow).
      split; [apply mset_shape; [exact Hs | lia]|]. split.
      + intros i' Hi'. destruct (Nat.eq_dec i' 0) as [-> | Hne].
        * destruct (Nat.eq_dec x 0) as [-> | Hx0].
          -- apply (@mget_mset_same (m + 1) (n + 1)); [exact Hs | lia | lia].
          -- rewrite (@mget_mset_other (m + 1) (n + 1));
               [apply Hcol; lia | exact Hs | lia | right; lia].
        * rewrite (@mget_mset_other (m + 1) (n + 1));
            [apply Hcol; lia | exact Hs | lia | now left].
      + intros j' Hj'. destruct (Nat.eq_dec j' x) as [-> | Hne].
        * apply (@mget_mset_same (m + 1) (n + 1)); [exact Hs | lia | lia].
        * rewrite (@mget_mset_other (m + 1) (n + 1));
            [apply Hrow; lia | exact Hs | lia | now right].
    - split; [exact Hs|]. intros i' j' Hi' Hj' Hf. unfold filled in Hf.
      assert (Hz : i' = 0%nat \/ j' = 0%nat) by lia.
      destruct Hz as [-> | ->].
      + rewrite prefixLev_row by exact Hj'. apply Hrow. fold n in Hj'. lia.
      + rewrite prefixLev_col by exact Hi'. apply Hcol. fold m in Hi'. lia. }
  (* the other cells, row by row *)
  pose proof (@fold_left_seq_inv matrix
                (fun dp i =>
                   fold_left (fun dp j =>
                     if unit_eqb (nth_error str1 (i - 1)) (nth_error str2 (j - 1))
                     then mset dp i j (mget dp (i - 1) (j - 1))
                     else mset dp i j
                            (1 + Nat.min (mget dp (i - 1) j)
                                   (Nat.min (mget dp i (j - 1))
                                            (mget dp (i - 1) (j - 1)))))
                     (seq 1 n) dp)
                (fun x dp => dp_ok str1 str2 x 1 dp) m 1 dp2 H2) as F3.
  match type of F3 with
  | ?P -> _ => assert (Hstep : P); [clear F3 | specialize (F3 Hstep)]
  end.
  { intros i dp Hi Hrow.
    pose proof (@fold_left_seq_inv matrix
                  (fun dp j =>
                     if unit_eqb (nth_error str1 (i - 1)) (nth_error str2 (j - 1))
                     then mset dp i j (mget dp (i - 1) (j - 1))
                     else mset dp i j
                            (1 + Nat.min (mget dp (i - 1) j)
                                   (Nat.min (mget dp i (j - 1))
                                            (mget dp (i - 1) (j - 1)))))
                  (fun x dp => dp_ok str1 str2 i x dp) n 1 dp Hrow) as F.
    match type of F with
    | ?P -> _ => assert (Hcell : P); [clear F | specialize (F Hcell)]
    end.
    - intros j dp' Hj Hok.
      assert (Hv : (if unit_eqb (nth_error str1 (i - 1)) (nth_error str2 (j - 1))
                    then mget dp' (i - 1) (j - 1)
                    else 1 + Nat.min (mget dp' (i - 1) j)
                               (Nat.min (mget dp' i (j - 1))
                                        (mget dp' (i - 1) (j - 1))))%nat
                   = prefixLev str1 str2 i j).
      { destruct Hok as [_ Hc].
        rewrite !Hc by (unfold filled; fold m n; lia).
        symmetry. apply prefixLev_cell; fold m n; lia. }
      assert (Hnext : forall i' j', filled i (S j) i' j' ->
                                    filled i j i' j' \/ (i' = i /\ j' = j))
        by (unfold filled; intros; lia).
      destruct (unit_eqb (nth_error str1 (i - 1)) (nth_error str2 (j - 1)));
        apply (dp_ok_mset Hok); try exact Hnext; try exact Hv; fold m n; lia.
    - destruct F as [Hs Hc]. split; [exact Hs|].
      intros i' j' Hi' Hj' Hf. apply Hc; [exact Hi' | exact Hj'|].
      unfold filled in *. fold n in Hj'. lia. }
  destruct F3 as [_ Hc]. rewrite <- prefixLev_full. apply Hc.
  - reflexivity.
  - reflexivity.
  - unfold filled. fold m. lia.
Qed.


(** *** Edit scripts *)

Lemma Edits_all_delete (s : jsstring) : Edits s [] (length s).
Proof. induction s; simpl; now constructor. Qed.

Lemma Edits_all_insert (t : jsstring) : Edits [] t (length t).
Proof. induction t; simpl; now constructor. Qed.

(** The recurrence is reached by an edit script. *)
Lemma lev_Edits (s t : jsstring) : Edits s t (lev s t).
Proof.
  revert t. induction s as [|c s IHs]; intros t.
  - apply Edits_all_insert.
  - induction t as [|d t IHt]; [apply (Edits_all_delete (c :: s))|].
    rewrite lev_cons. destruct (N.eqb_spec c d) as [-> | Hne].
    + constructor. apply IHs.
    + destruct (Nat.min_spec (lev s (d :: t))
                  (Nat.min (lev (c :: s) t) (lev s t))) as [[_ ->] | [_ ->]].
      * apply Edits_delete. apply IHs.
      * destruct (Nat.min_spec (lev (c :: s) t) (lev s t))
          as [[_ ->] | [_ ->]].
        -- apply Edits_insert. exact IHt.
        -- apply Edits_replace. apply IHs.
Qed.

(** Dropping the first unit of either string changes the recurrence by
    one at most. *)
Lemma lev_drop (k : nat) :
  forall s t, (length s + length t <= k)%nat ->
    (forall c, lev s t <= 1 + lev (c :: s) t)%nat /\
    (forall c, lev (c :: s) t <= 1 + lev s t)%nat.
Proof.
  induction k as [|k IH]; intros s t Hk.
  - destruct s; [|simpl in Hk; lia]. destruct t; [|simpl in Hk; lia].
    split; intros c; simpl; lia.
  - split; intros c.
    + destruct t as [|d t]; [rewrite !lev_nil_r; simpl; lia|].
      rewrite (lev_cons c d).
      assert (Hs : (length s + length t <= k)%nat) by (simpl in Hk; lia).
      assert (Ht : (length t + length s <= k)%nat) by lia.
      destruct (IH s t Hs) as [A1 _]. destruct (IH t s Ht) as [_ C1].
      specialize (C1 d). rewrite (lev_sym (d :: t) s), (lev_sym t s) in C1.
      specialize (A1 c). destruct (N.eqb c d); lia.
    + destruct t as [|d t]; [rewrite !lev_nil_r; simpl; lia|].
      rewrite (lev_cons c d).
      assert (Ht : (length t + length s <= k)%nat) by (simpl in Hk; lia).
      destruct (IH t s Ht) as [A1 _].
      specialize (A1 d). rewrite (lev_sym (d :: t) s), (lev_sym t s) in A1.
      destruct (N.eqb c d); lia.
Qed.

Lemma lev_delete (c : N) (s t : jsstring) :
  (lev (c :: s) t <= 1 + lev s t)%nat.
Proof. apply (proj2 (@lev_drop _ s t (Nat.le_refl _))). Qed.

Lemma lev_insert (d : N) (s t : jsstring) :
  (lev s (d :: t) <= 1 + lev s t)%nat.
Proof. rewrite (lev_sym s (d :: t)), (lev_sym s t). apply lev_delete. Qed.

(** No edit script is shorter than the recurrence. *)
Lemma Edits_lev (s t : jsstring) (k : nat) : Edits s t k -> (lev s t <= k)%nat.
Proof.
  induction 1 as [|c s t k H IH|c d s t k H IH|c s t k H IH|d s t k H IH].
  - reflexivity.
  - now rewrite lev_cons, N.eqb_refl.
  - rewrite lev_cons. destruct (N.eqb c d); lia.
  - pose proof (lev_delete c s t). lia.
  - pose proof (lev_insert d s t). lia.
Qed.

(** Edit scripts can be read from the ends of the strings. *)
Lemma Edits_snoc_keep (c : N) (s t : jsstring) (k : nat) :
  Edits s t k -> Edits (s ++ [c]) (t ++ [c]) k.
Proof.
  induction 1; simpl; try (now constructor).
  apply Edits_keep. constructor.
Qed.

Lemma Edits_snoc_replace (c d : N) (s t : jsstring) (k : nat) :
  Edits s t k -> Edits (s ++ [c]) (t ++ [d]) (S k).
Proof.
  induction 1; simpl; try (now constructor).
  apply Edits_replace. constructor.
Qed.

Lemma Edits_snoc_delete (c : N) (s t : jsstring) (k : nat) :
  Edits s t k -> Edits (s ++ [c]) t (S k).
Proof.
  induction 1; simpl; try (now constructor).
  apply Edits_delete. constructor.
Qed.

Lemma Edits_snoc_insert (d : N) (s t : jsstring) (k : nat) :
  Edits s t k -> Edits s (t ++ [d]) (S k).
Proof.
  induction 1; simpl; try (now constructor).
  apply Edits_insert. constructor.
Qed.

Lemma Edits_rev (s t : jsstring) (k : nat) :
  Edits s t k -> Edits (rev s) (rev t) k.
Proof.
  induction 1; simpl.
  - constructor.
  - now apply Edits_snoc_keep.
  - now apply Edits_snoc_replace.
  - now apply Edits_snoc_delete.
  - now apply Edits_snoc_insert.
Qed.

Lemma levenshteinDistance_Edits (str1 str2 : jsstring) :
  Edits str1 str2 (levenshteinDistance str1 str2).
Proof.
  rewrite levenshteinDistance_lev.
  rewrite <- (rev_involutive str1) at 1. rewrite <- (rev_involutive str2) at 1.
  apply Edits_rev. apply lev_Edits.
Qed.

Lemma levenshteinDistance_least (str1 str2 : jsstring) (k : nat) :
  Edits str1 str2 k -> (levenshteinDistance str1 str2 <= k)%nat.
Proof.
  intros H. rewrite levenshteinDistance_lev. apply Edits_lev.
  now apply Edits_rev.
Qed.


(** *** Edit scripts compose *)

Lemma Edits_compose (t u : jsstring) (b : nat) :
  Edits t u b ->
  forall s a, Edits s t a -> exists k, (k <= a + b)%nat /\ Edits s u k.
Proof.
  induction 1 as [|c t u b H2 IH2|c d t u b H2 IH2|c t u b H2 IH2|d t u b H2 IH2];
    intros s a H1.
  - exists a. split; [lia | exact H1].
  - (* the second script keeps [c] *)
    remember (c :: t) as ct eqn:E. revert E.
    induction H1 as [|c' s' t' a' H1 IH1|c' d' s' t' a' H1 IH1
                     |c' s' t' a' H1 IH1|d' s' t' a' H1 IH1]; intros E.
    + discriminate.
    + injection E as -> ->. destruct (IH2 _ _ H1) as (k & Hk & Hs).
      exists k. split; [lia | now constructor].
    + injection E as -> ->. destruct (IH2 _ _ H1) as (k & Hk & Hs).
      exists (S k). split; [lia | now constructor].
    + destruct (IH1 E) as (k & Hk & Hs).
      exists (S k). split; [lia | now constructor].
    + injection E as -> ->. destruct (IH2 _ _ H1) as (k & Hk & Hs).
      exists (S k). split; [lia | now constructor].
  - (* the second script replaces [c] by [d] *)
    remember (c :: t) as ct eqn:E. revert E.
    induction H1 as [|c' s' t' a' H1 IH1|c' d' s' t' a' H1 IH1
                     |c' s' t' a' H1 IH1|d' s' t' a' H1 IH1]; intros E.
    + discriminate.
    + injection E as -> ->. destruct (IH2 _ _ H1) as (k & Hk & Hs).
      exists (S k). split; [lia | now constructor].
    + injection E as -> ->. destruct (IH2 _ _ H1) as (k & Hk & Hs).
      exists (S k). split; [lia | now constructor].
    + destruct (IH1 E) as (k & Hk & Hs).
      exists (S k). split; [lia | now constructor].
    + injection E as -> ->. destruct (IH2 _ _ H1) as (k & Hk & Hs).
      exists (S k). split; [lia | now constructor].
  - (* the second script deletes [c] *)
    remember (c :: t) as ct eqn:E. revert E.
    induction H1 as [|c' s' t' a' H1 IH1|c' d' s' t' a' H1 IH1
                     |c' s' t' a' H1 IH1|d' s' t' a' H1 IH1]; intros E.
    + discriminate.
    + injection E as -> ->. destruct (IH2 _ _ H1) as (k & Hk & Hs).
      exists (S k). split; [lia | now constructor].
    + injection E as -> ->. destruct (IH2 _ _ H1) as (k & Hk & Hs).
      exists (S k). split; [lia | now constructor].
    + destruct (IH1 E) as (k & Hk & Hs).
      exists (S k). split; [lia | now constructor].
    + injection E as -> ->. destruct (IH2 _ _ H1) as (k & Hk & Hs).
      exists k. split; [lia | exact Hs].
  - destruct (IH2 _ _ H1) as (k & Hk & Hs).
    exists (S k). split; [lia | now constructor].
Qed.

Lemma levenshteinDistance_triangle_aux (s t u : jsstring) :
  (levenshteinDistance s u <=
   levenshteinDistance s t + levenshteinDistance t u)%nat.
Proof.
  destruct (Edits_compose (levenshteinDistance_Edits t u)
                          (levenshteinDistance_Edits s t)) as (k & Hk & Hs).
  pose proof (levenshteinDistance_least Hs). lia.
Qed.


(** ** More on the tiers *)

Lemma Fin_eq_Qeq (a b : Q) : Fin a = Fin b -> a == b.
Proof. intros H. injection H as ->. reflexivity. Qed.

Lemma tier_Exact_iff (search text : jsstring) :
  tier search text = Exact <-> search = text.
Proof.
  unfold tier, exact_fires. split.
  - destruct (str_eqb text search) eqn:E.
    + intros _. symmetry. now apply str_eqb_eq.
    + destruct (substring_fires search text); [discriminate|].
      destruct (prefix_fires search text); [discriminate|].
      destruct (gtb _ _); discriminate.
  - intros ->. now rewrite str_eqb_refl.
Qed.

Lemma tier_Substring_iff (search text : jsstring) :
  tier search text = Substring <->
  search <> text /\ exists l r, text = l ++ search ++ r.
Proof.
  unfold tier, exact_fires, substring_fires. split.
  - destruct (str_eqb text search) eqn:E; [discriminate|].
    destruct (includes text search) eqn:I.
    + intros _. split.
      * intros ->. rewrite str_eqb_refl in E. discriminate.
      * now apply includes_app.
    + destruct (prefix_fires search text); [discriminate|].
      destruct (gtb _ _); discriminate.
  - intros [Hne Hin]. apply includes_app in Hin. rewrite Hin.
    destruct (str_eqb text search) eqn:E; [|reflexivity].
    apply str_eqb_eq in E. congruence.
Qed.

(** The third tier decides only when the target is a proper prefix of
    the query: a target that starts with the query also includes it. *)
Lemma tier_Prefix_iff (search text : jsstring) :
  tier search text = Prefix <->
  exists r, r <> [] /\ search = text ++ r.
Proof.
  unfold tier, exact_fires, substring_fires, prefix_fires. split.
  - destruct (str_eqb text search) eqn:E; [discriminate|].
    destruct (includes text search) eqn:I; [discriminate|].
    destruct (startsWith text search) eqn:P1.
    { apply startsWith_app in P1. destruct P1 as [r ->].
      assert (includes (search ++ r) search = true)
        by (apply includes_app; now exists [], r).
      congruence. }
    destruct (startsWith search text) eqn:P2; cbn [orb].
    + intros _. apply startsWith_app in P2. destruct P2 as [r ->].
      exists r. split; [|reflexivity]. intros ->.
      rewrite app_nil_r, str_eqb_refl in E. discriminate.
    + destruct (gtb _ _); discriminate.
  - intros (r & Hr & ->).
    assert (Hlen : (length text < length (text ++ r))%nat).
    { rewrite length_app. destruct r; [congruence | simpl; lia]. }
    destruct (str_eqb text (text ++ r)) eqn:E.
    { apply str_eqb_eq in E. rewrite <- E in Hlen. lia. }
    destruct (includes text (text ++ r)) eqn:I.
    { apply includes_app in I. destruct I as (l & r' & I).
      apply (f_equal (@length N)) in I. rewrite !length_app in I.
      rewrite length_app in Hlen. lia. }
    assert (P2 : startsWith (text ++ r) text = true)
      by (apply startsWith_app; now exists r).
    rewrite P2, orb_true_r. reflexivity.
Qed.

Lemma tier_late (search text : jsstring) :
  tier search text = OrderedSubsequence \/ tier search text = EditDistance ->
  exact_fires search text = false /\ substring_fires search text = false /\
  prefix_fires search text = false.
Proof.
  unfold tier.
  destruct (exact_fires search text); [intros [H | H]; discriminate|].
  destruct (substring_fires search text); [intros [H | H]; discriminate|].
  destruct (prefix_fires search text); [intros [H | H]; discriminate|].
  auto.
Qed.

Lemma tier_EditDistance_iff (search text : jsstring) :
  tier search text = EditDistance <->
  exact_fires search text = false /\ substring_fires search text = false /\
  prefix_fires search text = false /\ ~ Subsequence search text.
Proof.
  split.
  - intros H. destruct (tier_late search text (or_intror H)) as (E1 & E2 & E3).
    repeat (split; [assumption|]).
    destruct (early_miss_nonempty _ _ E1 E2 E3) as (Hs & Ht & Hne).
    intros Hsub. apply (subsequence_guard Hs Ht Hne) in Hsub.
    unfold tier in H. rewrite E1, E2, E3, Hsub in H. discriminate.
  - intros (E1 & E2 & E3 & Hsub). unfold tier. rewrite E1, E2, E3.
    rewrite subsequenceMatchScore_incomplete by exact Hsub. reflexivity.
Qed.

Section ScoreValues.

Variable toLowerCase : jsstring -> jsstring.

(** Which tier gave a score can be read from the score. *)
Lemma score_tier (q t : jsstring) (v : Q) :
  0.8 < v ->
  fuzzyMatchScore toLowerCase q t = Fin v ->
  match tier (toLowerCase q) (toLowerCase t) with
  | Exact => v = 1.0
  | Substring => v = 0.9
  | Prefix => v = 0.85
  | _ => False
  end.
Proof.
  intros Hv E. pose proof (score_profile toLowerCase q t) as P.
  cbv zeta in P. rewrite E in P.
  destruct (tier (toLowerCase q) (toLowerCase t)).
  - now injection P.
  - now injection P.
  - now injection P.
  - destruct P as (_ & s & _ & H0 & H1 & P). apply Fin_eq_Qeq in P. lra.
  - destruct P as [P | (sim & P & H0 & H1)]; apply Fin_eq_Qeq in P; lra.
Qed.

Lemma score_of_tier (q t : jsstring) :
  match tier (toLowerCase q) (toLowerCase t) with
  | Exact => fuzzyMatchScore toLowerCase q t = Fin 1.0
  | Substring => fuzzyMatchScore toLowerCase q t = Fin 0.9
  | Prefix => fuzzyMatchScore toLowerCase q t = Fin 0.85
  | _ => True
  end.
Proof.
  pose proof (score_profile toLowerCase q t) as P. cbv zeta in P.
  destruct (tier (toLowerCase q) (toLowerCase t)); auto.
Qed.

(** A query that is an ordered subsequence of the target, or that starts
    with the target, scores above one half. *)
Lemma score_match (q t : jsstring) :
  Subsequence (toLowerCase q) (toLowerCase t) \/
  startsWith (toLowerCase q) (toLowerCase t) = true ->
  exists r, fuzzyMatchScore toLowerCase q t = Fin r /\ 0.5 < r.
Proof.
  intros H. pose proof (score_profile toLowerCase q t) as P. cbv zeta in P.
  destruct (tier (toLowerCase q) (toLowerCase t)) eqn:T.
  - exists 1.0. split; [exact P | lra].
  - exists 0.9. split; [exact P | lra].
  - exists 0.85. split; [exact P | lra].
  - destruct P as (_ & s & _ & H0 & H1 & P).
    exists (0.5 + s * 0.3). split; [exact P | lra].
  - exfalso. apply tier_EditDistance_iff in T.
    destruct T as (_ & _ & E3 & Hsub). destruct H as [H | H]; [tauto|].
    unfold prefix_fires in E3. rewrite H, orb_true_r in E3. discriminate.
Qed.

End ScoreValues.

(** ** [subsequenceMatchScore] on its own *)

Lemma subsequenceMatchScore_empty_search (text : jsstring) :
  subsequenceMatchScore [] text = NaN.
Proof.
  unfold subsequenceMatchScore. cbv zeta.
  assert (E : subseq_loop [] text (mkSubseq 0 0 0) = mkSubseq 0 0 0)
    by (destruct text; reflexivity).
  rewrite E. cbn [searchIndex maxConsecutive length Nat.eqb].
  destruct (div (of_nat 0) (of_nat (length text))); reflexivity.
Qed.

Lemma subsequenceMatchScore_nonempty_search (search text : jsstring) :
  search <> [] ->
  exists r, subsequenceMatchScore search text = Fin r /\
            0 <= r /\ r <= 1 /\ (0 < r <-> Subsequence search text).
Proof.
  intros Hs.
  destruct (Nat.eq_dec
              (searchIndex (subseq_loop search text (mkSubseq 0 0 0)))
              (length search)) as [E | E].
  - apply scan_complete_iff in E.
    pose proof (Subsequence_length E) as Hlen.
    pose proof (nonempty_length Hs) as Hq.
    assert (Ht : text <> []) by (intros ->; simpl in Hlen; lia).
    pose proof (maxRun_bounds Hs E) as [Hr1 Hr2].
    eexists. split; [now apply subsequenceMatchScore_complete|].
    pose proof (@ratio_pos (length search) (length text) Hq ltac:(lia)) as B1.
    pose proof (@ratio_le_1 (length search) (length text) Hlen ltac:(lia)) as B2.
    pose proof (@ratio_pos (maxRun search text) (length search)
                  ltac:(lia) Hq) as C1.
    pose proof (@ratio_le_1 (maxRun search text) (length search) Hr2 Hq) as C2.
    split; [apply Qle_shift_div_l; lra|].
    split; [apply Qle_shift_div_r; lra|].
    split; [intros _; exact E|].
    intros _. apply Qlt_shift_div_l; lra.
  - assert (Hn : ~ Subsequence search text)
      by (intros H; apply E; now apply scan_complete_iff).
    exists 0. split; [now apply subsequenceMatchScore_incomplete|].
    split; [lra|]. split; [lra|]. split; [lra | tauto].
Qed.


(** ** More on the ranking *)

Section RankingMore.

Variable toLowerCase : jsstring -> jsstring.

Lemma field_score_le_best (term : jsstring) (e : Employee) (f : jsstring) (r : Q) :
  In f (fields e) ->
  fuzzyMatchScore toLowerCase term f = Fin r ->
  r <= recordScore toLowerCase term e.
Proof.
  intros Hf Hr. destruct (bestScore_max toLowerCase term e) as (b & Eb & _ & Hmax).
  unfold recordScore. rewrite Eb. cbn [value]. apply Hmax.
  rewrite <- Hr.
  change (scores toLowerCase term e)
    with (map (fuzzyMatchScore toLowerCase term) (fields e)).
  now apply in_map.
Qed.

Lemma ranked_In (l : list Employee) (q : jsstring) (e : Employee) :
  trim q <> [] ->
  In e (searchEmployees toLowerCase l q) <->
  In e l /\ 0.3 <= recordScore toLowerCase (trim q) e.
Proof.
  intros Hq. rewrite searchEmployees_ranked by exact Hq.
  rewrite <- kept_iff, <- filter_In. split; intros H.
  - eapply Permutation_in; [apply Array_sort_perm | exact H].
  - eapply Permutation_in; [symmetry; apply Array_sort_perm | exact H].
Qed.

(** A record one of whose fields matches the query is returned. *)
Lemma matching_record_kept (l : list Employee) (q : jsstring) (e : Employee)
      (f : jsstring) :
  trim q <> [] -> In e l -> In f (fields e) ->
  Subsequence (toLowerCase (trim q)) (toLowerCase f) \/
  startsWith (toLowerCase (trim q)) (toLowerCase f) = true ->
  In e (searchEmployees toLowerCase l q).
Proof.
  intros Hq He Hf Hm. apply ranked_In; [exact Hq|]. split; [exact He|].
  destruct (score_match toLowerCase (trim q) f Hm) as (r & Er & Hr).
  pose proof (@field_score_le_best (trim q) e f r Hf Er). lra.
Qed.

End RankingMore.


Section RankingTop.

Variable toLowerCase : jsstring -> jsstring.

Unset Implicit Arguments.

(** The first record returned has the best score of all the records. *)
Lemma first_is_best (l : list Employee) (q : jsstring) (x : Employee)
      (rest : list Employee) (e : Employee) :
  trim q <> [] ->
  searchEmployees toLowerCase l q = x :: rest ->
  In e l ->
  recordScore toLowerCase (trim q) e <= recordScore toLowerCase (trim q) x.
Proof.
  intros Hq Hout He.
  assert (Hx : In x (searchEmployees toLowerCase l q))
    by (rewrite Hout; now left).
  apply ranked_In in Hx; [|exact Hq]. destruct Hx as [_ Hx].
  destruct (Qlt_le_dec (recordScore toLowerCase (trim q) e) 0.3) as [Hlt | Hge];
    [lra|].
  assert (Hin : In e (searchEmployees toLowerCase l q))
    by (apply ranked_In; [exact Hq | now split]).
  rewrite Hout in Hin. destruct Hin as [<- | Hin]; [lra|].
  pose proof (@Array_sort_sorted _ (byBestScore toLowerCase (trim q))
                (recordScore toLowerCase (trim q))
                (byBestScore_key toLowerCase (trim q))
                (filter (kept toLowerCase (trim q)) l)) as Hs.
  rewrite <- searchEmployees_ranked in Hs by exact Hq.
  rewrite Hout in Hs. inversion Hs as [|? ? _ Hall]; subst.
  rewrite Forall_forall in Hall. apply (Hall e Hin).
Qed.

Set Implicit Arguments.

End RankingTop.


(** ** Arrays: [slice] and ranges *)

Lemma firstn_min_length (A : Type) (n : nat) (l : list A) :
  firstn (Nat.min n (length l)) l = firstn n l.
Proof.
  destruct (Nat.le_ge_cases n (length l)) as [H | H].
  - now rewrite Nat.min_l.
  - rewrite Nat.min_r by exact H. now rewrite !firstn_all2.
Qed.

(** A window [start, start + n) with a non-negative start: the [n]
    elements after the first [start] ones, as far as there are any. *)
Lemma Array_slice_window (A : Type) (l : list A) (start n : Z) :
  (0 <= start)%Z -> (0 <= n)%Z ->
  Array_slice l start (start + n) =
  firstn (Z.to_nat n) (skipn (Z.to_nat start) l).
Proof.
  intros Hs Hn. unfold Array_slice. cbv zeta.
  destruct (Z.ltb_spec start 0) as [H | _]; [lia|].
  destruct (Z.ltb_spec (start + n) 0) as [H | _]; [lia|].
  destruct (Z.le_gt_cases start (Z.of_nat (length l))) as [Hle | Hgt].
  - rewrite (Z.min_l start) by exact Hle.
    rewrite <- (firstn_min_length (Z.to_nat n)).
    f_equal. rewrite length_skipn. lia.
  - rewrite (Z.min_r start) by lia.
    rewrite (Z.min_r (start + n)) by lia.
    rewrite Z.sub_diag. simpl.
    rewrite (skipn_all2 l (n := Z.to_nat start)) by lia.
    now rewrite firstn_nil.
Qed.

Lemma pushRange_length (a b : Z) :
  length (pushRange a b) = Z.to_nat (b - a + 1).
Proof. unfold pushRange. now rewrite length_map, length_seq. Qed.

Lemma pushRange_In (a b x : Z) :
  In x (pushRange a b) <-> (a <= x <= b)%Z.
Proof.
  unfold pushRange. rewrite in_map_iff. split.
  - intros (k & <- & Hk). apply in_seq in Hk. lia.
  - intros H. exists (Z.to_nat (x - a)). split; [lia|].
    apply in_seq. lia.
Qed.

Lemma pushRange_nth (a b : Z) (k : nat) :
  (k < Z.to_nat (b - a + 1))%nat ->
  nth k (pushRange a b) 0%Z = (a + Z.of_nat k)%Z.
Proof.
  intros H. unfold pushRange.
  rewrite (nth_indep _ 0%Z (a + Z.of_nat 0)%Z)
    by (now rewrite length_map, length_seq).
  rewrite (map_nth (fun k => (a + Z.of_nat k)%Z)).
  now rewrite seq_nth.
Qed.

(** ** [Math.ceil] of a quotient *)

Lemma Math_ceil_div_spec (a b : Z) :
  (0 < b)%Z ->
  ((Math_ceil_div a b - 1) * b < a <= Math_ceil_div a b * b)%Z.
Proof.
  intros Hb. destruct b as [|p|p]; try lia.
  unfold Math_ceil_div, Qceiling, Qfloor, Qdiv, Qmult, Qinv, Qopp, inject_Z.
  cbn [Qnum Qden]. rewrite Z.mul_1_r, Pos.mul_1_l.
  pose proof (Z.div_mod (- a) (Z.pos p) ltac:(lia)) as E.
  pose proof (Z.mod_pos_bound (- a) (Z.pos p) ltac:(lia)) as B.
  nia.
Qed.

Lemma Math_ceil_div_unique (a b c : Z) :
  (0 < b)%Z -> ((c - 1) * b < a <= c * b)%Z -> Math_ceil_div a b = c.
Proof.
  intros Hb Hc. pose proof (Math_ceil_div_spec a Hb) as H. nia.
Qed.

(** ** Pages *)

(** Cutting a list into [pages] windows of [n] elements loses
    nothing. *)
Lemma windows_concat (A : Type) (n : nat) (pages : nat) (l : list A) :
  (length l <= pages * n)%nat ->
  concat (map (fun i => firstn n (skipn (i * n) l)) (seq 0 pages)) = l.
Proof.
  revert l. induction pages as [|pages IH]; intros l H.
  - destruct l; [reflexivity | simpl in H; lia].
  - cbn [seq map concat]. rewrite <- seq_shift, map_map.
    rewrite (map_ext _ (fun i => firstn n (skipn (i * n) (skipn n l)))).
    + rewrite IH by (rewrite length_skipn; lia).
      apply firstn_skipn.
    + intros i. rewrite skipn_skipn. f_equal. f_equal. lia.
Qed.


Lemma Math_ceil_div_nonneg (a b : Z) :
  (0 <= a)%Z -> (0 < b)%Z -> (0 <= Math_ceil_div a b)%Z.
Proof. intros Ha Hb. pose proof (Math_ceil_div_spec a Hb). nia. Qed.

Section TableFacts.

Variable toLowerCase : jsstring -> jsstring.
Variable NumberToString : number -> jsstring.

Lemma sortedRows_perm (s : SortState) (rows : list Employee) :
  Permutation (sortedRows toLowerCase NumberToString s rows) rows.
Proof.
  unfold sortedRows. destruct (column s); [apply Array_sort_perm | reflexivity].
Qed.

Lemma sortedRows_length (s : SortState) (rows : list Employee) :
  length (sortedRows toLowerCase NumberToString s rows) = length rows.
Proof. apply Permutation_length, sortedRows_perm. Qed.

Lemma sortEmployees_eq (t : DataTable) :
  sortEmployees toLowerCase NumberToString t =
  set_filteredEmployees
    (sortedRows toLowerCase NumberToString (sortState t) (filteredEmployees t))
    t.
Proof.
  unfold sortEmployees, sortedRows. destruct (column (sortState t)).
  - reflexivity.
  - destruct t. reflexivity.
Qed.

(** [updateDisplayedEmployees] shows the current page. *)
Lemma updateDisplayedEmployees_paged (t : DataTable) :
  (0 < pageSize t)%Z ->
  totalPages t =
    Math_ceil_div (Z.of_nat (length (filteredEmployees t))) (pageSize t) ->
  (1 <= currentPage t <= Z.max 1 (totalPages t))%Z ->
  paged (updateDisplayedEmployees t).
Proof.
  intros Hs Ht Hp. unfold updateDisplayedEmployees. cbv zeta.
  destruct t as [al fi di te so cp ps tp lo er]. cbn in *.
  constructor; cbn; try lia; try assumption.
  apply Array_slice_window; nia.
Qed.

Lemma updateDisplayedEmployees_rows (t : DataTable) :
  filteredEmployees (updateDisplayedEmployees t) = filteredEmployees t /\
  allEmployees (updateDisplayedEmployees t) = allEmployees t /\
  searchTerm (updateDisplayedEmployees t) = searchTerm t.
Proof. destruct t. repeat split. Qed.

(** After [applyFilters] the table shows the first page of the search
    result, sorted. *)
Lemma applyFilters_eq (t : DataTable) :
  let rows := sortedRows toLowerCase NumberToString (sortState t)
                (searchEmployees toLowerCase (allEmployees t) (searchTerm t)) in
  applyFilters toLowerCase NumberToString t =
  mkDataTable (allEmployees t) rows
              (Array_slice rows ((1 - 1) * pageSize t)
                           ((1 - 1) * pageSize t + pageSize t))
              (searchTerm t) (sortState t) 1 (pageSize t)
              (Math_ceil_div (Z.of_nat (length rows)) (pageSize t))
              (isLoading t) (errorMessage t).
Proof.
  unfold applyFilters. cbv zeta. rewrite sortEmployees_eq.
  destruct t. reflexivity.
Qed.

Lemma applyFilters_ok (t : DataTable) :
  (0 < pageSize t)%Z -> table_ok toLowerCase (applyFilters toLowerCase NumberToString t).
Proof.
  intros Hs. rewrite applyFilters_eq. cbv zeta.
  set (rows := sortedRows toLowerCase NumberToString (sortState t)
                (searchEmployees toLowerCase (allEmployees t) (searchTerm t))).
  pose proof (Math_ceil_div_nonneg (a := Z.of_nat (length rows)) ltac:(lia) Hs).
  split.
  - constructor; cbn; try lia.
    apply (@Array_slice_window _ rows 0 (pageSize t)); lia.
  - cbn. apply sortedRows_perm.
Qed.

Lemma goToPage_ok (page : Z) (t : DataTable) :
  table_ok toLowerCase t -> table_ok toLowerCase (goToPage page t).
Proof.
  intros [Hp Hr]. unfold goToPage.
  destruct ((1 <=? page)%Z && (page <=? totalPages t)%Z) eqn:G;
    [|now split].
  apply andb_true_iff in G. destruct G as [G1 G2].
  apply Z.leb_le in G1, G2. destruct Hp as [H1 H2 H3 H4 H5]. split.
  - apply updateDisplayedEmployees_paged;
      destruct t as [al fi di te so cp ps tp lo er]; cbn in *;
      try assumption; lia.
  - destruct t as [al fi di te so cp ps tp lo er]. exact Hr.
Qed.

Lemma onSort_ok (c : Column) (t : DataTable) :
  table_ok toLowerCase t ->
  table_ok toLowerCase (onSort toLowerCase NumberToString c t).
Proof.
  intros [Hp Hr]. unfold onSort. cbv zeta.
  set (s' := if match column (sortState t) with
                | Some c' => Column_eqb c' c
                | None => false
                end
             then mkSortState (column (sortState t))
                    (match direction (sortState t) with
                     | Asc => Desc
                     | Desc => Asc
                     end)
             else mkSortState (Some c) Asc).
  assert (E : (if match column (sortState t) with
                  | Some c' => Column_eqb c' c
                  | None => false
                  end
               then set_sortState
                      (mkSortState (column (sortState t))
                         (match direction (sortState t) with
                          | Asc => Desc
                          | Desc => Asc
                          end)) t
               else set_sortState (mkSortState (Some c) Asc) t)
              = set_sortState s' t).
  { unfold s'. destruct (match column (sortState t) with
                         | Some c' => Column_eqb c' c
                         | None => false
                         end); reflexivity. }
  rewrite E, sortEmployees_eq.
  destruct Hp as [H1 H2 H3 H4 H5].
  destruct t as [al fi di te so cp ps tp lo er]. cbn in *. split.
  - apply updateDisplayedEmployees_paged; cbn; try assumption; try lia.
    now rewrite sortedRows_length.
  - cbn. rewrite sortedRows_perm. exact Hr.
Qed.

Lemma handle_ok (t : DataTable) (ev : TableEvent) :
  table_ok toLowerCase t ->
  table_ok toLowerCase (handle toLowerCase NumberToString t ev).
Proof.
  intros H. pose proof (paged_size (ok_paged H)) as Hs.
  destruct ev as [| employees | | term | c | page | |]; cbn [handle].
  - destruct H as [[H1 H2 H3 H4 H5] Hr]. destruct t.
    split; [constructor|]; assumption.
  - unfold onLoaded.
    assert (Hok : table_ok toLowerCase
                    (applyFilters toLowerCase NumberToString
                       (set_allEmployees employees t)))
      by (apply applyFilters_ok; destruct t; exact Hs).
    destruct Hok as [[H1 H2 H3 H4 H5] Hr].
    destruct (applyFilters toLowerCase NumberToString
                (set_allEmployees employees t)).
    split; [constructor|]; assumption.
  - destruct H as [[H1 H2 H3 H4 H5] Hr]. destruct t.
    split; [constructor|]; assumption.
  - unfold onSearch. apply applyFilters_ok. destruct t; exact Hs.
  - now apply onSort_ok.
  - now apply goToPage_ok.
  - now apply goToPage_ok.
  - now apply goToPage_ok.
Qed.

Lemma run_ok (events : list TableEvent) (t : DataTable) :
  table_ok toLowerCase t ->
  table_ok toLowerCase
    (fold_left (handle toLowerCase NumberToString) events t).
Proof.
  revert t. induction events as [|ev events IH]; intros t H; [exact H|].
  cbn [fold_left]. apply IH. now apply handle_ok.
Qed.

Lemma newDataTable_ok : table_ok toLowerCase newDataTable.
Proof.
  split; [constructor|]; cbn; try lia; reflexivity.
Qed.

End TableFacts.


(** ** Pagination *)

Lemma paged_total_bounds (t : DataTable) :
  paged t ->
  ((totalPages t - 1) * pageSize t < Z.of_nat (length (filteredEmployees t))
   <= totalPages t * pageSize t)%Z /\ (0 <= totalPages t)%Z.
Proof.
  intros [H1 H2 H3 H4 H5]. rewrite H2.
  pose proof (Math_ceil_div_spec (Z.of_nat (length (filteredEmployees t))) H1).
  split; [assumption | nia].
Qed.

Lemma paged_length (t : DataTable) :
  paged t ->
  Z.of_nat (length (displayedEmployees t)) =
  Z.max 0 (Z.min (pageSize t)
                 (Z.of_nat (length (filteredEmployees t))
                  - (currentPage t - 1) * pageSize t)).
Proof.
  intros H. rewrite (paged_shown H), length_firstn, length_skipn.
  destruct H as [H1 H2 H3 H4 H5]. nia.
Qed.

Section Pagination.

Variable toLowerCase : jsstring -> jsstring.
Variable NumberToString : number -> jsstring.

(** [goToPage] with a page out of range does nothing. *)
Lemma goToPage_out_of_range (page : Z) (t : DataTable) :
  (page < 1 \/ totalPages t < page)%Z -> goToPage page t = t.
Proof.
  intros H. unfold goToPage.
  destruct (Z.leb_spec 1 page); destruct (Z.leb_spec page (totalPages t));
    cbn [andb]; try reflexivity; lia.
Qed.

(** [goToPage] with a page in range shows that page. *)
Lemma goToPage_in_range (page : Z) (t : DataTable) :
  (0 < pageSize t)%Z -> (1 <= page <= totalPages t)%Z ->
  goToPage page t =
  mkDataTable (allEmployees t) (filteredEmployees t)
              (firstn (Z.to_nat (pageSize t))
                      (skipn (Z.to_nat ((page - 1) * pageSize t))
                             (filteredEmployees t)))
              (searchTerm t) (sortState t) page (pageSize t) (totalPages t)
              (isLoading t) (errorMessage t).
Proof.
  intros Hs H. unfold goToPage.
  destruct (Z.leb_spec 1 page); [|lia].
  destruct (Z.leb_spec page (totalPages t)); [|lia]. cbn [andb].
  unfold updateDisplayedEmployees. cbv zeta.
  destruct t as [al fi di te so cp ps tp lo er]. cbn in *.
  rewrite Array_slice_window by nia. reflexivity.
Qed.

(** The pages [1 .. totalPages], one after the other, are the filtered
    records. *)
Lemma pages_concat (t : DataTable) :
  paged t ->
  concat (map (fun page => displayedEmployees (goToPage page t))
              (pushRange 1 (totalPages t)))
  = filteredEmployees t.
Proof.
  intros H. pose proof (paged_size H) as Hs.
  destruct (paged_total_bounds H) as [Hb Ht].
  unfold pushRange. rewrite map_map.
  replace (totalPages t - 1 + 1)%Z with (totalPages t) by lia.
  rewrite (map_ext_in _
             (fun i => firstn (Z.to_nat (pageSize t))
                         (skipn (i * Z.to_nat (pageSize t))
                                (filteredEmployees t)))).
  - apply windows_concat. nia.
  - intros k Hk. apply in_seq in Hk.
    rewrite goToPage_in_range by lia. cbn [displayedEmployees].
    do 2 f_equal.
    replace (1 + Z.of_nat k - 1)%Z with (Z.of_nat k) by lia.
    rewrite Z2Nat.inj_mul by lia. now rewrite Nat2Z.id.
Qed.

End Pagination.

(** [getPageNumbers] shows a window of consecutive pages around the
    current one. *)
Lemma getPageNumbers_window (t : DataTable) :
  (1 <= currentPage t <= totalPages t)%Z ->
  exists first last : Z,
    getPageNumbers t = pushRange first last /\
    (1 <= first <= currentPage t)%Z /\
    (currentPage t <= last <= totalPages t)%Z /\
    (last - first + 1 = Z.min 5 (totalPages t))%Z.
Proof.
  intros H. unfold getPageNumbers. cbv zeta.
  destruct (Z.leb_spec (totalPages t) 5) as [H5 | H5].
  - exists 1%Z, (totalPages t). split; [reflexivity | lia].
  - set (s0 := Z.max 1 (currentPage t - 2)).
    set (e := Z.min (totalPages t) (s0 + 5 - 1)).
    destruct (Z.ltb_spec (e - s0) (5 - 1)) as [Hs | Hs].
    + exists (Z.max 1 (e - 5 + 1)), e. split; [reflexivity|].
      unfold e, s0 in *. lia.
    + exists s0, e. split; [reflexivity|]. unfold e, s0 in *. lia.
Qed.

Lemma getPageNumbers_empty (t : DataTable) :
  (totalPages t <= 0)%Z -> getPageNumbers t = [].
Proof.
  intros H. unfold getPageNumbers. cbv zeta.
  destruct (Z.leb_spec (totalPages t) 5) as [H5 | H5]; [|lia].
  unfold pushRange. replace (Z.to_nat (totalPages t - 1 + 1)) with 0%nat by lia.
  reflexivity.
Qed.


(** ** Sorting with a comparator *)

Section SortByOrder.

Variable A : Type.
Variable cmp : A -> A -> number.
Variable P : A -> Prop.

Hypothesis precede_total :
  forall x y, P x -> P y -> may_precede cmp x y \/ may_precede cmp y x.
Hypothesis precede_trans :
  forall x y z, P x -> P y -> P z ->
                may_precede cmp x y -> may_precede cmp y z ->
                may_precede cmp x z.

Lemma sort_insert_ordered (x : A) (l : list A) :
  P x -> Forall P l ->
  StronglySorted (may_precede cmp) l ->
  StronglySorted (may_precede cmp) (sort_insert cmp x l).
Proof.
  intros Hx Hl Hs. induction Hs as [|y l Hs IH Hy]; cbn [sort_insert].
  - repeat constructor.
  - inversion Hl as [|? ? Py Pl]; subst.
    destruct (gtb (cmp x y) (Fin 0)) eqn:G.
    + constructor; [now apply IH|].
      eapply Permutation_Forall; [symmetry; apply sort_insert_perm|].
      constructor; [|exact Hy].
      destruct (precede_total Hx Py) as [H | H]; [|exact H].
      unfold may_precede in H. congruence.
    + constructor; [now constructor|].
      constructor; [exact G|].
      rewrite Forall_forall in *. intros z Hz.
      apply (precede_trans Hx Py (Pl z Hz) G (Hy z Hz)).
Qed.

Lemma Array_sort_ordered (l : list A) :
  Forall P l -> StronglySorted (may_precede cmp) (Array_sort cmp l).
Proof.
  induction 1 as [|x l Hx Hl IH]; [constructor|].
  cbn [Array_sort fold_right]. fold (Array_sort cmp l).
  apply sort_insert_ordered; [exact Hx | | exact IH].
  eapply Permutation_Forall; [symmetry; apply Array_sort_perm | exact Hl].
Qed.

End SortByOrder.

(** Elements that never have to change places keep their order. *)
Lemma Array_sort_stable_class (A : Type) (cmp : A -> A -> number)
      (P : A -> Prop) (cls : A -> bool) (l : list A) :
  (forall x y, P x -> P y -> cls x = true -> cls y = true ->
               may_precede cmp x y) ->
  Forall P l ->
  filter cls (Array_sort cmp l) = filter cls l.
Proof.
  intros Hc. induction 1 as [|x l Hx Hl IH]; [reflexivity|].
  cbn [Array_sort fold_right]. fold (Array_sort cmp l).
  cbn [filter]. rewrite <- IH.
  assert (Hs : Forall P (Array_sort cmp l))
    by (eapply Permutation_Forall; [symmetry; apply Array_sort_perm | exact Hl]).
  clear IH Hl. induction Hs as [|y s Hy Hs IHs]; [reflexivity|].
  cbn [sort_insert]. destruct (gtb (cmp x y) (Fin 0)) eqn:G; [|reflexivity].
  cbn [filter]. rewrite IHs.
  destruct (cls x) eqn:Cx; [|reflexivity].
  destruct (cls y) eqn:Cy; [|reflexivity].
  pose proof (Hc x y Hx Hy Cx Cy) as H. unfold may_precede in H. congruence.
Qed.

(** ** The order of strings *)

Lemma str_ltb_irrefl (s : jsstring) : str_ltb s s = false.
Proof.
  induction s as [|c s IH]; [reflexivity|].
  cbn [str_ltb]. now rewrite N.ltb_irrefl.
Qed.

Lemma str_ltb_cons (c d : N) (s t : jsstring) :
  str_ltb (c :: s) (d :: t) = true <->
  (c < d)%N \/ (c = d /\ str_ltb s t = true).
Proof.
  cbn [str_ltb].
  destruct (N.ltb_spec c d) as [H | H]; [split; [now left | reflexivity]|].
  destruct (N.ltb_spec d c) as [H' | H'].
  - split; [discriminate | intros [? | [? _]]; lia].
  - split; [intros E; right; split; [lia | exact E] | intros [? | [_ E]]; [lia | exact E]].
Qed.

Lemma str_ltb_trans (a b c : jsstring) :
  str_ltb a b = true -> str_ltb b c = true -> str_ltb a c = true.
Proof.
  revert b c. induction a as [|x a IH]; intros [|y b] [|z c];
    try discriminate; try reflexivity.
  rewrite !str_ltb_cons. intros [H1 | [-> H1]] [H2 | [-> H2]].
  - left. lia.
  - now left.
  - now left.
  - right. split; [reflexivity | now apply (IH b)].
Qed.

Lemma str_ltb_asym (a b : jsstring) :
  str_ltb a b = true -> str_ltb b a = false.
Proof.
  intros H. destruct (str_ltb b a) eqn:E; [|reflexivity].
  pose proof (str_ltb_trans _ _ _ H E) as T.
  rewrite str_ltb_irrefl in T. discriminate.
Qed.

Lemma str_ltb_total (a b : jsstring) :
  str_ltb a b = false -> str_ltb b a = false -> a = b.
Proof.
  revert b. induction a as [|x a IH]; intros [|y b]; try discriminate;
    [reflexivity|].
  intros H1 H2.
  destruct (N.lt_trichotomy x y) as [L | [-> | L]].
  - assert (T : str_ltb (x :: a) (y :: b) = true)
      by (apply str_ltb_cons; now left). congruence.
  - f_equal. apply IH.
    + destruct (str_ltb a b) eqn:E; [|reflexivity].
      assert (T : str_ltb (y :: a) (y :: b) = true)
        by (apply str_ltb_cons; now right). congruence.
    + destruct (str_ltb b a) eqn:E; [|reflexivity].
      assert (T : str_ltb (y :: b) (y :: a) = true)
        by (apply str_ltb_cons; now right). congruence.
  - assert (T : str_ltb (y :: b) (x :: a) = true)
      by (apply str_ltb_cons; now left). congruence.
Qed.

(** "Not after" is a total preorder. *)
Lemma str_not_after_trans (a b c : jsstring) :
  str_ltb b a = false -> str_ltb c b = false -> str_ltb c a = false.
Proof.
  intros H1 H2. destruct (str_ltb c a) eqn:E; [|reflexivity].
  destruct (str_ltb a b) eqn:Eab.
  - pose proof (str_ltb_trans _ _ _ E Eab). congruence.
  - pose proof (str_ltb_total _ _ Eab H1). subst. congruence.
Qed.

Lemma str_not_after_total (a b : jsstring) :
  str_ltb b a = false \/ str_ltb a b = false.
Proof.
  destruct (str_ltb b a) eqn:E; [right; now apply str_ltb_asym | now left].
Qed.


Lemma StronglySorted_impl (A : Type) (R R' : A -> A -> Prop) (l : list A) :
  (forall a b, R a b -> R' a b) ->
  StronglySorted R l -> StronglySorted R' l.
Proof.
  intros H. induction 1 as [|x l Hs IH Hx]; constructor; [exact IH|].
  eapply Forall_impl; [|exact Hx]. intros b. apply H.
Qed.

(** ** Sorting the table by a column *)

Section ColumnSort.

Variable toLowerCase : jsstring -> jsstring.
Variable NumberToString : number -> jsstring.

(** On a string column the comparator asks for a swap exactly when the
    keys are in the wrong order for the direction. *)
Lemma compareColumn_string (c : Column) (d : SortDirection) (a b : Employee) :
  c <> ColId ->
  may_precede (compareColumn toLowerCase NumberToString c d) a b <->
  keyOrder d (sortKey toLowerCase c a) (sortKey toLowerCase c b).
Proof.
  intros Hc. unfold may_precede, compareColumn, sortKey, keyOrder. cbv zeta.
  destruct c; [congruence|..]; cbn [columnValue ToString];
    match goal with
    | |- context [str_ltb ?ka ?kb] =>
        destruct (str_ltb ka kb) eqn:E1; destruct (str_ltb kb ka) eqn:E2
    end;
    try (pose proof (str_ltb_asym _ _ E1); congruence);
    destruct d; cbn; split; congruence.
Qed.

Lemma compareColumn_id (d : SortDirection) (a b : Employee) :
  finite (id a) -> finite (id b) ->
  may_precede (compareColumn toLowerCase NumberToString ColId d) a b <->
  idOrder d a b.
Proof.
  intros [x Hx] [y Hy]. unfold may_precede, compareColumn, idOrder. cbv zeta.
  cbn [columnValue]. rewrite Hx, Hy. cbn [value].
  destruct d; change (sub (Fin ?u) (Fin ?v)) with (Fin (u + - v));
    rewrite gtb_Fin_false; split; intros H; lra.
Qed.

Lemma sort_string_column (c : Column) (d : SortDirection) (l : list Employee) :
  c <> ColId ->
  let out := Array_sort (compareColumn toLowerCase NumberToString c d) l in
  StronglySorted (fun a b => keyOrder d (sortKey toLowerCase c a)
                                      (sortKey toLowerCase c b)) out /\
  forall k, filter (fun e => str_eqb (sortKey toLowerCase c e) k) out =
            filter (fun e => str_eqb (sortKey toLowerCase c e) k) l.
Proof.
  intros Hc out. split.
  - apply StronglySorted_impl
      with (R := may_precede (compareColumn toLowerCase NumberToString c d)).
    + intros a b. now apply compareColumn_string.
    + apply Array_sort_ordered with (P := fun _ => True).
      * intros x y _ _.
        rewrite !compareColumn_string by exact Hc.
        destruct d; apply str_not_after_total.
      * intros x y z _ _ _.
        rewrite !compareColumn_string by exact Hc.
        destruct d; cbn [keyOrder]; intros H1 H2.
        -- now apply (str_not_after_trans _ _ _ H1 H2).
        -- now apply (str_not_after_trans _ _ _ H2 H1).
      * apply Forall_forall. auto.
  - intros k. apply Array_sort_stable_class with (P := fun _ => True).
    + intros x y _ _ Hx Hy. apply compareColumn_string; [exact Hc|].
      apply str_eqb_eq in Hx, Hy. rewrite Hx, Hy.
      destruct d; apply str_ltb_irrefl.
    + apply Forall_forall. auto.
Qed.

Lemma sort_id_column (d : SortDirection) (l : list Employee) :
  Forall (fun e => finite (id e)) l ->
  let out := Array_sort (compareColumn toLowerCase NumberToString ColId d) l in
  StronglySorted (idOrder d) out /\
  forall v, filter (fun e => Qeq_bool (value (id e)) v) out =
            filter (fun e => Qeq_bool (value (id e)) v) l.
Proof.
  intros Hl out. split.
  - assert (Hout : Forall (fun e => finite (id e)) out)
      by (eapply Permutation_Forall;
          [symmetry; apply Array_sort_perm | exact Hl]).
    assert (Hs : StronglySorted
                   (may_precede (compareColumn toLowerCase NumberToString
                                               ColId d)) out).
    { apply Array_sort_ordered with (P := fun e => finite (id e)).
      - intros x y Hx Hy. rewrite !compareColumn_id by assumption.
        destruct d; cbn [idOrder];
          destruct (Qlt_le_dec (value (id x)) (value (id y)));
          (left; lra) || (right; lra).
      - intros x y z Hx Hy Hz. rewrite !compareColumn_id by assumption.
        destruct d; cbn [idOrder]; intros; lra.
      - exact Hl. }
    clear Hl. induction Hs as [|x s Hs IH Hx]; [constructor|].
    inversion Hout as [|? ? Fx Fs]; subst. constructor; [now apply IH|].
    rewrite Forall_forall in *. intros y Hy.
    apply compareColumn_id; auto.
  - intros v. apply Array_sort_stable_class with (P := fun e => finite (id e));
      [|exact Hl].
    intros x y Hx Hy Cx Cy. apply compareColumn_id; [assumption..|].
    apply Qeq_bool_iff in Cx, Cy. destruct d; cbn [idOrder]; lra.
Qed.

End ColumnSort.


(** ** Moving between the pages *)

Section PagesMore.

Variable toLowerCase : jsstring -> jsstring.
Variable NumberToString : number -> jsstring.

Lemma sortEmployees_pageSize (t : DataTable) :
  pageSize (sortEmployees toLowerCase NumberToString t) = pageSize t.
Proof.
  unfold sortEmployees. now destruct (column (sortState t)).
Qed.

Lemma handle_pageSize (t : DataTable) (ev : TableEvent) :
  pageSize (handle toLowerCase NumberToString t ev) = pageSize t.
Proof.
  destruct ev as [| employees | | term | c | page | |]; cbn [handle];
    try reflexivity.
  - unfold onLoaded. rewrite applyFilters_eq. reflexivity.
  - unfold onSearch. rewrite applyFilters_eq. reflexivity.
  - unfold onSort, updateDisplayedEmployees. cbn [pageSize set_displayedEmployees].
    rewrite sortEmployees_pageSize.
    now destruct (match column (sortState t) with
                  | Some c' => Column_eqb c' c
                  | None => false
                  end).
  - unfold goToPage.
    now destruct ((1 <=? page)%Z && (page <=? totalPages t)%Z).
  - unfold previousPage, goToPage.
    now destruct ((1 <=? currentPage t - 1)%Z
                  && (currentPage t - 1 <=? totalPages t)%Z).
  - unfold nextPage, goToPage.
    now destruct ((1 <=? currentPage t + 1)%Z
                  && (currentPage t + 1 <=? totalPages t)%Z).
Qed.

Lemma run_pageSize (events : list TableEvent) (t : DataTable) :
  pageSize (fold_left (handle toLowerCase NumberToString) events t)
  = pageSize t.
Proof.
  revert t. induction events as [|ev events IH]; intros t; [reflexivity|].
  cbn [fold_left]. rewrite IH. apply handle_pageSize.
Qed.

End PagesMore.

(** A table whose page is consistent is determined by its other
    fields. *)
Lemma paged_eta (t : DataTable) :
  paged t ->
  mkDataTable (allEmployees t) (filteredEmployees t)
    (firstn (Z.to_nat (pageSize t))
            (skipn (Z.to_nat ((currentPage t - 1) * pageSize t))
                   (filteredEmployees t)))
    (searchTerm t) (sortState t) (currentPage t) (pageSize t) (totalPages t)
    (isLoading t) (errorMessage t) = t.
Proof.
  intros H. rewrite <- (paged_shown H). now destruct t.
Qed.

Lemma nextPage_previousPage (t : DataTable) :
  paged t -> (1 < currentPage t <= totalPages t)%Z ->
  nextPage (previousPage t) = t.
Proof.
  intros H Hc. pose proof (paged_size H) as Hs.
  unfold previousPage. rewrite goToPage_in_range by lia.
  unfold nextPage. rewrite goToPage_in_range by (cbn; lia).
  cbn [allEmployees filteredEmployees searchTerm sortState currentPage
       pageSize totalPages isLoading errorMessage].
  replace (currentPage t - 1 + 1)%Z with (currentPage t) by lia.
  now apply paged_eta.
Qed.

Lemma previousPage_nextPage (t : DataTable) :
  paged t -> (currentPage t < totalPages t)%Z ->
  previousPage (nextPage t) = t.
Proof.
  intros H Hc. pose proof (paged_size H) as Hs.
  pose proof (paged_first H) as Hf.
  unfold nextPage. rewrite goToPage_in_range by lia.
  unfold previousPage. rewrite goToPage_in_range by (cbn; lia).
  cbn [allEmployees filteredEmployees searchTerm sortState currentPage
       pageSize totalPages isLoading errorMessage].
  replace (currentPage t + 1 - 1)%Z with (currentPage t) by lia.
  now apply paged_eta.
Qed.

(** The current page lies among the pages as soon as there is a record
    to show. *)
Lemma paged_current (t : DataTable) :
  paged t -> filteredEmployees t <> [] ->
  (1 <= currentPage t <= totalPages t)%Z.
Proof.
  intros H Hne. destruct (paged_total_bounds H) as [[_ Hb] H0].
  pose proof (paged_size H). pose proof (paged_first H).
  pose proof (paged_last H).
  assert (0 < Z.of_nat (length (filteredEmployees t)))%Z
    by (destruct (filteredEmployees t); [congruence | cbn; lia]).
  assert (1 <= totalPages t)%Z by nia. lia.
Qed.

(** The range shown by [getDisplayRange] numbers the records of the
    page. *)
Lemma displayRange_shown (t : DataTable) :
  paged t -> filteredEmployees t <> [] ->
  let start := fst (displayRange t) in
  let final := snd (displayRange t) in
  (1 <= start <= final)%Z /\
  (final <= Z.of_nat (length (filteredEmployees t)))%Z /\
  Z.of_nat (length (displayedEmployees t)) = (final - start + 1)%Z /\
  displayedEmployees t =
  firstn (Z.to_nat (final - start + 1))
         (skipn (Z.to_nat (start - 1)) (filteredEmployees t)).
Proof.
  intros H Hne. cbv zeta. unfold displayRange. cbn [fst snd].
  destruct (paged_current H Hne) as [Hc1 Hc2].
  destruct (paged_total_bounds H) as [[Hb1 Hb2] H0].
  pose proof (paged_size H) as Hs. pose proof (paged_length H) as Hl.
  set (len := Z.of_nat (length (filteredEmployees t))) in *.
  set (ps := pageSize t) in *. set (cp := currentPage t) in *.
  assert (Hlt : ((cp - 1) * ps < len)%Z) by nia.
  assert (Hlen : Z.of_nat (length (displayedEmployees t)) =
                 (Z.min (cp * ps) len - ((cp - 1) * ps + 1) + 1)%Z)
    by (rewrite Hl; nia).
  split; [nia|]. split; [lia|]. split; [exact Hlen|].
  rewrite <- Hlen, Nat2Z.id.
  replace ((cp - 1) * ps + 1 - 1)%Z with ((cp - 1) * ps)%Z by lia.
  pose proof (paged_shown H) as Hsh. fold ps cp in Hsh.
  rewrite Hsh, length_firstn, firstn_min_length. reflexivity.
Qed.

Section FirstPage.

Variable toLowerCase : jsstring -> jsstring.
Variable NumberToString : number -> jsstring.

(** After [applyFilters] the table shows the first page of the records
    found by the search, sorted by the current column. *)
Lemma applyFilters_first_page (t : DataTable) :
  (0 < pageSize t)%Z ->
  let t' := applyFilters toLowerCase NumberToString t in
  currentPage t' = 1%Z /\
  filteredEmployees t' =
    sortedRows toLowerCase NumberToString (sortState t)
      (searchEmployees toLowerCase (allEmployees t) (searchTerm t)) /\
  displayedEmployees t' =
    firstn (Z.to_nat (pageSize t)) (filteredEmployees t').
Proof.
  intros Hs. cbv zeta. rewrite applyFilters_eq. cbv zeta.
  cbn [currentPage filteredEmployees displayedEmployees].
  split; [reflexivity|]. split; [reflexivity|].
  rewrite (@Array_slice_window _ _ ((1 - 1) * pageSize t) (pageSize t))
    by lia.
  reflexivity.
Qed.

End FirstPage.


(** ** Sorting back and forth *)

Section StableUnique.

Variable A : Type.
Variable K : Type.
Variable key : A -> K.
Variable le : K -> K -> Prop.
Variable keq : K -> K -> bool.

Hypothesis keq_eq : forall a b, keq a b = true <-> a = b.
Hypothesis le_refl : forall a, le a a.
Hypothesis le_antisym : forall a b, le a b -> le b a -> a = b.

(** A list in the order of the keys that keeps the elements of every
    key in their order is determined by these two properties. *)
Lemma stable_ordered_unique (l1 l2 : list A) :
  StronglySorted (fun x y => le (key x) (key y)) l1 ->
  StronglySorted (fun x y => le (key x) (key y)) l2 ->
  (forall k, filter (fun a => keq (key a) k) l1 =
             filter (fun a => keq (key a) k) l2) ->
  l1 = l2.
Proof.
  assert (keq_refl : forall a, keq a a = true) by (intros a; now apply keq_eq).
  intros H1. revert l2.
  induction H1 as [|x t1 Hs1 IH Hx]; intros l2 H2 Hf.
  - destruct l2 as [|y t2]; [reflexivity|].
    specialize (Hf (key y)). cbn [filter] in Hf.
    rewrite keq_refl in Hf. discriminate.
  - destruct l2 as [|y t2].
    + specialize (Hf (key x)). cbn [filter] in Hf.
      rewrite keq_refl in Hf. discriminate.
    + inversion H2 as [|? ? Hs2 Hy]; subst.
      assert (Hyx : le (key y) (key x)).
      { pose proof (Hf (key x)) as E. cbn [filter] in E.
        rewrite keq_refl in E.
        assert (Hin : In x (filter (fun a => keq (key a) (key x))
                                   (y :: t2))).
        { cbn [filter]. rewrite <- E. now left. }
        apply filter_In in Hin. destruct Hin as [[<- | Hin] Hk].
        - apply le_refl.
        - rewrite Forall_forall in Hy. apply (Hy x Hin). }
      assert (Hxy : le (key x) (key y)).
      { pose proof (Hf (key y)) as E. cbn [filter] in E.
        rewrite keq_refl in E.
        assert (Hin : In y (filter (fun a => keq (key a) (key y))
                                   (x :: t1))).
        { cbn [filter]. rewrite E. now left. }
        apply filter_In in Hin. destruct Hin as [[<- | Hin] Hk].
        - apply le_refl.
        - rewrite Forall_forall in Hx. apply (Hx y Hin). }
      assert (Ek : key y = key x) by now apply le_antisym.
      assert (Exy : x = y).
      { pose proof (Hf (key x)) as E. cbn [filter] in E.
        rewrite keq_refl, Ek, keq_refl in E. now injection E. }
      subst y. f_equal. apply IH; [exact Hs2|].
      intros k. specialize (Hf k). cbn [filter] in Hf.
      destruct (keq (key x) k); [now injection Hf | exact Hf].
Qed.

End StableUnique.

Lemma opposite_opposite (d : SortDirection) : opposite (opposite d) = d.
Proof. now destruct d. Qed.

Lemma Column_eqb_refl (c : Column) : Column_eqb c c = true.
Proof. now destruct c. Qed.

Lemma keyOrder_refl (d : SortDirection) (k : jsstring) : keyOrder d k k.
Proof. destruct d; apply str_ltb_irrefl. Qed.

Lemma keyOrder_antisym (d : SortDirection) (a b : jsstring) :
  keyOrder d a b -> keyOrder d b a -> a = b.
Proof.
  destruct d; cbn [keyOrder]; intros H1 H2.
  - now apply str_ltb_total.
  - now apply str_ltb_total.
Qed.

Section SortTwice.

Variable toLowerCase : jsstring -> jsstring.
Variable NumberToString : number -> jsstring.

(** Sorting a sorted list the other way round and back gives the list
    again. *)
Lemma sort_there_and_back (c : Column) (d : SortDirection)
      (l : list Employee) :
  c <> ColId ->
  StronglySorted (fun a b => keyOrder d (sortKey toLowerCase c a)
                                      (sortKey toLowerCase c b)) l ->
  Array_sort (compareColumn toLowerCase NumberToString c d)
    (Array_sort (compareColumn toLowerCase NumberToString c (opposite d)) l)
  = l.
Proof.
  intros Hc Hl.
  destruct (@sort_string_column toLowerCase NumberToString c (opposite d) l Hc)
    as [_ St1].
  destruct (@sort_string_column toLowerCase NumberToString c d
              (Array_sort (compareColumn toLowerCase NumberToString c
                                         (opposite d)) l) Hc)
    as [So2 St2].
  apply (@stable_ordered_unique Employee jsstring (sortKey toLowerCase c)
           (keyOrder d) str_eqb).
  - apply str_eqb_eq.
  - apply keyOrder_refl.
  - apply keyOrder_antisym.
  - exact So2.
  - exact Hl.
  - intros k. now rewrite St2, St1.
Qed.

Lemma onSort_eq (c : Column) (t : DataTable) :
  let s := clicked c (sortState t) in
  let rows := sortedRows toLowerCase NumberToString s (filteredEmployees t) in
  onSort toLowerCase NumberToString c t =
  mkDataTable (allEmployees t) rows
              (Array_slice rows ((currentPage t - 1) * pageSize t)
                           ((currentPage t - 1) * pageSize t + pageSize t))
              (searchTerm t) s (currentPage t) (pageSize t) (totalPages t)
              (isLoading t) (errorMessage t).
Proof.
  cbv zeta. unfold onSort, clicked, opposite.
  destruct (match column (sortState t) with
            | Some c' => Column_eqb c' c
            | None => false
            end).
  - unfold sortEmployees, sortedRows, updateDisplayedEmployees. cbn.
    now destruct (column (sortState t)).
  - reflexivity.
Qed.

Lemma onSort_sorted (c : Column) (t : DataTable) :
  sorted_by_state toLowerCase (onSort toLowerCase NumberToString c t).
Proof.
  rewrite onSort_eq. cbv zeta. unfold sorted_by_state.
  cbn [sortState filteredEmployees]. intros c' E Hc'.
  unfold sortedRows. rewrite E.
  now apply sort_string_column.
Qed.

Lemma applyFilters_sorted (t : DataTable) :
  sorted_by_state toLowerCase (applyFilters toLowerCase NumberToString t).
Proof.
  rewrite applyFilters_eq. cbv zeta. unfold sorted_by_state.
  cbn [sortState filteredEmployees]. intros c' E Hc'.
  unfold sortedRows. rewrite E.
  now apply sort_string_column.
Qed.

Lemma sorted_by_state_ext (t t' : DataTable) :
  sortState t' = sortState t -> filteredEmployees t' = filteredEmployees t ->
  sorted_by_state toLowerCase t -> sorted_by_state toLowerCase t'.
Proof.
  unfold sorted_by_state. intros E1 E2 H. now rewrite E1, E2.
Qed.

Lemma goToPage_sorted (page : Z) (t : DataTable) :
  sorted_by_state toLowerCase t -> sorted_by_state toLowerCase (goToPage page t).
Proof.
  unfold goToPage.
  destruct ((1 <=? page)%Z && (page <=? totalPages t)%Z); [|auto].
  now apply sorted_by_state_ext.
Qed.

Lemma handle_sorted (t : DataTable) (ev : TableEvent) :
  sorted_by_state toLowerCase t ->
  sorted_by_state toLowerCase (handle toLowerCase NumberToString t ev).
Proof.
  intros H. destruct ev as [| employees | | term | c | page | |];
    cbn [handle].
  - now apply (@sorted_by_state_ext t).
  - unfold onLoaded.
    pose proof (applyFilters_sorted (set_allEmployees employees t)) as Ha.
    destruct (applyFilters toLowerCase NumberToString
                           (set_allEmployees employees t)).
    exact Ha.
  - now apply (@sorted_by_state_ext t).
  - apply applyFilters_sorted.
  - apply onSort_sorted.
  - now apply goToPage_sorted.
  - now apply goToPage_sorted.
  - now apply goToPage_sorted.
Qed.

Lemma run_sorted (events : list TableEvent) (t : DataTable) :
  sorted_by_state toLowerCase t ->
  sorted_by_state toLowerCase
    (fold_left (handle toLowerCase NumberToString) events t).
Proof.
  revert t. induction events as [|ev events IH]; intros t H; [exact H|].
  cbn [fold_left]. apply IH. now apply handle_sorted.
Qed.

Lemma newDataTable_sorted : sorted_by_state toLowerCase newDataTable.
Proof. intros c _ _. constructor. Qed.

(** Two clicks on the header of the column the table is sorted by
    restore the table. *)
Lemma onSort_twice (c : Column) (t : DataTable) :
  paged t -> sorted_by_state toLowerCase t ->
  column (sortState t) = Some c -> c <> ColId ->
  onSort toLowerCase NumberToString c (onSort toLowerCase NumberToString c t)
  = t.
Proof.
  intros Hp Hs Ec Hc. specialize (Hs c Ec Hc).
  pose proof (paged_size Hp) as Hps. pose proof (paged_first Hp) as Hf.
  pose proof (paged_shown Hp) as Hsh.
  assert (E1 : clicked c (sortState t) =
               mkSortState (Some c) (opposite (direction (sortState t)))).
  { unfold clicked. now rewrite Ec, Column_eqb_refl. }
  rewrite (onSort_eq c t). cbv zeta. rewrite E1.
  rewrite onSort_eq. cbv zeta.
  cbn [allEmployees filteredEmployees searchTerm sortState currentPage
       pageSize totalPages isLoading errorMessage].
  assert (E2 : clicked c (mkSortState (Some c)
                            (opposite (direction (sortState t))))
               = sortState t).
  { unfold clicked. cbn [column direction].
    rewrite Column_eqb_refl, opposite_opposite.
    destruct (sortState t) as [col dir]. cbn in Ec |- *. now rewrite Ec. }
  rewrite E2. unfold sortedRows. cbn [column direction]. rewrite Ec.
  rewrite sort_there_and_back by assumption.
  rewrite (@Array_slice_window _ (filteredEmployees t)
             ((currentPage t - 1) * pageSize t) (pageSize t)) by nia.
  rewrite <- Hsh. now destruct t.
Qed.

End SortTwice.


(** ** Remainders and rounding *)

Lemma Qfloor_unique (x : Q) (z : Z) :
  inject_Z z <= x -> x < inject_Z (z + 1) -> Qfloor x = z.
Proof.
  intros H1 H2.
  pose proof (Qfloor_le x) as F1. pose proof (Qlt_floor x) as F2.
  assert (G1 : inject_Z z < inject_Z (Qfloor x + 1))
    by (eapply Qle_lt_trans; eassumption).
  assert (G2 : inject_Z (Qfloor x) < inject_Z (z + 1))
    by (eapply Qle_lt_trans; eassumption).
  rewrite <- Zlt_Qlt in G1, G2. lia.
Qed.

Lemma Qfloor_ratio (m n : Z) (q : Q) :
  (0 < n)%Z -> q * inject_Z n == inject_Z m -> Qfloor q = (m / n)%Z.
Proof.
  intros Hn Hq.
  assert (HN : 0 < inject_Z n) by (change 0 with (inject_Z 0); now rewrite <- Zlt_Qlt).
  pose proof (Z.mul_div_le m n Hn) as D1.
  pose proof (Z.mul_succ_div_gt m n Hn) as D2.
  apply Qfloor_unique.
  - apply (Qmult_le_r _ _ (inject_Z n) HN). rewrite Hq, <- inject_Z_mult.
    rewrite <- Zle_Qle. lia.
  - apply (Qmult_lt_r _ _ (inject_Z n) HN). rewrite Hq, <- inject_Z_mult.
    rewrite <- Zlt_Qlt. lia.
Qed.

Lemma Qtrunc_ratio (m n : Z) (q : Q) :
  (0 < n)%Z -> q * inject_Z n == inject_Z m -> Qtrunc q = Z.quot m n.
Proof.
  intros Hn Hq.
  assert (HN : 0 < inject_Z n) by (change 0 with (inject_Z 0); now rewrite <- Zlt_Qlt).
  unfold Qtrunc. destruct (Qle_bool 0 q) eqn:E.
  - apply Qle_bool_iff in E.
    assert (Hm : (0 <= m)%Z).
    { rewrite Zle_Qle, <- Hq. change (inject_Z 0) with 0.
      apply Qmult_le_0_compat; [exact E | now apply Qlt_le_weak]. }
    rewrite Z.quot_div_nonneg by lia. now apply Qfloor_ratio.
  - assert (Hneg : q < 0).
    { apply Qnot_le_lt. intros H. apply Qle_bool_iff in H. congruence. }
    assert (Hm : (m < 0)%Z).
    { rewrite Zlt_Qlt, <- Hq. change (inject_Z 0) with 0.
      setoid_replace 0 with (0 * inject_Z n) by ring.
      now apply Qmult_lt_r. }
    unfold Qceiling.
    rewrite (@Qfloor_ratio (- m) n (- q) Hn)
      by (rewrite inject_Z_opp, <- Hq; ring).
    replace m with (- - m)%Z at 2 by lia.
    rewrite Z.quot_opp_l by lia. rewrite Z.quot_div_nonneg by lia.
    reflexivity.
Qed.

(** The remainder of two multiples of [a] is the multiple of [a] by the
    remainder of the integers. *)
Lemma rem_multiple (a x y : Q) (m n : Z) :
  0 < a -> (0 < n)%Z ->
  x == inject_Z m * a -> y == inject_Z n * a ->
  exists z, rem (Fin x) (Fin y) = Fin z /\ z == inject_Z (Z.rem m n) * a.
Proof.
  intros Ha Hn Hx Hy.
  assert (HN : 0 < inject_Z n) by (change 0 with (inject_Z 0); now rewrite <- Zlt_Qlt).
  assert (Hy0 : 0 < y) by (rewrite Hy; now apply Qmult_lt_0_compat).
  assert (Hyn : ~ y == 0) by (intros H; rewrite H in Hy0; now apply Qlt_irrefl in Hy0).
  assert (Han : ~ a == 0) by (intros H; rewrite H in Ha; now apply Qlt_irrefl in Ha).
  assert (HNn : ~ inject_Z n == 0)
    by (intros H; rewrite H in HN; now apply Qlt_irrefl in HN).
  unfold rem, is_zero.
  destruct (Qeq_bool y 0) eqn:E; [apply Qeq_bool_iff in E; contradiction|].
  eexists. split; [reflexivity|].
  rewrite (@Qtrunc_ratio m n (x / y) Hn)
    by (rewrite Hx, Hy; field; split; assumption).
  rewrite Hx, Hy.
  pose proof (Z.quot_rem' m n) as Hqr.
  assert (Hr : inject_Z (Z.rem m n) ==
               inject_Z m - inject_Z n * inject_Z (Z.quot m n)).
  { unfold Qminus. rewrite <- inject_Z_mult, <- inject_Z_opp, <- inject_Z_plus.
    apply inject_Z_injective. lia. }
  rewrite Hr. ring.
Qed.

Lemma Math_round_integer (q : Q) (m : Z) :
  q == inject_Z m -> Math_round (Fin q) = Fin (inject_Z m).
Proof.
  intros Hq. unfold Math_round. f_equal. f_equal.
  apply Qfloor_unique.
  - rewrite Hq. rewrite <- (Qplus_0_r (inject_Z m)) at 1.
    apply Qplus_le_r. discriminate.
  - rewrite Hq, inject_Z_plus. apply Qplus_lt_r. reflexivity.
Qed.

Lemma rem_small (m n : Z) :
  (0 <= m < n)%Z ->
  same_number (rem (Fin (inject_Z m)) (Fin (inject_Z n))) (Fin (inject_Z m)).
Proof.
  intros Hm.
  destruct (@rem_multiple 1 (inject_Z m) (inject_Z n) m n) as (z & Ez & Hz);
    try reflexivity; try lia; try (now rewrite Qmult_1_r).
  rewrite Ez. unfold same_number, eqb. apply Qeq_bool_iff.
  rewrite Hz, Z.rem_small by lia. apply Qmult_1_r.
Qed.

Lemma same_number_Fin (a b : Q) : same_number (Fin a) (Fin b) <-> a == b.
Proof. unfold same_number, eqb. apply Qeq_bool_iff. Qed.

Lemma rem_rem_mod (k n : Z) :
  (0 < n)%Z -> Z.rem (Z.rem k n + n) n = (k mod n)%Z.
Proof.
  intros Hn.
  pose proof (Z.rem_bound_abs k n ltac:(lia)) as Hb.
  pose proof (Z.quot_rem' k n) as Hqr.
  rewrite Z.rem_mod_nonneg by lia.
  replace (Z.rem k n + n)%Z with (k + (1 - Z.quot k n) * n)%Z by lia.
  apply Z.mod_add. lia.
Qed.


(** ** The active slide of the carousel *)

Lemma inject_Z_pos (n : nat) : n <> 0%nat -> 0 < inject_Z (Z.of_nat n).
Proof.
  intros Hn. change 0 with (inject_Z 0). rewrite <- Zlt_Qlt. lia.
Qed.

Lemma slideAngle_pos (n : nat) : n <> 0%nat -> 0 < slideAngle n.
Proof.
  intros Hn. unfold slideAngle. apply Qlt_shift_div_l.
  - now apply inject_Z_pos.
  - rewrite Qmult_0_l. reflexivity.
Qed.

Lemma full_circle (n : nat) :
  n <> 0%nat -> 360 == inject_Z (Z.of_nat n) * slideAngle n.
Proof.
  intros Hn. unfold slideAngle. field.
  intros H. pose proof (inject_Z_pos Hn) as Hp. rewrite H in Hp.
  now apply Qlt_irrefl in Hp.
Qed.

Lemma slides_length (c : Carousel) :
  slides c <> [] -> length (slides c) <> 0%nat.
Proof. destruct (slides c); [congruence | discriminate]. Qed.

Lemma div_slideAngle (n : nat) :
  n <> 0%nat -> div (Fin 360) (of_nat n) = Fin (slideAngle n).
Proof.
  intros Hn. unfold div, of_nat. rewrite is_zero_of_nat.
  destruct (Nat.eqb_spec n 0); [contradiction | reflexivity].
Qed.

Lemma div_by_slideAngle (n : nat) (z : Q) :
  n <> 0%nat -> div (Fin z) (Fin (slideAngle n)) = Fin (z / slideAngle n).
Proof.
  intros Hn. unfold div, is_zero.
  destruct (Qeq_bool (slideAngle n) 0) eqn:E; [|reflexivity].
  apply Qeq_bool_iff in E. pose proof (slideAngle_pos Hn) as Hp.
  rewrite E in Hp. now apply Qlt_irrefl in Hp.
Qed.

(** A carousel turned by [k] cards has the slide [k mod n] in front. *)
Lemma getActiveSlideIndex_turned (c : Carousel) (k : Z) :
  turned c k ->
  same_number (getActiveSlideIndex c)
              (Fin (inject_Z (k mod Z.of_nat (length (slides c))))).
Proof.
  intros (Hs & Ha & r & Er & Hr). apply slides_length in Hs.
  set (n := length (slides c)) in *.
  pose proof (slideAngle_pos Hs) as Hpos.
  pose proof (full_circle Hs) as Hfull.
  assert (Hn : (0 < Z.of_nat n)%Z) by lia.
  unfold getActiveSlideIndex. fold n. rewrite Er, Ha. cbn [neg].
  destruct (@rem_multiple (slideAngle n) (- r) 360 k (Z.of_nat n))
    as (z1 & E1 & H1); try assumption.
  { rewrite Hr. ring. }
  rewrite E1. cbn [add].
  destruct (@rem_multiple (slideAngle n) (z1 + 360) 360
                          (Z.rem k (Z.of_nat n) + Z.of_nat n) (Z.of_nat n))
    as (z2 & E2 & H2); try assumption.
  { rewrite inject_Z_plus, H1. rewrite Hfull at 1. ring. }
  rewrite E2. rewrite rem_rem_mod in H2 by exact Hn.
  rewrite div_by_slideAngle by exact Hs.
  rewrite (@Math_round_integer (z2 / slideAngle n) (k mod Z.of_nat n)).
  - apply rem_small. apply Z.mod_pos_bound. exact Hn.
  - rewrite H2. field. intros H. rewrite H in Hpos.
    now apply Qlt_irrefl in Hpos.
Qed.

(** Only the slides, the angle per slide and the rotation matter. *)
Lemma turned_ext (c c' : Carousel) (k : Z) :
  slides c' = slides c -> anglePerSlide c' = anglePerSlide c ->
  rotationAngle c' = rotationAngle c ->
  turned c k -> turned c' k.
Proof.
  intros E1 E2 E3 (Hs & Ha & r & Er & Hr). unfold turned.
  rewrite E1, E2, E3. split; [exact Hs|]. split; [exact Ha|].
  now exists r.
Qed.

Lemma resetAutoPlay_fields (c : Carousel) :
  slides (resetAutoPlay c) = slides c /\
  anglePerSlide (resetAutoPlay c) = anglePerSlide c /\
  rotationAngle (resetAutoPlay c) = rotationAngle c.
Proof.
  unfold resetAutoPlay, startAutoPlay, stopAutoPlay.
  destruct (autoPlaySubscription c); cbn; auto.
Qed.

Lemma stopAutoPlay_fields (c : Carousel) :
  slides (stopAutoPlay c) = slides c /\
  anglePerSlide (stopAutoPlay c) = anglePerSlide c /\
  rotationAngle (stopAutoPlay c) = rotationAngle c.
Proof.
  unfold stopAutoPlay. destruct (autoPlaySubscription c); cbn; auto.
Qed.

(** Setting the rotation of an initialised carousel. *)
Lemma turned_rotation (c : Carousel) (k k' : Z) (r' : Q) :
  turned c k ->
  r' == - (inject_Z k' * slideAngle (length (slides c))) ->
  turned (resetAutoPlay (set_rotationAngle (Fin r') c)) k'.
Proof.
  intros (Hs & Ha & r & Er & Hr) Hr'.
  destruct (resetAutoPlay_fields (set_rotationAngle (Fin r') c))
    as (E1 & E2 & E3).
  unfold turned. rewrite E1, E2, E3. cbn.
  split; [exact Hs|]. split; [exact Ha|]. now exists r'.
Qed.

Lemma turned_nextSlide (c : Carousel) (k : Z) :
  turned c k -> turned (nextSlide c) (k + 1).
Proof.
  intros H. pose proof H as (Hs & Ha & r & Er & Hr).
  unfold nextSlide. rewrite Er, Ha. cbn [sub add neg].
  apply turned_rotation with (k := k); [exact H|].
  rewrite Hr, inject_Z_plus. ring.
Qed.

Lemma turned_prevSlide (c : Carousel) (k : Z) :
  turned c k -> turned (prevSlide c) (k - 1).
Proof.
  intros H. pose proof H as (Hs & Ha & r & Er & Hr).
  unfold prevSlide. rewrite Er, Ha. cbn [add].
  apply turned_rotation with (k := k); [exact H|].
  unfold Z.sub. rewrite Hr, inject_Z_plus, inject_Z_opp. ring.
Qed.

Lemma turned_goToSlide (c : Carousel) (k : Z) (index : nat) :
  turned c k -> turned (goToSlide (of_nat index) c) (Z.of_nat index).
Proof.
  intros H. pose proof H as (Hs & Ha & r & Er & Hr).
  unfold goToSlide, of_nat. rewrite Ha. cbn [mul neg].
  apply turned_rotation with (k := k); [exact H|]. ring.
Qed.

Lemma turned_autoPlayCallback (c : Carousel) (k : Z) :
  turned c k ->
  autoPlayCallback c = c \/ turned (autoPlayCallback c) (k + 1).
Proof.
  intros H. pose proof H as (Hs & Ha & r & Er & Hr).
  unfold autoPlayCallback. destruct (isInteracting c); [now left|right].
  cbn [negb]. rewrite Er, Ha. cbn [sub add neg].
  unfold turned. cbn. split; [exact Hs|]. split; [exact Ha|].
  eexists. split; [reflexivity|]. rewrite Hr, inject_Z_plus. ring.
Qed.

Lemma turned_ngOnInit (c : Carousel) (k : Z) :
  turned c k -> turned (ngOnInit c) k.
Proof.
  intros (Hs & Ha & r & Er & Hr). unfold ngOnInit, startAutoPlay, turned.
  cbn. split; [exact Hs|]. split.
  - apply div_slideAngle. now apply slides_length.
  - now exists r.
Qed.

Lemma turned_new (s : list Slide) :
  s <> [] -> turned (ngOnInit (newCarousel s)) 0.
Proof.
  intros Hs. unfold ngOnInit, startAutoPlay, turned. cbn.
  split; [exact Hs|]. split.
  - apply div_slideAngle. destruct s; [congruence | discriminate].
  - exists 0. split; [reflexivity|]. ring.
Qed.

Lemma handleCarousel_turned (c : Carousel) (ev : CarouselEvent) :
  (exists k, turned c k) -> exists k, turned (handleCarousel c ev) k.
Proof.
  intros (k & H). destruct ev as [| | | | index | | |]; cbn [handleCarousel].
  - exists k. now apply turned_ngOnInit.
  - exists k. destruct (stopAutoPlay_fields c) as (E1 & E2 & E3).
    exact (@turned_ext c (stopAutoPlay c) k E1 E2 E3 H).
  - exists (k + 1)%Z. now apply turned_nextSlide.
  - exists (k - 1)%Z. now apply turned_prevSlide.
  - exists (Z.of_nat index). now apply turned_goToSlide with (k := k).
  - exists k. apply (@turned_ext c (onMouseEnter c) k); [reflexivity..|exact H].
  - exists k. apply (@turned_ext c (onMouseLeave c) k); [reflexivity..|exact H].
  - destruct (liveIntervals c); [now exists k|].
    destruct (turned_autoPlayCallback H) as [E | H'].
    + rewrite E. now exists k.
    + now exists (k + 1)%Z.
Qed.

Lemma handleCarousel_slides (c : Carousel) (ev : CarouselEvent) :
  slides (handleCarousel c ev) = slides c.
Proof.
  destruct ev; cbn [handleCarousel];
    unfold ngOnInit, ngOnDestroy, nextSlide, prevSlide, goToSlide,
           resetAutoPlay, startAutoPlay, stopAutoPlay, onMouseEnter,
           onMouseLeave, autoPlayCallback; cbn;
    try reflexivity.
  - now destruct (autoPlaySubscription c).
  - now destruct (autoPlaySubscription c).
  - now destruct (autoPlaySubscription c).
  - now destruct (autoPlaySubscription c).
  - destruct (liveIntervals c); [reflexivity|].
    now destruct (isInteracting c).
Qed.

Lemma run_slides (events : list CarouselEvent) (c : Carousel) :
  slides (fold_left handleCarousel events c) = slides c.
Proof.
  revert c. induction events as [|ev events IH]; intros c; [reflexivity|].
  cbn [fold_left]. rewrite IH. apply handleCarousel_slides.
Qed.

Lemma run_turned (events : list CarouselEvent) (c : Carousel) :
  (exists k, turned c k) ->
  exists k, turned (fold_left handleCarousel events c) k.
Proof.
  revert c. induction events as [|ev events IH]; intros c H; [exact H|].
  cbn [fold_left]. apply IH. now apply handleCarousel_turned.
Qed.

(** ** The front card *)

Lemma cardAngle_turned (c : Carousel) (k : Z) (j : nat) :
  turned c k ->
  exists q, cardAngle c (of_nat j) = Fin q /\
            q == inject_Z (Z.of_nat j - k) * slideAngle (length (slides c)).
Proof.
  intros (Hs & Ha & r & Er & Hr). unfold cardAngle, of_nat.
  rewrite Ha, Er. cbn [mul add]. eexists. split; [reflexivity|].
  unfold Z.sub. rewrite Hr, inject_Z_plus, inject_Z_opp. ring.
Qed.

Lemma full_turns_turned (c : Carousel) (k : Z) (j : nat) :
  turned c k ->
  full_turns (cardAngle c (of_nat j)) <->
  exists m, (Z.of_nat j - k = Z.of_nat (length (slides c)) * m)%Z.
Proof.
  intros H. destruct (cardAngle_turned j H) as (q & Eq & Hq).
  destruct H as (Hs & _). apply slides_length in Hs.
  set (n := length (slides c)) in *.
  pose proof (slideAngle_pos Hs) as Hpos.
  pose proof (full_circle Hs) as Hfull.
  assert (Hne : ~ slideAngle n == 0)
    by (intros E; rewrite E in Hpos; now apply Qlt_irrefl in Hpos).
  unfold full_turns. rewrite Eq. split.
  - intros (q' & m & E & Hm). injection E as <-. exists m.
    apply inject_Z_injective. rewrite inject_Z_mult.
    apply (Qmult_inj_r _ _ (slideAngle n) Hne).
    rewrite <- Hq, Hm. rewrite Hfull at 1. ring.
  - intros (m & Hm). exists q, m. split; [reflexivity|].
    rewrite Hq, Hm, inject_Z_mult. rewrite Hfull at 1. ring.
Qed.

(** ** Before [ngOnInit] *)

Lemma getActiveSlideIndex_no_angle (c : Carousel) :
  anglePerSlide c = Fin 0 -> finite (rotationAngle c) ->
  getActiveSlideIndex c = NaN.
Proof.
  intros Ha [r Er]. unfold getActiveSlideIndex. rewrite Ha, Er.
  cbn [neg]. unfold rem at 3. cbn [is_zero Qeq_bool].
  change (is_zero 360) with false. cbv iota. cbn [add].
  unfold rem at 2. change (is_zero 360) with false. cbv iota.
  unfold div. change (is_zero 0) with true. cbv iota.
  match goal with |- context [sign ?x] => destruct (sign x) as [[|]|] end;
    reflexivity.
Qed.

Lemma handleCarousel_no_angle (c : Carousel) (ev : CarouselEvent) :
  ev <> Init ->
  anglePerSlide c = Fin 0 /\ finite (rotationAngle c) ->
  anglePerSlide (handleCarousel c ev) = Fin 0 /\
  finite (rotationAngle (handleCarousel c ev)).
Proof.
  intros Hev [Ha [r Er]].
  assert (Hset : forall v, finite v ->
            anglePerSlide (resetAutoPlay (set_rotationAngle v c)) = Fin 0 /\
            finite (rotationAngle (resetAutoPlay (set_rotationAngle v c)))).
  { intros v Hv.
    destruct (resetAutoPlay_fields (set_rotationAngle v c)) as (_ & E2 & E3).
    rewrite E2, E3. now split. }
  destruct ev as [| | | | index | | |]; cbn [handleCarousel].
  - congruence.
  - unfold ngOnDestroy. destruct (stopAutoPlay_fields c) as (_ & E2 & E3).
    rewrite E2, E3. split; [exact Ha | now exists r].
  - unfold nextSlide. rewrite Ha, Er. apply Hset. now eexists.
  - unfold prevSlide. rewrite Ha, Er. apply Hset. now eexists.
  - unfold goToSlide, of_nat. rewrite Ha. apply Hset. now eexists.
  - split; [exact Ha | now exists r].
  - split; [exact Ha | now exists r].
  - destruct (liveIntervals c); [split; [exact Ha | now exists r]|].
    unfold autoPlayCallback.
    destruct (isInteracting c); cbn [negb]; [split; [exact Ha | now exists r]|].
    cbn. split; [exact Ha|]. rewrite Ha, Er. cbn. now eexists.
Qed.

Lemma run_no_angle (events : list CarouselEvent) (c : Carousel) :
  no_Init events ->
  anglePerSlide c = Fin 0 /\ finite (rotationAngle c) ->
  anglePerSlide (fold_left handleCarousel events c) = Fin 0 /\
  finite (rotationAngle (fold_left handleCarousel events c)).
Proof.
  intros Hno. revert c.
  induction Hno as [|ev events Hev _ IH]; intros c H; [exact H|].
  cbn [fold_left]. apply IH. now apply handleCarousel_no_angle.
Qed.

(** ** The intervals of the auto-play *)

Lemma handleCarousel_one_interval (c : Carousel) (ev : CarouselEvent) :
  ev <> Init -> one_interval c -> one_interval (handleCarousel c ev).
Proof.
  unfold one_interval. intros Hev H.
  destruct ev; cbn [handleCarousel]; try congruence;
    unfold ngOnDestroy, nextSlide, prevSlide, goToSlide, resetAutoPlay,
           startAutoPlay, stopAutoPlay, set_rotationAngle, onMouseEnter,
           onMouseLeave, set_isInteracting, autoPlayCallback; cbn;
    try exact H.
  - destruct (autoPlaySubscription c) eqn:E; cbn; rewrite ?E;
      [now rewrite H | exact H].
  - destruct (autoPlaySubscription c) eqn:E; cbn; now rewrite H.
  - destruct (autoPlaySubscription c) eqn:E; cbn; now rewrite H.
  - destruct (autoPlaySubscription c) eqn:E; cbn; now rewrite H.
  - destruct (liveIntervals c) eqn:E; [now rewrite E|].
    destruct (isInteracting c); cbn; now rewrite E.
Qed.

Lemma run_one_interval (events : list CarouselEvent) (c : Carousel) :
  no_Init events -> one_interval c ->
  one_interval (fold_left handleCarousel events c).
Proof.
  intros Hno. revert c.
  induction Hno as [|ev events Hev _ IH]; intros c H; [exact H|].
  cbn [fold_left]. apply IH. now apply handleCarousel_one_interval.
Qed.


(** ** Stepping through the slides *)

Lemma same_number_Fin_r (x : number) (b : Q) :
  same_number x (Fin b) -> exists a, x = Fin a /\ a == b.
Proof.
  unfold same_number. destruct x as [a| | |]; cbn; try discriminate.
  intros H. exists a. split; [reflexivity | now apply Qeq_bool_iff].
Qed.

Lemma active_index (c : Carousel) (k : Z) :
  turned c k ->
  exists a, getActiveSlideIndex c = Fin a /\
            a == inject_Z (k mod Z.of_nat (length (slides c))).
Proof.
  intros H. apply same_number_Fin_r. now apply getActiveSlideIndex_turned.
Qed.

Lemma nextSlide_slides (c : Carousel) : slides (nextSlide c) = slides c.
Proof. apply (handleCarousel_slides c NextSlide). Qed.

Lemma prevSlide_slides (c : Carousel) : slides (prevSlide c) = slides c.
Proof. apply (handleCarousel_slides c PrevSlide). Qed.

Lemma goToSlide_slides (c : Carousel) (index : nat) :
  slides (goToSlide (of_nat index) c) = slides c.
Proof. apply (handleCarousel_slides c (GoToSlide index)). Qed.

Lemma active_steps (c : Carousel) (k : Z) :
  turned c k ->
  exists i : nat,
    (i < length (slides c))%nat /\
    same_number (getActiveSlideIndex c) (of_nat i) /\
    same_number (getActiveSlideIndex (nextSlide c))
                (of_nat ((i + 1) mod length (slides c))) /\
    same_number (getActiveSlideIndex (prevSlide c))
                (of_nat ((i + length (slides c) - 1) mod length (slides c))).
Proof.
  intros H. pose proof H as (Hs & _). apply slides_length in Hs.
  pose proof (getActiveSlideIndex_turned H) as A0.
  pose proof (getActiveSlideIndex_turned (turned_nextSlide H)) as A1.
  pose proof (getActiveSlideIndex_turned (turned_prevSlide H)) as A2.
  rewrite nextSlide_slides in A1. rewrite prevSlide_slides in A2.
  set (n := length (slides c)) in *.
  assert (Hn : (0 < Z.of_nat n)%Z) by lia.
  pose proof (Z.mod_pos_bound k (Z.of_nat n) Hn) as Hb.
  exists (Z.to_nat (k mod Z.of_nat n)).
  assert (Ei : Z.of_nat (Z.to_nat (k mod Z.of_nat n)) = (k mod Z.of_nat n)%Z)
    by lia.
  split; [lia|]. unfold of_nat. split; [|split].
  - now rewrite Ei.
  - rewrite Nat2Z.inj_mod, Nat2Z.inj_add, Ei.
    change (Z.of_nat 1) with 1%Z.
    now rewrite Zplus_mod_idemp_l.
  - rewrite Nat2Z.inj_mod, Nat2Z.inj_sub, Nat2Z.inj_add, Ei by lia.
    change (Z.of_nat 1) with 1%Z.
    replace (k mod Z.of_nat n + Z.of_nat n - 1)%Z
      with (k mod Z.of_nat n + (Z.of_nat n - 1))%Z by lia.
    rewrite Zplus_mod_idemp_l.
    replace (k + (Z.of_nat n - 1))%Z with (k - 1 + 1 * Z.of_nat n)%Z by lia.
    rewrite Z.mod_add by lia. exact A2.
Qed.

Lemma goToSlide_active (c : Carousel) (k : Z) (index : nat) :
  turned c k -> (index < length (slides c))%nat ->
  same_number (getActiveSlideIndex (goToSlide (of_nat index) c))
              (of_nat index).
Proof.
  intros H Hi.
  pose proof (getActiveSlideIndex_turned (turned_goToSlide index H)) as A.
  rewrite goToSlide_slides in A.
  rewrite Z.mod_small in A by lia. exact A.
Qed.

Lemma front_card (c : Carousel) (k : Z) (j : nat) :
  turned c k -> (j < length (slides c))%nat ->
  full_turns (cardAngle c (of_nat j)) <->
  same_number (getActiveSlideIndex c) (of_nat j).
Proof.
  intros H Hj. rewrite (full_turns_turned j H).
  destruct (active_index H) as (a & Ea & Ha). rewrite Ea.
  unfold of_nat. rewrite same_number_Fin, Ha.
  set (n := Z.of_nat (length (slides c))) in *.
  assert (Hn : (0 < n)%Z) by (unfold n; lia).
  split.
  - intros (m & Hm). apply inject_Z_injective.
    replace k with (Z.of_nat j + (- m) * n)%Z by lia.
    rewrite Z.mod_add by lia. apply Z.mod_small. unfold n. lia.
  - intros E. rewrite inject_Z_injective in E.
    exists (- (k / n))%Z. pose proof (Z.div_mod k n ltac:(lia)) as D.
    rewrite E in D. rewrite Z.mul_opp_r. lia.
Qed.


(** ** The ranking for any scores *)

Lemma StronglySorted_impl_on (A : Type) (P : A -> Prop) (R R' : A -> A -> Prop)
      (l : list A) :
  (forall a b, P a -> P b -> R a b -> R' a b) ->
  Forall P l -> StronglySorted R l -> StronglySorted R' l.
Proof.
  intros HR HP Hs. induction Hs as [|x l Hs IH Hx]; [constructor|].
  inversion HP as [|? ? Px Pl]; subst. constructor; [now apply IH|].
  rewrite Forall_forall in *. intros y Hy. apply HR; auto.
Qed.

Section ScoredRanking.

Variable matchScore : jsstring -> jsstring -> number.
Variable threshold : number.

Lemma bestScore_by_value (term : jsstring) (e : Employee) :
  scored matchScore term e ->
  bestScore_by matchScore term e = Fin (recordScore_by matchScore term e).
Proof.
  intros H. unfold recordScore_by, bestScore_by.
  unfold scored, scores_by in *.
  destruct (Math_max_Fin H) as (r & -> & _). reflexivity.
Qed.

Lemma byBestScore_by_precede (term : jsstring) (x y : Employee) :
  scored matchScore term x -> scored matchScore term y ->
  may_precede (byBestScore_by matchScore term) x y <->
  recordScore_by matchScore term y <= recordScore_by matchScore term x.
Proof.
  intros Hx Hy. unfold may_precede, byBestScore_by.
  rewrite (bestScore_by_value Hx), (bestScore_by_value Hy).
  change (sub (Fin ?a) (Fin ?b)) with (Fin (a + - b)).
  rewrite gtb_Fin_false. split; intros H; lra.
Qed.

(** The loop of [searchEmployees] is a filter. *)
Lemma collect_by_filter (term : jsstring) (l : list Employee) :
  collect_by matchScore threshold term l =
  map (fun e => mkFuzzyResult e (bestScore_by matchScore term e))
      (filter (kept_by matchScore threshold term) l).
Proof.
  exact (push_loop (kept_by matchScore threshold term)
           (fun e => mkFuzzyResult e (bestScore_by matchScore term e)) l []).
Qed.

Lemma searchEmployees_by_ranked (l : list Employee) (q : jsstring) :
  trim q <> [] ->
  searchEmployees_by matchScore threshold l q =
  Array_sort (byBestScore_by matchScore (trim q))
             (filter (kept_by matchScore threshold (trim q)) l).
Proof.
  intros Hq. unfold searchEmployees_by.
  destruct (trim q) as [|c term] eqn:E; [congruence|].
  cbn [truthy negb]. cbv zeta. rewrite collect_by_filter.
  rewrite (Array_sort_map
             (fun e => mkFuzzyResult e (bestScore_by matchScore (c :: term) e))
             (byBestScore_by matchScore (c :: term)) byScore);
    [|reflexivity].
  rewrite map_map. simpl. apply map_id.
Qed.

(** Sorted by score, the greatest first, and stable: for scores of any
    origin, provided they are finite numbers. *)
Lemma ranking_by_sorted_stable (employees : list Employee) (query : jsstring) :
  trim query <> [] ->
  (forall e, In e employees -> scored matchScore (trim query) e) ->
  let term := trim query in
  let out := searchEmployees_by matchScore threshold employees query in
  (forall e, In e employees ->
             bestScore_by matchScore term e =
             Fin (recordScore_by matchScore term e)) /\
  StronglySorted (descending (recordScore_by matchScore term)) out /\
  (forall v : Q,
      withScore_by matchScore term v out =
      withScore_by matchScore term v
                   (filter (kept_by matchScore threshold term) employees)).
Proof.
  intros Hq Hsc term out. unfold out, term.
  rewrite searchEmployees_by_ranked by exact Hq.
  set (t := trim query) in *.
  set (kl := filter (kept_by matchScore threshold t) employees).
  assert (Hkl : Forall (scored matchScore t) kl).
  { apply Forall_forall. intros e He. apply filter_In in He.
    apply Hsc. tauto. }
  split; [|split].
  - intros e He. apply bestScore_by_value. now apply Hsc.
  - apply StronglySorted_impl_on
      with (P := scored matchScore t)
           (R := may_precede (byBestScore_by matchScore t)).
    + intros a b Ha Hb H. unfold descending.
      now apply byBestScore_by_precede in H.
    + eapply Permutation_Forall; [symmetry; apply Array_sort_perm|].
      exact Hkl.
    + apply Array_sort_ordered with (P := scored matchScore t);
        [| |exact Hkl].
      * intros x y Hx Hy.
        rewrite !byBestScore_by_precede by assumption.
        destruct (Qlt_le_dec (recordScore_by matchScore t x)
                             (recordScore_by matchScore t y)) as [H|H].
        -- right. now apply Qlt_le_weak.
        -- now left.
      * intros x y z Hx Hy Hz.
        rewrite !byBestScore_by_precede by assumption.
        intros H1 H2. eapply Qle_trans; eassumption.
  - intros v. unfold withScore_by.
    apply Array_sort_stable_class with (P := scored matchScore t);
      [|exact Hkl].
    intros x y Hx Hy Ex Ey. apply byBestScore_by_precede; [assumption..|].
    apply Qeq_bool_iff in Ex, Ey. rewrite Ex, Ey. apply Qle_refl.
Qed.

End ScoredRanking.

(** [searchEmployees] above is the instance at the exact scores. *)
Lemma searchEmployees_by_exact (toLowerCase : jsstring -> jsstring)
      (employees : list Employee) (searchTerm : jsstring) :
  searchEmployees_by (fuzzyMatchScore toLowerCase) fuzzyThreshold
                     employees searchTerm
  = searchEmployees toLowerCase employees searchTerm.
Proof. reflexivity. Qed.

Lemma scored_exact (toLowerCase : jsstring -> jsstring)
      (term : jsstring) (e : Employee) :
  scored (fuzzyMatchScore toLowerCase) term e.
Proof. exact (scores_finite toLowerCase term e). Qed.


(** ** Exact scores and doubles

    The two records [tieA] and [tieB] have the same exact score, so that
    the exact embedding leaves them in their order; the doubles of the
    code differ in the last place, and the code returns [tieB] first. *)

Example exact_scores_tie :
  recordScore toLowerCaseASCII (lit "abcdef") tieA ==
  recordScore toLowerCaseASCII (lit "abcdef") tieB /\
  searchEmployees toLowerCaseASCII [tieA; tieB] (lit "abcdef") = [tieA; tieB].
Proof. split; vm_compute; reflexivity. Qed.

Example doubles_split_tie :
  recordScore_by (F64.score toLowerCaseASCII) (lit "abcdef") tieA <
  recordScore_by (F64.score toLowerCaseASCII) (lit "abcdef") tieB /\
  searchEmployees_by (F64.score toLowerCaseASCII) F64.fuzzyThreshold
                     [tieA; tieB] (lit "abcdef") = [tieB; tieA].
Proof. split; vm_compute; reflexivity. Qed.

Lemma doubles_scored (e : Employee) :
  In e [tieA; tieB] ->
  scored (F64.score toLowerCaseASCII) (trim (lit "abcdef")) e.
Proof.
  intros [<- | [<- | []]]; vm_compute; repeat constructor;
    eexists; reflexivity.
Qed.

(** The ranking lemma applies to the doubles. *)
Example doubles_ranked :
  let term := trim (lit "abcdef") in
  let out := searchEmployees_by (F64.score toLowerCaseASCII)
                                F64.fuzzyThreshold [tieA; tieB]
                                (lit "abcdef") in
  StronglySorted (descending (recordScore_by (F64.score toLowerCaseASCII) term))
                 out /\
  (forall v : Q,
      withScore_by (F64.score toLowerCaseASCII) term v out =
      withScore_by (F64.score toLowerCaseASCII) term v
        (filter (kept_by (F64.score toLowerCaseASCII) F64.fuzzyThreshold term)
                [tieA; tieB])).
Proof.
  assert (Hq : trim (lit "abcdef") <> []) by (vm_compute; discriminate).
  exact (proj2 (@ranking_by_sorted_stable (F64.score toLowerCaseASCII)
                  F64.fuzzyThreshold [tieA; tieB] (lit "abcdef") Hq
                  doubles_scored)).
Qed.


(** ** The three high scores *)

Section HighScores.

Variable toLowerCase : jsstring -> jsstring.

Lemma score_exact_iff (q t : jsstring) :
  fuzzyMatchScore toLowerCase q t = Fin 1.0 <->
  tier (toLowerCase q) (toLowerCase t) = Exact.
Proof.
  split; intros E.
  - assert (Hv : 0.8 < 1.0) by reflexivity.
    pose proof (score_tier toLowerCase q t Hv E) as H.
    destruct (tier (toLowerCase q) (toLowerCase t));
      try reflexivity; try contradiction; discriminate.
  - pose proof (score_of_tier toLowerCase q t) as H. now rewrite E in H.
Qed.

Lemma score_substring_iff (q t : jsstring) :
  fuzzyMatchScore toLowerCase q t = Fin 0.9 <->
  tier (toLowerCase q) (toLowerCase t) = Substring.
Proof.
  split; intros E.
  - assert (Hv : 0.8 < 0.9) by reflexivity.
    pose proof (score_tier toLowerCase q t Hv E) as H.
    destruct (tier (toLowerCase q) (toLowerCase t));
      try reflexivity; try contradiction; discriminate.
  - pose proof (score_of_tier toLowerCase q t) as H. now rewrite E in H.
Qed.

Lemma score_prefix_iff (q t : jsstring) :
  fuzzyMatchScore toLowerCase q t = Fin 0.85 <->
  tier (toLowerCase q) (toLowerCase t) = Prefix.
Proof.
  split; intros E.
  - assert (Hv : 0.8 < 0.85) by reflexivity.
    pose proof (score_tier toLowerCase q t Hv E) as H.
    destruct (tier (toLowerCase q) (toLowerCase t));
      try reflexivity; try contradiction; discriminate.
  - pose proof (score_of_tier toLowerCase q t) as H. now rewrite E in H.
Qed.

End HighScores.

Lemma secondOfTwo_paged : paged secondOfTwo.
Proof. constructor; cbn; try lia; reflexivity. Qed.

Lemma firstOfTwo_paged : paged firstOfTwo.
Proof. constructor; cbn; try lia; reflexivity. Qed.

(** ** Further properties of the search service *)

Unset Implicit Arguments.

(** X1: [levenshteinDistance(str1, str2)] is the least number of
    single-unit edits (insertions, deletions, replacements) that turn
    [str1] into [str2]: some edit script has this length and none is
    shorter. *)
Theorem levenshteinDistance_minimal_edits :
  forall str1 str2 : jsstring,
    Edits str1 str2 (levenshteinDistance str1 str2) /\
    forall k : nat,
      Edits str1 str2 k -> (levenshteinDistance str1 str2 <= k)%nat.
Proof.
  intros str1 str2. split.
  - apply levenshteinDistance_Edits.
  - intros k. apply levenshteinDistance_least.
Qed.

(** X2: the matrix filled by [levenshteinDistance] computes the
    recurrence on the last units: against the empty string the distance
    is the length of the other string; two strings ending in the same
    unit are as far apart as without it; otherwise one more than the
    least of the three distances with a last unit dropped. *)
Theorem levenshteinDistance_recurrence :
  forall (str1 str2 : jsstring) (c d : N),
    levenshteinDistance str1 [] = length str1 /\
    levenshteinDistance [] str2 = length str2 /\
    levenshteinDistance (str1 ++ [c]) (str2 ++ [d]) =
      if N.eqb c d then levenshteinDistance str1 str2
      else (1 + Nat.min (levenshteinDistance str1 (str2 ++ [d]))
                        (Nat.min (levenshteinDistance (str1 ++ [c]) str2)
                                 (levenshteinDistance str1 str2)))%nat.
Proof.
  intros str1 str2 c d. rewrite !levenshteinDistance_lev.
  rewrite !rev_app_distr. cbn [rev app]. split; [|split].
  - rewrite lev_nil_r. apply length_rev.
  - cbn [lev]. apply length_rev.
  - apply lev_cons.
Qed.

(** X3: [levenshteinDistance] is zero exactly for equal strings. *)
Theorem levenshteinDistance_zero_iff :
  forall str1 str2 : jsstring,
    levenshteinDistance str1 str2 = 0%nat <-> str1 = str2.
Proof.
  intros str1 str2. rewrite levenshteinDistance_lev. split.
  - intros H. apply lev_zero in H.
    rewrite <- (rev_involutive str1), H. apply rev_involutive.
  - intros ->. apply lev_refl.
Qed.

(** X4: [levenshteinDistance] does not depend on the order of its
    arguments. *)
Theorem levenshteinDistance_symmetric :
  forall str1 str2 : jsstring,
    levenshteinDistance str1 str2 = levenshteinDistance str2 str1.
Proof.
  intros str1 str2. rewrite !levenshteinDistance_lev. apply lev_sym.
Qed.

(** X5: [levenshteinDistance] is at least the difference of the two
    lengths and at most the greater length. *)
Theorem levenshteinDistance_bounds :
  forall str1 str2 : jsstring,
    (length str1 - length str2 <= levenshteinDistance str1 str2)%nat /\
    (length str2 - length str1 <= levenshteinDistance str1 str2)%nat /\
    (levenshteinDistance str1 str2
     <= Nat.max (length str1) (length str2))%nat.
Proof.
  intros str1 str2. rewrite levenshteinDistance_lev.
  pose proof (lev_bounds (rev str1) (rev str2)) as H.
  now rewrite !length_rev in H.
Qed.

(** X6: [levenshteinDistance] satisfies the triangle inequality. *)
Theorem levenshteinDistance_triangle :
  forall s t u : jsstring,
    (levenshteinDistance s u
     <= levenshteinDistance s t + levenshteinDistance t u)%nat.
Proof.
  intros s t u. apply levenshteinDistance_triangle_aux.
Qed.

(** X7: [fuzzyMatchScore] returns 1.0 exactly when the two lower-cased
    strings are equal. *)
Theorem fuzzyMatchScore_one_iff :
  forall (toLowerCase : jsstring -> jsstring) (searchTerm target : jsstring),
    fuzzyMatchScore toLowerCase searchTerm target = Fin 1.0 <->
    toLowerCase searchTerm = toLowerCase target.
Proof.
  intros toLowerCase searchTerm target.
  rewrite score_exact_iff. apply tier_Exact_iff.
Qed.

(** X8: [fuzzyMatchScore] returns 0.9 exactly when the lower-cased
    target contains the lower-cased search term and differs from it. *)
Theorem fuzzyMatchScore_substring_iff :
  forall (toLowerCase : jsstring -> jsstring) (searchTerm target : jsstring),
    fuzzyMatchScore toLowerCase searchTerm target = Fin 0.9 <->
    toLowerCase searchTerm <> toLowerCase target /\
    exists l r : jsstring,
      toLowerCase target = l ++ toLowerCase searchTerm ++ r.
Proof.
  intros toLowerCase searchTerm target.
  rewrite score_substring_iff. apply tier_Substring_iff.
Qed.

(** X9: [fuzzyMatchScore] returns 0.85 exactly when the lower-cased
    search term is the lower-cased target followed by at least one more
    unit.  Of the two tests [text.startsWith(search)] and
    [search.startsWith(text)], only the second ever decides: when the
    first holds, the substring test before it has already returned. *)
Theorem fuzzyMatchScore_prefix_iff :
  forall (toLowerCase : jsstring -> jsstring) (searchTerm target : jsstring),
    fuzzyMatchScore toLowerCase searchTerm target = Fin 0.85 <->
    exists r : jsstring,
      r <> [] /\ toLowerCase searchTerm = toLowerCase target ++ r.
Proof.
  intros toLowerCase searchTerm target.
  rewrite score_prefix_iff. apply tier_Prefix_iff.
Qed.

(** X10: for the empty search string [subsequenceMatchScore] returns
    [NaN], whatever the text: the bonus is [0 / 0]. *)
Theorem subsequenceMatchScore_empty_is_NaN :
  forall text : jsstring, subsequenceMatchScore [] text = NaN.
Proof.
  intros text. apply subsequenceMatchScore_empty_search.
Qed.

(** X11: for a non-empty search string [subsequenceMatchScore] returns a
    number between 0 and 1, which is positive exactly when the search
    string is an ordered subsequence of the text. *)
Theorem subsequenceMatchScore_positive_iff :
  forall search text : jsstring,
    search <> [] ->
    exists r : Q,
      subsequenceMatchScore search text = Fin r /\
      0 <= r /\ r <= 1 /\ (0 < r <-> Subsequence search text).
Proof.
  intros search text H. now apply subsequenceMatchScore_nonempty_search.
Qed.

Lemma subsequenceMatchScore_positive_iff_witness :
  lit "jn" <> [] /\
  exists r : Q,
    subsequenceMatchScore (lit "jn") (lit "john") = Fin r /\
    0 <= r /\ r <= 1 /\ (0 < r <-> Subsequence (lit "jn") (lit "john")).
Proof.
  assert (H : lit "jn" <> []) by (vm_compute; discriminate).
  split; [exact H|].
  exact (subsequenceMatchScore_positive_iff (lit "jn") (lit "john") H).
Defined.

(** X12: for a query that is not blank, [searchEmployees] returns every
    record one of whose seven searched strings matches the trimmed
    query, lower-cased, as an ordered subsequence or as a string the
    query starts with. *)
Theorem searchEmployees_keeps_matches :
  forall (toLowerCase : jsstring -> jsstring)
         (employees : list Employee) (searchTerm : jsstring)
         (e : Employee) (f : jsstring),
    trim searchTerm <> [] ->
    In e employees ->
    In f (fields e) ->
    Subsequence (toLowerCase (trim searchTerm)) (toLowerCase f) \/
    startsWith (toLowerCase (trim searchTerm)) (toLowerCase f) = true ->
    In e (searchEmployees toLowerCase employees searchTerm).
Proof.
  intros toLowerCase employees searchTerm e f Hq He Hf Hm.
  exact (@matching_record_kept toLowerCase employees searchTerm e f
                               Hq He Hf Hm).
Qed.

Lemma searchEmployees_keeps_matches_witness :
  trim (lit " jon ") <> [] /\
  In jon staff /\
  In (first_name jon) (fields jon) /\
  (Subsequence (toLowerCaseASCII (trim (lit " jon ")))
               (toLowerCaseASCII (first_name jon)) \/
   startsWith (toLowerCaseASCII (trim (lit " jon ")))
              (toLowerCaseASCII (first_name jon)) = true) /\
  In jon (searchEmployees toLowerCaseASCII staff (lit " jon ")).
Proof.
  assert (H1 : trim (lit " jon ") <> []) by (vm_compute; discriminate).
  assert (H2 : In jon staff) by (cbn; auto).
  assert (H3 : In (first_name jon) (fields jon)) by (cbn; auto).
  assert (H4 : Subsequence (toLowerCaseASCII (trim (lit " jon ")))
                           (toLowerCaseASCII (first_name jon)) \/
               startsWith (toLowerCaseASCII (trim (lit " jon ")))
                          (toLowerCaseASCII (first_name jon)) = true)
    by (right; vm_compute; reflexivity).
  split; [exact H1|]. split; [exact H2|]. split; [exact H3|].
  split; [exact H4|].
  exact (searchEmployees_keeps_matches toLowerCaseASCII staff (lit " jon ")
                                       jon (first_name jon) H1 H2 H3 H4).
Defined.

(** X13: for a query that is not blank, the first record returned by
    [searchEmployees] has the highest score of all the records
    searched. *)
Theorem searchEmployees_first_is_best :
  forall (toLowerCase : jsstring -> jsstring)
         (employees : list Employee) (searchTerm : jsstring)
         (x : Employee) (rest : list Employee) (e : Employee),
    trim searchTerm <> [] ->
    searchEmployees toLowerCase employees searchTerm = x :: rest ->
    In e employees ->
    recordScore toLowerCase (trim searchTerm) e
    <= recordScore toLowerCase (trim searchTerm) x.
Proof.
  intros toLowerCase employees searchTerm x rest e Hq Hout He.
  exact (first_is_best toLowerCase employees searchTerm x rest e Hq Hout He).
Qed.

Lemma searchEmployees_first_is_best_witness :
  trim (lit "jon") <> [] /\
  searchEmployees toLowerCaseASCII staff (lit "jon") = jon :: [john] /\
  In mary staff /\
  recordScore toLowerCaseASCII (trim (lit "jon")) mary
  <= recordScore toLowerCaseASCII (trim (lit "jon")) jon.
Proof.
  assert (H1 : trim (lit "jon") <> []) by (vm_compute; discriminate).
  assert (H2 : searchEmployees toLowerCaseASCII staff (lit "jon")
               = jon :: [john]) by (vm_compute; reflexivity).
  assert (H3 : In mary staff) by (cbn; auto).
  split; [exact H1|]. split; [exact H2|]. split; [exact H3|].
  exact (searchEmployees_first_is_best toLowerCaseASCII staff (lit "jon")
                                       jon [john] mary H1 H2 H3).
Defined.

(** ** Further properties of the data table *)

(** X14: whatever the sequence of loads, searches, sorts and page
    changes, the table stays consistent: the page size is positive, the
    number of pages is the number of filtered records divided by the
    page size, rounded up; the current page is at least 1 and at most the
    number of pages (1 when there is none); the records displayed are
    the slice of the filtered records for the current page; the filtered
    records are the records found by the search for the current search
    term, in some order; and when the table is sorted by a string column
    they are in the order of this column and direction. *)
Theorem table_consistent :
  forall (toLowerCase : jsstring -> jsstring)
         (NumberToString : number -> jsstring)
         (events : list TableEvent),
    table_ok toLowerCase (reached toLowerCase NumberToString events) /\
    sorted_by_state toLowerCase (reached toLowerCase NumberToString events).
Proof.
  intros toLowerCase NumberToString events. unfold reached. split.
  - apply run_ok. apply newDataTable_ok.
  - apply run_sorted. apply newDataTable_sorted.
Qed.

(** X15: in every state the table reaches, going through the pages from
    1 to [totalPages] shows every filtered record exactly once and in
    order: the pages, put end to end, are the filtered records. *)
Theorem pages_partition :
  forall (toLowerCase : jsstring -> jsstring)
         (NumberToString : number -> jsstring)
         (events : list TableEvent),
    let t := reached toLowerCase NumberToString events in
    concat (map (fun page => displayedEmployees (goToPage page t))
                (pushRange 1 (totalPages t)))
    = filteredEmployees t.
Proof.
  intros toLowerCase NumberToString events t.
  apply pages_concat. apply ok_paged with (toLowerCase := toLowerCase).
  apply run_ok. apply newDataTable_ok.
Qed.

(** X16: in every state the table reaches, the page shows ten records,
    or the records left from the start of the page if these are fewer. *)
Theorem page_length :
  forall (toLowerCase : jsstring -> jsstring)
         (NumberToString : number -> jsstring)
         (events : list TableEvent),
    let t := reached toLowerCase NumberToString events in
    Z.of_nat (length (displayedEmployees t)) =
    Z.min 10 (Z.of_nat (length (filteredEmployees t))
              - (currentPage t - 1) * 10)%Z.
Proof.
  intros toLowerCase NumberToString events t.
  assert (Hp : paged t).
  { apply ok_paged with (toLowerCase := toLowerCase).
    apply run_ok. apply newDataTable_ok. }
  assert (Hs : pageSize t = 10%Z)
    by (unfold t, reached; now rewrite run_pageSize).
  pose proof (paged_length Hp) as Hl.
  destruct (paged_total_bounds Hp) as [[Hb1 Hb2] H0].
  pose proof (paged_first Hp) as Hf. pose proof (paged_last Hp) as Hla.
  rewrite Hs in *. rewrite Hl. lia.
Qed.

(** X17: [previousPage] followed by [nextPage] is the identity on a
    consistent table that is not on its first page. *)
Theorem nextPage_undoes_previousPage :
  forall t : DataTable,
    paged t -> (1 < currentPage t <= totalPages t)%Z ->
    nextPage (previousPage t) = t.
Proof.
  intros t H Hc. now apply nextPage_previousPage.
Qed.

Lemma nextPage_undoes_previousPage_witness :
  paged secondOfTwo /\
  (1 < currentPage secondOfTwo <= totalPages secondOfTwo)%Z /\
  nextPage (previousPage secondOfTwo) = secondOfTwo.
Proof.
  assert (H1 : paged secondOfTwo) by exact secondOfTwo_paged.
  assert (H2 : (1 < currentPage secondOfTwo <= totalPages secondOfTwo)%Z)
    by (cbn; lia).
  split; [exact H1|]. split; [exact H2|].
  exact (nextPage_undoes_previousPage secondOfTwo H1 H2).
Defined.

(** X18: [nextPage] followed by [previousPage] is the identity on a
    consistent table that is not on its last page. *)
Theorem previousPage_undoes_nextPage :
  forall t : DataTable,
    paged t -> (currentPage t < totalPages t)%Z ->
    previousPage (nextPage t) = t.
Proof.
  intros t H Hc. now apply previousPage_nextPage.
Qed.

Lemma previousPage_undoes_nextPage_witness :
  paged firstOfTwo /\
  (currentPage firstOfTwo < totalPages firstOfTwo)%Z /\
  previousPage (nextPage firstOfTwo) = firstOfTwo.
Proof.
  assert (H1 : paged firstOfTwo) by exact firstOfTwo_paged.
  assert (H2 : (currentPage firstOfTwo < totalPages firstOfTwo)%Z)
    by (cbn; lia).
  split; [exact H1|]. split; [exact H2|].
  exact (previousPage_undoes_nextPage firstOfTwo H1 H2).
Defined.

(** X19: when the current page is one of the pages, [getPageNumbers]
    returns consecutive page numbers that include the current page, lie
    between 1 and [totalPages], and are five in number, or all the pages
    if there are fewer than five. *)
Theorem getPageNumbers_window_of_five :
  forall t : DataTable,
    (1 <= currentPage t <= totalPages t)%Z ->
    exists first last : Z,
      getPageNumbers t = pushRange first last /\
      (1 <= first <= currentPage t)%Z /\
      (currentPage t <= last <= totalPages t)%Z /\
      (last - first + 1 = Z.min 5 (totalPages t))%Z.
Proof.
  intros t H. now apply getPageNumbers_window.
Qed.

Lemma getPageNumbers_window_of_five_witness :
  (1 <= currentPage seventhOfTwenty <= totalPages seventhOfTwenty)%Z /\
  exists first last : Z,
    getPageNumbers seventhOfTwenty = pushRange first last /\
    (1 <= first <= currentPage seventhOfTwenty)%Z /\
    (currentPage seventhOfTwenty <= last <= totalPages seventhOfTwenty)%Z /\
    (last - first + 1 = Z.min 5 (totalPages seventhOfTwenty))%Z.
Proof.
  assert (H : (1 <= currentPage seventhOfTwenty
               <= totalPages seventhOfTwenty)%Z) by (cbn; lia).
  split; [exact H|].
  exact (getPageNumbers_window_of_five seventhOfTwenty H).
Defined.

(** X20: when there is no page, [getPageNumbers] returns the empty
    array. *)
Theorem getPageNumbers_no_page :
  forall t : DataTable,
    (totalPages t <= 0)%Z -> getPageNumbers t = [].
Proof.
  intros t H. now apply getPageNumbers_empty.
Qed.

Lemma getPageNumbers_no_page_witness :
  (totalPages newDataTable <= 0)%Z /\ getPageNumbers newDataTable = [].
Proof.
  assert (H : (totalPages newDataTable <= 0)%Z) by (cbn; lia).
  split; [exact H|].
  exact (getPageNumbers_no_page newDataTable H).
Defined.

(** X21: on a consistent table with at least one filtered record, the
    two numbers [start] and [end] of [getDisplayRange] number the records
    displayed: 1 <= start <= end <= number of filtered records, the page
    displays end - start + 1 records, and these are the filtered records
    from the [start]-th to the [end]-th. *)
Theorem getDisplayRange_matches_page :
  forall t : DataTable,
    paged t -> filteredEmployees t <> [] ->
    let start := fst (displayRange t) in
    let final := snd (displayRange t) in
    (1 <= start <= final)%Z /\
    (final <= Z.of_nat (length (filteredEmployees t)))%Z /\
    Z.of_nat (length (displayedEmployees t)) = (final - start + 1)%Z /\
    displayedEmployees t =
    firstn (Z.to_nat (final - start + 1))
           (skipn (Z.to_nat (start - 1)) (filteredEmployees t)).
Proof.
  intros t H Hne. now apply displayRange_shown.
Qed.

Lemma getDisplayRange_matches_page_witness :
  paged secondOfTwo /\ filteredEmployees secondOfTwo <> [] /\
  let start := fst (displayRange secondOfTwo) in
  let final := snd (displayRange secondOfTwo) in
  (1 <= start <= final)%Z /\
  (final <= Z.of_nat (length (filteredEmployees secondOfTwo)))%Z /\
  Z.of_nat (length (displayedEmployees secondOfTwo))
  = (final - start + 1)%Z /\
  displayedEmployees secondOfTwo =
  firstn (Z.to_nat (final - start + 1))
         (skipn (Z.to_nat (start - 1)) (filteredEmployees secondOfTwo)).
Proof.
  assert (H1 : paged secondOfTwo) by exact secondOfTwo_paged.
  assert (H2 : filteredEmployees secondOfTwo <> []) by (cbn; discriminate).
  split; [exact H1|]. split; [exact H2|].
  exact (getDisplayRange_matches_page secondOfTwo H1 H2).
Defined.

(** X22: sorting by a string column ([sortEmployees] with any column
    but [id]) puts the records in the order of their lower-cased values
    in this column, ascending or descending as the direction says, and
    keeps the records with the same lower-cased value in the order they
    had. *)
Theorem sortEmployees_by_string_column :
  forall (toLowerCase : jsstring -> jsstring)
         (NumberToString : number -> jsstring)
         (c : Column) (d : SortDirection) (l : list Employee),
    c <> ColId ->
    let out := Array_sort (compareColumn toLowerCase NumberToString c d) l in
    StronglySorted (fun a b => keyOrder d (sortKey toLowerCase c a)
                                        (sortKey toLowerCase c b)) out /\
    forall k : jsstring,
      filter (fun e => str_eqb (sortKey toLowerCase c e) k) out =
      filter (fun e => str_eqb (sortKey toLowerCase c e) k) l.
Proof.
  intros toLowerCase NumberToString c d l Hc.
  exact (@sort_string_column toLowerCase NumberToString c d l Hc).
Qed.

Lemma sortEmployees_by_string_column_witness :
  ColLastName <> ColId /\
  let out := Array_sort (compareColumn toLowerCaseASCII noDigits
                                       ColLastName Desc) staff in
  StronglySorted (fun a b => keyOrder Desc
                               (sortKey toLowerCaseASCII ColLastName a)
                               (sortKey toLowerCaseASCII ColLastName b)) out /\
  forall k : jsstring,
    filter (fun e => str_eqb (sortKey toLowerCaseASCII ColLastName e) k) out =
    filter (fun e => str_eqb (sortKey toLowerCaseASCII ColLastName e) k) staff.
Proof.
  assert (H : ColLastName <> ColId) by discriminate.
  split; [exact H|].
  exact (sortEmployees_by_string_column toLowerCaseASCII noDigits
                                        ColLastName Desc staff H).
Defined.

(** X23: sorting by the [id] column puts records with finite ids in the
    order of their ids, ascending or descending as the direction says,
    and keeps the records with the same id in the order they had. *)
Theorem sortEmployees_by_id :
  forall (toLowerCase : jsstring -> jsstring)
         (NumberToString : number -> jsstring)
         (d : SortDirection) (l : list Employee),
    Forall (fun e => finite (id e)) l ->
    let out :=
      Array_sort (compareColumn toLowerCase NumberToString ColId d) l in
    StronglySorted (idOrder d) out /\
    forall v : Q,
      filter (fun e => Qeq_bool (value (id e)) v) out =
      filter (fun e => Qeq_bool (value (id e)) v) l.
Proof.
  intros toLowerCase NumberToString d l H.
  exact (@sort_id_column toLowerCase NumberToString d l H).
Qed.

Lemma sortEmployees_by_id_witness :
  Forall (fun e => finite (id e)) staff /\
  let out :=
    Array_sort (compareColumn toLowerCaseASCII noDigits ColId Asc) staff in
  StronglySorted (idOrder Asc) out /\
  forall v : Q,
    filter (fun e => Qeq_bool (value (id e)) v) out =
    filter (fun e => Qeq_bool (value (id e)) v) staff.
Proof.
  assert (H : Forall (fun e => finite (id e)) staff)
    by (repeat constructor; eexists; reflexivity).
  split; [exact H|].
  exact (sortEmployees_by_id toLowerCaseASCII noDigits Asc staff H).
Defined.

(** X24: with a positive page size, [applyFilters] leaves the table on
    page 1, with the records found by [searchEmployees] for the search
    term, sorted by the current column, as filtered records, and the
    first [pageSize] of them displayed. *)
Theorem applyFilters_shows_first_page :
  forall (toLowerCase : jsstring -> jsstring)
         (NumberToString : number -> jsstring) (t : DataTable),
    (0 < pageSize t)%Z ->
    let t' := applyFilters toLowerCase NumberToString t in
    currentPage t' = 1%Z /\
    filteredEmployees t' =
      sortedRows toLowerCase NumberToString (sortState t)
        (searchEmployees toLowerCase (allEmployees t) (searchTerm t)) /\
    displayedEmployees t' =
      firstn (Z.to_nat (pageSize t)) (filteredEmployees t').
Proof.
  intros toLowerCase NumberToString t H.
  exact (@applyFilters_first_page toLowerCase NumberToString t H).
Qed.

Lemma applyFilters_shows_first_page_witness :
  (0 < pageSize unsearched)%Z /\
  let t' := applyFilters toLowerCaseASCII noDigits unsearched in
  currentPage t' = 1%Z /\
  filteredEmployees t' =
    sortedRows toLowerCaseASCII noDigits (sortState unsearched)
      (searchEmployees toLowerCaseASCII (allEmployees unsearched)
                       (searchTerm unsearched)) /\
  displayedEmployees t' =
    firstn (Z.to_nat (pageSize unsearched)) (filteredEmployees t').
Proof.
  assert (H : (0 < pageSize unsearched)%Z) by (cbn; lia).
  split; [exact H|].
  exact (applyFilters_shows_first_page toLowerCaseASCII noDigits unsearched H).
Defined.

(** X29: in every state the table reaches sorted by a string column,
    two clicks on the header of this column ([onSort] twice) restore the
    state exactly: sorting the other way round and back changes
    nothing, not even the order of records with equal values. *)
Theorem onSort_twice_restores :
  forall (toLowerCase : jsstring -> jsstring)
         (NumberToString : number -> jsstring)
         (events : list TableEvent) (c : Column),
    column (sortState (reached toLowerCase NumberToString events)) = Some c ->
    c <> ColId ->
    onSort toLowerCase NumberToString c
      (onSort toLowerCase NumberToString c
         (reached toLowerCase NumberToString events))
    = reached toLowerCase NumberToString events.
Proof.
  intros toLowerCase NumberToString events c Ec Hc.
  apply (@onSort_twice toLowerCase NumberToString c
           (reached toLowerCase NumberToString events)).
  - apply ok_paged with (toLowerCase := toLowerCase).
    apply run_ok. apply newDataTable_ok.
  - apply run_sorted. apply newDataTable_sorted.
  - exact Ec.
  - exact Hc.
Qed.

Lemma onSort_twice_restores_witness :
  column (sortState (reached toLowerCaseASCII noDigits
                             [Loaded staff; Sort ColLastName]))
  = Some ColLastName /\
  ColLastName <> ColId /\
  onSort toLowerCaseASCII noDigits ColLastName
    (onSort toLowerCaseASCII noDigits ColLastName
       (reached toLowerCaseASCII noDigits [Loaded staff; Sort ColLastName]))
  = reached toLowerCaseASCII noDigits [Loaded staff; Sort ColLastName].
Proof.
  assert (H1 : column (sortState (reached toLowerCaseASCII noDigits
                                          [Loaded staff; Sort ColLastName]))
               = Some ColLastName) by (vm_compute; reflexivity).
  assert (H2 : ColLastName <> ColId) by discriminate.
  split; [exact H1|]. split; [exact H2|].
  exact (onSort_twice_restores toLowerCaseASCII noDigits
           [Loaded staff; Sort ColLastName] ColLastName H1 H2).
Defined.

(** ** Further properties of the carousel *)

(** X25: once [ngOnInit] has run on a carousel with at least one slide,
    and whatever has happened since, [goToSlide(index)] with an index of
    a slide makes [getActiveSlideIndex()] equal to this index. *)
Theorem goToSlide_sets_active :
  forall (s : list Slide) (events : list CarouselEvent) (index : nat),
    s <> [] -> (index < length s)%nat ->
    let c := fold_left handleCarousel events (ngOnInit (newCarousel s)) in
    same_number (getActiveSlideIndex (goToSlide (of_nat index) c))
                (of_nat index).
Proof.
  intros s events index Hs Hi c.
  destruct (@run_turned events (ngOnInit (newCarousel s))
              (ex_intro _ 0%Z (turned_new Hs))) as (k & H).
  apply (@goToSlide_active c k index H).
  unfold c. rewrite run_slides. exact Hi.
Qed.

Lemma goToSlide_sets_active_witness :
  theSlides <> [] /\ (3 < length theSlides)%nat /\
  let c := fold_left handleCarousel [PrevSlide; Tick]
                     (ngOnInit (newCarousel theSlides)) in
  same_number (getActiveSlideIndex (goToSlide (of_nat 3) c)) (of_nat 3).
Proof.
  assert (H1 : theSlides <> []) by discriminate.
  assert (H2 : (3 < length theSlides)%nat) by (cbn; lia).
  split; [exact H1|]. split; [exact H2|].
  exact (goToSlide_sets_active theSlides [PrevSlide; Tick] 3%nat H1 H2).
Defined.

(** X26: once [ngOnInit] has run on a carousel with [n] slides, n > 0,
    and whatever has happened since, [getActiveSlideIndex()] is the
    index [i] of a slide, [nextSlide()] makes it [(i + 1) mod n] and
    [prevSlide()] makes it [(i + n - 1) mod n]. *)
Theorem active_slide_steps :
  forall (s : list Slide) (events : list CarouselEvent),
    s <> [] ->
    let c := fold_left handleCarousel events (ngOnInit (newCarousel s)) in
    exists i : nat,
      (i < length s)%nat /\
      same_number (getActiveSlideIndex c) (of_nat i) /\
      same_number (getActiveSlideIndex (nextSlide c))
                  (of_nat ((i + 1) mod length s)) /\
      same_number (getActiveSlideIndex (prevSlide c))
                  (of_nat ((i + length s - 1) mod length s)).
Proof.
  intros s events Hs c.
  destruct (@run_turned events (ngOnInit (newCarousel s))
              (ex_intro _ 0%Z (turned_new Hs))) as (k & H).
  pose proof (active_steps H) as A. fold c in A.
  assert (E : slides c = s) by (unfold c; now rewrite run_slides).
  now rewrite E in A.
Qed.

Lemma active_slide_steps_witness :
  theSlides <> [] /\
  let c := fold_left handleCarousel [PrevSlide; Tick]
                     (ngOnInit (newCarousel theSlides)) in
  exists i : nat,
    (i < length theSlides)%nat /\
    same_number (getActiveSlideIndex c) (of_nat i) /\
    same_number (getActiveSlideIndex (nextSlide c))
                (of_nat ((i + 1) mod length theSlides)) /\
    same_number (getActiveSlideIndex (prevSlide c))
                (of_nat ((i + length theSlides - 1) mod length theSlides)).
Proof.
  assert (H : theSlides <> []) by discriminate.
  split; [exact H|].
  exact (active_slide_steps theSlides [PrevSlide; Tick] H).
Defined.

(** X27: once [ngOnInit] has run on the carousel with the four slides
    of the component, and whatever has happened since, the card that
    [getCardTransform] places at a whole number of full turns, facing
    the viewer, is the card of the slide that [getActiveSlideIndex()]
    returns, and no other.  With four slides every angle is a multiple
    of 90, which double precision holds exactly (as long as the
    rotation stays below 2^53 degrees in size); for a number of slides
    that does not divide 360 the card angles of the code are rounded and
    need not be whole turns. *)
Theorem active_slide_is_front_card :
  forall (events : list CarouselEvent) (j : nat),
    (j < length theSlides)%nat ->
    let c := fold_left handleCarousel events
                       (ngOnInit (newCarousel theSlides)) in
    full_turns (cardAngle c (of_nat j)) <->
    same_number (getActiveSlideIndex c) (of_nat j).
Proof.
  intros events j Hj c.
  assert (Hs : theSlides <> []) by discriminate.
  destruct (@run_turned events (ngOnInit (newCarousel theSlides))
              (ex_intro _ 0%Z (turned_new Hs))) as (k & H).
  apply (@front_card c k j H).
  unfold c. rewrite run_slides. exact Hj.
Qed.

Lemma active_slide_is_front_card_witness :
  (1 < length theSlides)%nat /\
  let c := fold_left handleCarousel [NextSlide; Tick; PrevSlide; NextSlide]
                     (ngOnInit (newCarousel theSlides)) in
  (full_turns (cardAngle c (of_nat 1)) <->
   same_number (getActiveSlideIndex c) (of_nat 1)).
Proof.
  assert (H : (1 < length theSlides)%nat) by (cbn; lia).
  split; [exact H|].
  exact (active_slide_is_front_card
           [NextSlide; Tick; PrevSlide; NextSlide] 1%nat H).
Defined.

(** X28: as long as [ngOnInit] has not run, [anglePerSlide] is 0 and
    [getActiveSlideIndex()] returns [NaN], whatever else has been
    called. *)
Theorem getActiveSlideIndex_before_init :
  forall (s : list Slide) (events : list CarouselEvent),
    no_Init events ->
    getActiveSlideIndex (fold_left handleCarousel events (newCarousel s))
    = NaN.
Proof.
  intros s events Hno.
  destruct (@run_no_angle events (newCarousel s) Hno) as [Ha Hr].
  - split; [reflexivity | now exists 0].
  - now apply getActiveSlideIndex_no_angle.
Qed.

Lemma getActiveSlideIndex_before_init_witness :
  no_Init [GoToSlide 2; NextSlide] /\
  getActiveSlideIndex
    (fold_left handleCarousel [GoToSlide 2; NextSlide] (newCarousel theSlides))
  = NaN.
Proof.
  assert (H : no_Init [GoToSlide 2; NextSlide])
    by (repeat constructor; discriminate).
  split; [exact H|].
  exact (getActiveSlideIndex_before_init theSlides [GoToSlide 2; NextSlide] H).
Defined.

(** X30: when [ngOnInit] runs once, at the start, the carousel never
    has more than the one interval subscription it holds, whatever is
    called afterwards, and [ngOnDestroy] leaves none. *)
Theorem autoPlay_single_interval :
  forall (s : list Slide) (events : list CarouselEvent),
    no_Init events ->
    let c := fold_left handleCarousel events (ngOnInit (newCarousel s)) in
    liveIntervals c = (if autoPlaySubscription c then 1 else 0)%nat /\
    liveIntervals (ngOnDestroy c) = 0%nat.
Proof.
  intros s events Hno c.
  assert (H : one_interval c).
  { unfold c. apply run_one_interval; [exact Hno | reflexivity]. }
  split; [exact H|].
  unfold one_interval in H. unfold ngOnDestroy, stopAutoPlay.
  destruct (autoPlaySubscription c); [cbn; now rewrite H | exact H].
Qed.

Lemma autoPlay_single_interval_witness :
  no_Init [NextSlide; Tick; Destroy; PrevSlide] /\
  let c := fold_left handleCarousel [NextSlide; Tick; Destroy; PrevSlide]
                     (ngOnInit (newCarousel theSlides)) in
  liveIntervals c = (if autoPlaySubscription c then 1 else 0)%nat /\
  liveIntervals (ngOnDestroy c) = 0%nat.
Proof.
  assert (H : no_Init [NextSlide; Tick; Destroy; PrevSlide])
    by (repeat constructor; discriminate).
  split; [exact H|].
  exact (autoPlay_single_interval theSlides
           [NextSlide; Tick; Destroy; PrevSlide] H).
Defined.


(** ** The order of the result *)

(** C2: for a query whose trimmed form is non-empty, the output of
    [searchEmployees] is in descending order of score, and the records of
    any one score appear in the order they have among the kept records of
    the input (the sort is stable and has no secondary key).

    The score of a record is the number the code computes for it, the
    maximum of its seven field scores.  The statement is made for field
    scores of any origin ([searchEmployees_by]), provided they are finite
    numbers, as the scores of [fuzzyMatchScore] are: for the exact
    scores of [fuzzyMatchScore] above ([searchEmployees_by_exact]) and
    for the doubles of the code ([F64.score], [doubles_ranked]).  Two
    records whose exact scores are equal but whose doubles differ are not
    of one score in the code, which returns the greater double first
    ([doubles_split_tie]). *)
Theorem searchEmployees_sorted_stable :
  forall (matchScore : jsstring -> jsstring -> number) (threshold : number)
         (employees : list Employee) (query : jsstring),
    trim query <> [] ->
    (forall e, In e employees -> scored matchScore (trim query) e) ->
    let term := trim query in
    let out := searchEmployees_by matchScore threshold employees query in
    (forall e, In e employees ->
               bestScore_by matchScore term e =
               Fin (recordScore_by matchScore term e)) /\
    StronglySorted (descending (recordScore_by matchScore term)) out /\
    (forall v : Q,
        withScore_by matchScore term v out =
        withScore_by matchScore term v
                     (filter (kept_by matchScore threshold term) employees)).
Proof.
  intros matchScore threshold employees query Hq Hsc.
  exact (@ranking_by_sorted_stable matchScore threshold employees query
                                   Hq Hsc).
Qed.

Lemma searchEmployees_sorted_stable_witness :
  trim (lit " jon ") <> [] /\
  (forall e, In e staff ->
             scored (fuzzyMatchScore toLowerCaseASCII) (trim (lit " jon ")) e) /\
  let term := trim (lit " jon ") in
  let out := searchEmployees_by (fuzzyMatchScore toLowerCaseASCII)
                                fuzzyThreshold staff (lit " jon ") in
  (forall e, In e staff ->
             bestScore_by (fuzzyMatchScore toLowerCaseASCII) term e =
             Fin (recordScore_by (fuzzyMatchScore toLowerCaseASCII) term e)) /\
  StronglySorted
    (descending (recordScore_by (fuzzyMatchScore toLowerCaseASCII) term)) out /\
  (forall v : Q,
      withScore_by (fuzzyMatchScore toLowerCaseASCII) term v out =
      withScore_by (fuzzyMatchScore toLowerCaseASCII) term v
        (filter (kept_by (fuzzyMatchScore toLowerCaseASCII) fuzzyThreshold term)
                staff)).
Proof.
  assert (H1 : trim (lit " jon ") <> []) by (vm_compute; discriminate).
  assert (H2 : forall e, In e staff ->
                 scored (fuzzyMatchScore toLowerCaseASCII)
                        (trim (lit " jon ")) e).
  { intros e [<- | [<- | [<- | []]]]; vm_compute; repeat constructor;
      eexists; reflexivity. }
  split; [exact H1|]. split; [exact H2|].
  exact (searchEmployees_sorted_stable (fuzzyMatchScore toLowerCaseASCII)
           fuzzyThreshold staff (lit " jon ") H1 H2).
Defined.
